(** * ManifoldNT: adaptive-precision resolution of arithmetic invariants

    A shallow embedding of [python/snap/ManifoldNT.py].  The class keeps,
    per manifold, the exact trace field, invariant trace field and the two
    quaternion algebras once they are known, together with a "precision
    record" per invariant: a dictionary from attempted coordinates to the
    boolean outcome of the attempt.  The number-theoretic searches
    themselves (Sage, find_field, QuaternionAlgebraNF, field_isomorphisms,
    irreducible_subgroups, misc_functions) are collaborators outside this
    file; they appear as the fields of [Collaborators] and are
    deterministic functions of their arguments.  Two of them are calls
    whose outcome the module does not control, and may raise: Sage's
    logarithm on floats in the planner, and [express] handed a pair as its
    precision. *)

From Stdlib Require Import ZArith Lia.
From stdpp Require Import base decidable option list countable strings gmap fin_maps fin_sets.

Local Open Scope Z_scope.

(** ** Python values *)

(** [PrecDegreeTuple = namedtuple("PrecDegreeTuple", ["prec", "degree"])] *)
Record PrecDegreeTuple : Type := PDT { prec : Z; degree : Z }.

#[global] Instance PrecDegreeTuple_eq_dec : EqDecision PrecDegreeTuple.
Proof. solve_decision. Defined.

#[global] Instance PrecDegreeTuple_countable : Countable PrecDegreeTuple :=
  inj_countable' (λ t, (prec t, degree t)) (λ p, PDT p.1 p.2)
                 (λ t, match t with PDT _ _ => eq_refl end).

(** Tuples compare lexicographically; [max(a, b)] keeps [a] unless [b > a]. *)
Definition pdt_ltb (a b : PrecDegreeTuple) : bool :=
  (prec a <? prec b) || ((prec a =? prec b) && (degree a <? degree b)).

Definition pdt_max (a b : PrecDegreeTuple) : PrecDegreeTuple :=
  if pdt_ltb a b then b else a.

(** The exceptions the module can raise, directly or through a builtin. *)
Inductive exn : Type :=
| ValueError (msg : string)
| RuntimeError (msg : string)
| ZeroDivisionError
| OverflowError
| AttributeError
| TypeError
| KeyError.

#[global] Instance exn_eq_dec : EqDecision exn.
Proof. solve_decision. Defined.

(** Outcome of a call: a value, a raised exception, or no outcome at all
    (the [while True] loops below may spin forever; a call that exhausts
    its fuel is [Diverge]). *)
Inductive Res (A : Type) : Type :=
| Ok (a : A)
| Raise (e : exn)
| Diverge.
Arguments Ok {A} a.
Arguments Raise {A} e.
Arguments Diverge {A}.

#[global] Instance Res_ret : MRet Res := λ A a, Ok a.
#[global] Instance Res_bind : MBind Res := λ A B f r,
  match r with
  | Ok a => f a
  | Raise e => Raise e
  | Diverge => Diverge
  end.
#[global] Instance Res_fmap : FMap Res := λ A B f r,
  match r with
  | Ok a => Ok (f a)
  | Raise e => Raise e
  | Diverge => Diverge
  end.

(** [min(l)] and [max(l)] on a list of integers; both raise [ValueError]
    on the empty list. *)
Definition py_min (l : list Z) : Res Z :=
  match l with
  | [] => Raise (ValueError "min() arg is an empty sequence")
  | x :: l' => Ok (foldr Z.min x l')
  end.

Definition py_max (l : list Z) : Res Z :=
  match l with
  | [] => Raise (ValueError "max() arg is an empty sequence")
  | x :: l' => Ok (foldr Z.max x l')
  end.

(** Dictionary views.  [values record] is [record.values()];
    [keys_where b record] is the comprehension
    [[k for k in record if record[k]]] (for [b = true]) or
    [[k for k in record if not record[k]]] (for [b = false]).  The order of
    a Python dictionary is irrelevant to every use below ([min], [max],
    [in]). *)
Definition values {K} `{Countable K} (record : gmap K bool) : list bool :=
  (map_to_list record).*2.

Definition keys_where {K} `{Countable K} (b : bool) (record : gmap K bool) : list K :=
  (filter (λ kv, kv.2 = b) (map_to_list record)).*1.

(** ** The degree override as the specification words it

    [ceil(log2(precision * (degreeIncrement / precisionIncrement) / d2) + 1) * d2],
    in exact arithmetic on the ratio
    [precision * degreeIncrement / (precisionIncrement * d2)]; kept apart
    from the code's [floor(log(..., 2)) + 1], which is computed on floats by
    Sage and is the collaborator [floor_log] below, to compare the two. *)
Definition ceil_log2_ratio (num den : Z) : Z :=
  if den <=? num then Z.log2_up ((num + den - 1) / den)
  else - Z.log2 (den / num).

Definition spec_corrected_degree
    (precision degreeIncrement precisionIncrement d2 : Z) : Z :=
  (ceil_log2_ratio (precision * degreeIncrement) (precisionIncrement * d2) + 1)
  * d2.

(** The names of the four invariants, after [fix_names]. *)
Inductive Invariant : Type :=
| TraceField
| InvariantTraceField
| QuaternionAlgebra
| InvariantQuaternionAlgebra.

#[global] Instance Invariant_eq_dec : EqDecision Invariant.
Proof. solve_decision. Defined.

(** [name.lower().strip()] on names whose characters are the code points
    below 256, one [ascii] per code point (not a byte of an encoding).
    There [str.lower] maps the upper-case letters, A-Z (65-90) and the
    Latin-1 capitals (192-214 and 216-222), to the code point 32 above and
    leaves every other character as it is; [str.strip] removes, at both
    ends, the characters Python counts as white space: 9-13, 28-32, 133
    (NEXT LINE) and 160 (NO-BREAK SPACE). *)
Definition lower_char (c : Ascii.ascii) : Ascii.ascii :=
  let n := Ascii.nat_of_ascii c in
  if (((65 <=? n) && (n <=? 90))
      || ((192 <=? n) && (n <=? 214))
      || ((216 <=? n) && (n <=? 222)))%nat
  then Ascii.ascii_of_nat (n + 32) else c.

Fixpoint lower (name : string) : string :=
  match name with
  | EmptyString => EmptyString
  | String c rest => String (lower_char c) (lower rest)
  end.

Definition is_whitespace (c : Ascii.ascii) : bool :=
  let n := Ascii.nat_of_ascii c in
  (((9 <=? n) && (n <=? 13)) || ((28 <=? n) && (n <=? 32))
   || (n =? 133) || (n =? 160))%nat.

Fixpoint lstrip (name : string) : string :=
  match name with
  | EmptyString => EmptyString
  | String c rest => if is_whitespace c then lstrip rest else name
  end.

Definition strip (name : string) : string :=
  String.rev (lstrip (String.rev (lstrip name))).

(** [fix_names(name)]; the four canonical names are the constructors of
    [Invariant]. *)
Definition fix_names (name : string) : Res Invariant :=
  let name := strip (lower name) in
  if bool_decide (name = "tf" ∨ name = "trace field") then Ok TraceField
  else if bool_decide (name = "itf" ∨ name = "invariant trace field")
       then Ok InvariantTraceField
  else if bool_decide (name = "qa" ∨ name = "quaternion algebra")
       then Ok QuaternionAlgebra
  else if bool_decide (name = "iqa" ∨ name = "invariant quaternion algebra")
       then Ok InvariantQuaternionAlgebra
  else Raise (ValueError "Name not recognized").

(** The name [fix_names] returns for each invariant. *)
Definition canonical_name (invariant : Invariant) : string :=
  match invariant with
  | TraceField => "trace field"
  | InvariantTraceField => "invariant trace field"
  | QuaternionAlgebra => "quaternion algebra"
  | InvariantQuaternionAlgebra => "invariant quaternion algebra"
  end.

(** What [next_prec_and_degree] returns: a named pair for the fields, a
    bare integer for the algebras. *)
Inductive Planned : Type :=
| PairOf (t : PrecDegreeTuple)
| PrecOf (p : Z).

(** Attribute access [.prec] and [.degree] on a planner result. *)
Definition planned_prec (r : Planned) : Res Z :=
  match r with PairOf t => Ok (prec t) | PrecOf _ => Raise AttributeError end.

Definition planned_degree (r : Planned) : Res Z :=
  match r with PairOf t => Ok (degree t) | PrecOf _ => Raise AttributeError end.

(** [max(a, b)] of two planner results, the value the comparison methods
    bind to [prec]: an integer when both are precisions of an algebra, a
    whole [PrecDegreeTuple] when both are coordinates of a field. *)
Inductive PrecArg : Type :=
| PrecInt (p : Z)
| PrecTuple (t : PrecDegreeTuple).

(** [x] is the largest value of [attr] over the failed coordinates of
    [record]. *)
Definition largest_failed (attr : PrecDegreeTuple → Z)
    (record : gmap PrecDegreeTuple bool) (x : Z) : Prop :=
  (∃ k, record !! k = Some false ∧ attr k = x)
  ∧ (∀ k, record !! k = Some false → attr k ≤ x).

(** A planner result used as the integer it is for the algebras. *)
Definition planned_int (r : Planned) : Res Z :=
  match r with PrecOf v => Ok v | PairOf _ => Raise TypeError end.

(** ** The class and its collaborators *)

Section Engine.

(** Opaque values produced by the collaborators: the wrapped SnapPy
    manifold, a [ListOfApproximateAlgebraicNumbers], a Sage number field, an
    [ApproximateAlgebraicNumber], an exact field element, a polynomial
    returned by [express], a word in the group generators, an ideal, a
    [QuaternionAlgebraNF], a field isomorphism.  [==] on them is decidable
    equality. *)
Context {Host Gens Field AAN Elt Poly Word Ideal Algebra Iso : Type}.
Context `{EqDecision Field} `{EqDecision Algebra}.
Context `{Countable Ideal}.

Record Collaborators : Type := {
  (* the host manifold *)
  elementary_divisors : Host → list Z;
  trace_field_gens : Host → Gens;
  invariant_trace_field_gens : Host → Gens;
  (* ListOfApproximateAlgebraicNumbers *)
  find_field : Gens → Z → Z → option (Field * AAN * list Elt);
  gens_list : Gens → list AAN;
  (* Sage number fields *)
  field_degree : Field → Z;
  (* Sage's floor(log(prec * (degree_increment / prec_increment) / itf_deg, 2))
     of lines 173 and 208-209, on floats, as a function of the four
     integers; nothing is assumed about it.  It raises what Python and Sage
     raise there (OverflowError for a precision too large for a float), and
     it is Ok l only where they return the integer l *)
  floor_log : Z → Z → Z → Z → Res Z;
  signature : Field → Z * Z;
  field_is_isomorphic : Field → Field → bool;
  (* field_isomorphisms; [compare_arithmetic_invariants] may hand it None *)
  same_subfield_of_CC : option Field → option Field → bool → Res bool;
  special_isomorphism :
    Field → Field → list (option Poly) → list (option Poly) → Iso;
  apply_iso : Iso → Ideal → Ideal;
  (* irreducible_subgroups, misc_functions, approximate traces *)
  find_hilbert_symbol_words : Host → Z → Z → Word * Word;
  commutator_of_words : Word → Word → Word;
  approximate_trace : Host → Word → AAN;
  aan_of_int : Z → AAN;
  aan_pow : AAN → Z → AAN;
  aan_sub : AAN → AAN → AAN;
  (* ApproximateAlgebraicNumber.express(a, prec=<an integer>) and the
     polynomial it returns *)
  express : AAN → AAN → Z → option Poly;
  (* the same method handed a whole PrecDegreeTuple as prec, which only
     _same_denominators does (lines 911-924); nothing is assumed about the
     outcome of such a call *)
  express_given_pair : AAN → AAN → PrecDegreeTuple → Res (option Poly);
  poly_is_zero : Poly → bool;
  poly_at_gen : Poly → Field → Elt;
  (* QuaternionAlgebraNF *)
  mk_algebra : Field → Elt → Elt → Algebra;
  ramified_real_places : Algebra → list Z;
  ramified_residue_characteristics : Algebra → list (Z * Z);
  algebra_is_isomorphic : Algebra → Algebra → bool;
  new_QA_via_field_isomorphism : Algebra → Iso → Algebra;
  (* ideals *)
  denominator_ideal : Elt → Ideal;
  factor : Ideal → list (Ideal * Z);
  absolute_norm : Ideal → Z;
  find_prime_factors_in_a_set : gset Z → gset Z
}.

Variable X : Collaborators.

(** The instance attributes set by [__init__].  [None] is Python's [None];
    a field or an algebra that is not [None] is truthy.  The dictionary
    [_dict_of_prec_records] holds the four record dictionaries themselves
    (not copies), so it is the function [field_record] / [algebra_record]
    below. *)
Record ManifoldNT : Type := {
  _snappy_mfld : Host;
  _trace_field : option Field;
  _trace_field_numerical_root : option AAN;
  _trace_field_generators : option (list Elt);
  _trace_field_prec_record : gmap PrecDegreeTuple bool;
  _invariant_trace_field : option Field;
  _invariant_trace_field_numerical_root : option AAN;
  _invariant_trace_field_generators : option (list Elt);
  _invariant_trace_field_prec_record : gmap PrecDegreeTuple bool;
  _quaternion_algebra : option Algebra;
  _quaternion_algebra_prec_record : gmap Z bool;
  _invariant_quaternion_algebra : option Algebra;
  _invariant_quaternion_algebra_prec_record : gmap Z bool;
  _denominators : option (gset Ideal);
  _denominator_residue_characteristics : option (gset Z);
  _approx_trace_field_gens : Gens;
  _approx_invariant_trace_field_gens : Gens
}.

(** [_arithmetic_invariants_known()] *)
Definition _arithmetic_invariants_known (self : ManifoldNT) : bool :=
  let basic_invariants_known :=
    bool_decide (is_Some (_trace_field self))
    && bool_decide (is_Some (_invariant_trace_field self))
    && bool_decide (is_Some (_quaternion_algebra self))
    && bool_decide (is_Some (_invariant_quaternion_algebra self)) in
  let denominators_known := bool_decide (is_Some (_denominators self)) in
  basic_invariants_known && denominators_known.

(** [is_modtwo_homology_sphere]: no elementary divisor is zero or even. *)
Definition is_modtwo_homology_sphere (self : ManifoldNT) : bool :=
  let factors :=
    filter (λ divisor, divisor = 0 ∨ divisor `mod` 2 = 0)
           (elementary_divisors X (_snappy_mfld self)) in
  bool_decide (length factors = 0%nat).

(** [__init__(snappy_mfld=...)] *)
Definition init (snappy_mfld : Host) : ManifoldNT :=
  let sphere :=
    bool_decide (length (filter (λ divisor, divisor = 0 ∨ divisor `mod` 2 = 0)
                                (elementary_divisors X snappy_mfld)) = 0%nat) in
  {| _snappy_mfld := snappy_mfld;
     _trace_field := None;
     _trace_field_numerical_root := None;
     _trace_field_generators := None;
     _trace_field_prec_record := ∅;
     _invariant_trace_field := None;
     _invariant_trace_field_numerical_root := None;
     _invariant_trace_field_generators := None;
     _invariant_trace_field_prec_record := ∅;
     _quaternion_algebra := None;
     _quaternion_algebra_prec_record := ∅;
     _invariant_quaternion_algebra := None;
     _invariant_quaternion_algebra_prec_record := ∅;
     _denominators := None;
     _denominator_residue_characteristics := None;
     _approx_trace_field_gens := trace_field_gens X snappy_mfld;
     _approx_invariant_trace_field_gens :=
       if sphere then trace_field_gens X snappy_mfld
       else invariant_trace_field_gens X snappy_mfld |}.

(** [_dict_of_prec_records[invariant]] for the two field kinds and for the
    two algebra kinds. *)
Definition field_record (self : ManifoldNT) (invariant : Invariant)
  : gmap PrecDegreeTuple bool :=
  match invariant with
  | TraceField => _trace_field_prec_record self
  | _ => _invariant_trace_field_prec_record self
  end.

Definition algebra_record (self : ManifoldNT) (invariant : Invariant)
  : gmap Z bool :=
  match invariant with
  | QuaternionAlgebra => _quaternion_algebra_prec_record self
  | _ => _invariant_quaternion_algebra_prec_record self
  end.

(** ** [next_prec_and_degree] *)

(** The cross-invariant override of the candidate degree, lines 200-217:
    first the branch for "trace field" with a known invariant trace field,
    then the branch for "invariant trace field" with a known trace field.
    Lines 208-209, [implied_deg = newpair.prec * asymptotic_ratio] and
    [floor(log(implied_deg / itf_deg, 2))], are computed on floats, from the
    float [asymptotic_ratio = degree_increment / prec_increment] of line
    173: they are the collaborator [floor_log] on the four integers. *)
Definition correct_degree (self : ManifoldNT) (invariant : Invariant)
    (prec_increment degree_increment : Z) (newpair : PrecDegreeTuple)
  : Res PrecDegreeTuple :=
  newpair ←
    match invariant, _invariant_trace_field self with
    | TraceField, Some itf =>
        let itf_deg := field_degree X itf in
        if is_modtwo_homology_sphere self then Ok (PDT (prec newpair) itf_deg)
        else
          l ← floor_log X (prec newpair) degree_increment prec_increment
                          itf_deg;
          Ok (PDT (prec newpair) ((l + 1) * itf_deg))
    | _, _ => Ok newpair
    end;
  match invariant, _trace_field self with
  | InvariantTraceField, Some tf => Ok (PDT (prec newpair) (field_degree X tf))
  | _, _ => Ok newpair
  end.

(** The one place where the planner for the trace field depends on the
    floats: the invariant trace field is known, the manifold is not a
    mod-2-homology sphere and the record holds failures only.
    [logarithm_returns] says that the computation of lines 208-209 returns
    an integer there. *)
Definition logarithm_returns (self : ManifoldNT) : Prop :=
  ∀ itf largest_failed_prec,
    _invariant_trace_field self = Some itf →
    is_modtwo_homology_sphere self = false →
    (∀ k, _trace_field_prec_record self !! k ≠ Some true) →
    largest_failed prec (_trace_field_prec_record self) largest_failed_prec →
    ∃ l, floor_log X (largest_failed_prec + 5000) 5 5000 (field_degree X itf)
         = Ok l.

(** The branch for "trace field" and "invariant trace field". *)
Definition next_for_field (self : ManifoldNT) (invariant : Invariant)
    (starting_prec starting_degree prec_increment degree_increment : Z)
  : Res PrecDegreeTuple :=
  let record := field_record self invariant in
  if bool_decide (record = ∅) then Ok (PDT starting_prec starting_degree)
  else if bool_decide (true ∈ values record) then
    smallest_successful_prec ← py_min (prec <$> keys_where true record);
    smallest_successful_degree ← py_min (degree <$> keys_where true record);
    Ok (PDT smallest_successful_prec smallest_successful_degree)
  else
    largest_failed_prec ← py_max (prec <$> keys_where false record);
    largest_failed_degree ← py_max (degree <$> keys_where false record);
    correct_degree self invariant prec_increment degree_increment
      (PDT (largest_failed_prec + prec_increment)
           (largest_failed_degree + degree_increment)).

(** The field an algebra is defined over:
    ["trace field" if invariant == "quaternion algebra" else "invariant trace field"] *)
Definition associated_field (invariant : Invariant) : Invariant :=
  if bool_decide (invariant = QuaternionAlgebra) then TraceField
  else InvariantTraceField.

(** The branch for the two quaternion algebras.  The recursive call
    [self.next_prec_and_degree(field)] uses the default arguments. *)
Definition next_for_algebra (self : ManifoldNT) (invariant : Invariant)
    (prec_increment : Z) : Res Z :=
  let record := algebra_record self invariant in
  let field := associated_field invariant in
  field_pair ← next_for_field self field 1000 20 5000 5;
  let field_prec := prec field_pair in
  if bool_decide (record = ∅) then Ok field_prec
  else if bool_decide (true ∈ values record) then
    py_min (keys_where true record)
  else
    largest_failed_prec ← py_max (keys_where false record);
    Ok (Z.max (largest_failed_prec + prec_increment) field_prec).

Definition next_prec_and_degree_with (self : ManifoldNT) (invariant : Invariant)
    (starting_prec starting_degree prec_increment degree_increment : Z)
  : Res Planned :=
  (* asymptotic_ratio = degree_increment / prec_increment *)
  if prec_increment =? 0 then Raise ZeroDivisionError
  else
    match invariant with
    | TraceField | InvariantTraceField =>
        PairOf <$> next_for_field self invariant starting_prec starting_degree
                                  prec_increment degree_increment
    | _ => PrecOf <$> next_for_algebra self invariant prec_increment
    end.

(** [next_prec_and_degree(invariant, starting_prec, ...)] as written, on the
    name of the invariant. *)
Definition next_prec_and_degree_named (self : ManifoldNT) (invariant : string)
    (starting_prec starting_degree prec_increment degree_increment : Z)
  : Res Planned :=
  if prec_increment =? 0 then Raise ZeroDivisionError
  else
    invariant ← fix_names invariant;
    next_prec_and_degree_with self invariant starting_prec starting_degree
                              prec_increment degree_increment.

(** The call with the default arguments, as every caller in the module
    makes it, with ["tf"], ["itf"], ["qa"] or ["iqa"]. *)
Definition next_prec_and_degree (self : ManifoldNT) (invariant : Invariant)
  : Res Planned :=
  next_prec_and_degree_with self invariant 1000 20 5000 5.


(** ** Methods as state transformers

    A method runs on the attributes of [self] and on the log of searches
    handed to the collaborators so far; it leaves both behind together with
    its outcome.  An exception keeps the mutations made before it. *)

Inductive Call : Type :=
| CallFindField (gens : Gens) (prec degree : Z)
| CallHilbertWords (power epsilon_coefficient : Z).

Definition Method (A : Type) : Type :=
  ManifoldNT * list Call → Res A * (ManifoldNT * list Call).

#[global] Instance Method_ret : MRet Method := λ A a s, (Ok a, s).

#[global] Instance Method_bind : MBind Method := λ A B k m s,
  match m s with
  | (Ok a, s') => k a s'
  | (Raise e, s') => (Raise e, s')
  | (Diverge, s') => (Diverge, s')
  end.

Definition lift {A} (r : Res A) : Method A := λ s, (r, s).
Definition raise {A} (e : exn) : Method A := lift (Raise e).
Definition get_self : Method ManifoldNT := λ s, (Ok s.1, s).
Definition modify (f : ManifoldNT → ManifoldNT) : Method unit :=
  λ s, (Ok tt, (f s.1, s.2)).
Definition log_call (c : Call) : Method unit :=
  λ s, (Ok tt, (s.1, s.2 ++ [c])).

(** Attribute assignments. *)
Definition set_trace_field (v : option Field) (m : ManifoldNT) : ManifoldNT :=
  {| _snappy_mfld := _snappy_mfld m;
     _trace_field := v;
     _trace_field_numerical_root := _trace_field_numerical_root m;
     _trace_field_generators := _trace_field_generators m;
     _trace_field_prec_record := _trace_field_prec_record m;
     _invariant_trace_field := _invariant_trace_field m;
     _invariant_trace_field_numerical_root := _invariant_trace_field_numerical_root m;
     _invariant_trace_field_generators := _invariant_trace_field_generators m;
     _invariant_trace_field_prec_record := _invariant_trace_field_prec_record m;
     _quaternion_algebra := _quaternion_algebra m;
     _quaternion_algebra_prec_record := _quaternion_algebra_prec_record m;
     _invariant_quaternion_algebra := _invariant_quaternion_algebra m;
     _invariant_quaternion_algebra_prec_record := _invariant_quaternion_algebra_prec_record m;
     _denominators := _denominators m;
     _denominator_residue_characteristics := _denominator_residue_characteristics m;
     _approx_trace_field_gens := _approx_trace_field_gens m;
     _approx_invariant_trace_field_gens := _approx_invariant_trace_field_gens m |}.

Definition set_trace_field_data (root : AAN) (gens : list Elt) (m : ManifoldNT)
  : ManifoldNT :=
  {| _snappy_mfld := _snappy_mfld m;
     _trace_field := _trace_field m;
     _trace_field_numerical_root := Some root;
     _trace_field_generators := Some gens;
     _trace_field_prec_record := _trace_field_prec_record m;
     _invariant_trace_field := _invariant_trace_field m;
     _invariant_trace_field_numerical_root := _invariant_trace_field_numerical_root m;
     _invariant_trace_field_generators := _invariant_trace_field_generators m;
     _invariant_trace_field_prec_record := _invariant_trace_field_prec_record m;
     _quaternion_algebra := _quaternion_algebra m;
     _quaternion_algebra_prec_record := _quaternion_algebra_prec_record m;
     _invariant_quaternion_algebra := _invariant_quaternion_algebra m;
     _invariant_quaternion_algebra_prec_record := _invariant_quaternion_algebra_prec_record m;
     _denominators := _denominators m;
     _denominator_residue_characteristics := _denominator_residue_characteristics m;
     _approx_trace_field_gens := _approx_trace_field_gens m;
     _approx_invariant_trace_field_gens := _approx_invariant_trace_field_gens m |}.

Definition set_trace_field_prec_record (key : PrecDegreeTuple) (v : bool)
    (m : ManifoldNT) : ManifoldNT :=
  {| _snappy_mfld := _snappy_mfld m;
     _trace_field := _trace_field m;
     _trace_field_numerical_root := _trace_field_numerical_root m;
     _trace_field_generators := _trace_field_generators m;
     _trace_field_prec_record := <[key := v]> (_trace_field_prec_record m);
     _invariant_trace_field := _invariant_trace_field m;
     _invariant_trace_field_numerical_root := _invariant_trace_field_numerical_root m;
     _invariant_trace_field_generators := _invariant_trace_field_generators m;
     _invariant_trace_field_prec_record := _invariant_trace_field_prec_record m;
     _quaternion_algebra := _quaternion_algebra m;
     _quaternion_algebra_prec_record := _quaternion_algebra_prec_record m;
     _invariant_quaternion_algebra := _invariant_quaternion_algebra m;
     _invariant_quaternion_algebra_prec_record := _invariant_quaternion_algebra_prec_record m;
     _denominators := _denominators m;
     _denominator_residue_characteristics := _denominator_residue_characteristics m;
     _approx_trace_field_gens := _approx_trace_field_gens m;
     _approx_invariant_trace_field_gens := _approx_invariant_trace_field_gens m |}.

Definition set_invariant_trace_field (v : option Field) (m : ManifoldNT)
  : ManifoldNT :=
  {| _snappy_mfld := _snappy_mfld m;
     _trace_field := _trace_field m;
     _trace_field_numerical_root := _trace_field_numerical_root m;
     _trace_field_generators := _trace_field_generators m;
     _trace_field_prec_record := _trace_field_prec_record m;
     _invariant_trace_field := v;
     _invariant_trace_field_numerical_root := _invariant_trace_field_numerical_root m;
     _invariant_trace_field_generators := _invariant_trace_field_generators m;
     _invariant_trace_field_prec_record := _invariant_trace_field_prec_record m;
     _quaternion_algebra := _quaternion_algebra m;
     _quaternion_algebra_prec_record := _quaternion_algebra_prec_record m;
     _invariant_quaternion_algebra := _invariant_quaternion_algebra m;
     _invariant_quaternion_algebra_prec_record := _invariant_quaternion_algebra_prec_record m;
     _denominators := _denominators m;
     _denominator_residue_characteristics := _denominator_residue_characteristics m;
     _approx_trace_field_gens := _approx_trace_field_gens m;
     _approx_invariant_trace_field_gens := _approx_invariant_trace_field_gens m |}.

Definition set_invariant_trace_field_data (root : AAN) (gens : list Elt)
    (m : ManifoldNT) : ManifoldNT :=
  {| _snappy_mfld := _snappy_mfld m;
     _trace_field := _trace_field m;
     _trace_field_numerical_root := _trace_field_numerical_root m;
     _trace_field_generators := _trace_field_generators m;
     _trace_field_prec_record := _trace_field_prec_record m;
     _invariant_trace_field := _invariant_trace_field m;
     _invariant_trace_field_numerical_root := Some root;
     _invariant_trace_field_generators := Some gens;
     _invariant_trace_field_prec_record := _invariant_trace_field_prec_record m;
     _quaternion_algebra := _quaternion_algebra m;
     _quaternion_algebra_prec_record := _quaternion_algebra_prec_record m;
     _invariant_quaternion_algebra := _invariant_quaternion_algebra m;
     _invariant_quaternion_algebra_prec_record := _invariant_quaternion_algebra_prec_record m;
     _denominators := _denominators m;
     _denominator_residue_characteristics := _denominator_residue_characteristics m;
     _approx_trace_field_gens := _approx_trace_field_gens m;
     _approx_invariant_trace_field_gens := _approx_invariant_trace_field_gens m |}.

Definition set_invariant_trace_field_prec_record (key : PrecDegreeTuple)
    (v : bool) (m : ManifoldNT) : ManifoldNT :=
  {| _snappy_mfld := _snappy_mfld m;
     _trace_field := _trace_field m;
     _trace_field_numerical_root := _trace_field_numerical_root m;
     _trace_field_generators := _trace_field_generators m;
     _trace_field_prec_record := _trace_field_prec_record m;
     _invariant_trace_field := _invariant_trace_field m;
     _invariant_trace_field_numerical_root := _invariant_trace_field_numerical_root m;
     _invariant_trace_field_generators := _invariant_trace_field_generators m;
     _invariant_trace_field_prec_record :=
       <[key := v]> (_invariant_trace_field_prec_record m);
     _quaternion_algebra := _quaternion_algebra m;
     _quaternion_algebra_prec_record := _quaternion_algebra_prec_record m;
     _invariant_quaternion_algebra := _invariant_quaternion_algebra m;
     _invariant_quaternion_algebra_prec_record := _invariant_quaternion_algebra_prec_record m;
     _denominators := _denominators m;
     _denominator_residue_characteristics := _denominator_residue_characteristics m;
     _approx_trace_field_gens := _approx_trace_field_gens m;
     _approx_invariant_trace_field_gens := _approx_invariant_trace_field_gens m |}.

Definition set_quaternion_algebra (invariant : Invariant) (v : Algebra)
    (m : ManifoldNT) : ManifoldNT :=
  {| _snappy_mfld := _snappy_mfld m;
     _trace_field := _trace_field m;
     _trace_field_numerical_root := _trace_field_numerical_root m;
     _trace_field_generators := _trace_field_generators m;
     _trace_field_prec_record := _trace_field_prec_record m;
     _invariant_trace_field := _invariant_trace_field m;
     _invariant_trace_field_numerical_root := _invariant_trace_field_numerical_root m;
     _invariant_trace_field_generators := _invariant_trace_field_generators m;
     _invariant_trace_field_prec_record := _invariant_trace_field_prec_record m;
     _quaternion_algebra :=
       if bool_decide (invariant = QuaternionAlgebra) then Some v
       else _quaternion_algebra m;
     _quaternion_algebra_prec_record := _quaternion_algebra_prec_record m;
     _invariant_quaternion_algebra :=
       if bool_decide (invariant = QuaternionAlgebra)
       then _invariant_quaternion_algebra m else Some v;
     _invariant_quaternion_algebra_prec_record := _invariant_quaternion_algebra_prec_record m;
     _denominators := _denominators m;
     _denominator_residue_characteristics := _denominator_residue_characteristics m;
     _approx_trace_field_gens := _approx_trace_field_gens m;
     _approx_invariant_trace_field_gens := _approx_invariant_trace_field_gens m |}.

Definition set_quaternion_algebra_prec_record (invariant : Invariant) (key : Z)
    (v : bool) (m : ManifoldNT) : ManifoldNT :=
  {| _snappy_mfld := _snappy_mfld m;
     _trace_field := _trace_field m;
     _trace_field_numerical_root := _trace_field_numerical_root m;
     _trace_field_generators := _trace_field_generators m;
     _trace_field_prec_record := _trace_field_prec_record m;
     _invariant_trace_field := _invariant_trace_field m;
     _invariant_trace_field_numerical_root := _invariant_trace_field_numerical_root m;
     _invariant_trace_field_generators := _invariant_trace_field_generators m;
     _invariant_trace_field_prec_record := _invariant_trace_field_prec_record m;
     _quaternion_algebra := _quaternion_algebra m;
     _quaternion_algebra_prec_record :=
       if bool_decide (invariant = QuaternionAlgebra)
       then <[key := v]> (_quaternion_algebra_prec_record m)
       else _quaternion_algebra_prec_record m;
     _invariant_quaternion_algebra := _invariant_quaternion_algebra m;
     _invariant_quaternion_algebra_prec_record :=
       if bool_decide (invariant = QuaternionAlgebra)
       then _invariant_quaternion_algebra_prec_record m
       else <[key := v]> (_invariant_quaternion_algebra_prec_record m);
     _denominators := _denominators m;
     _denominator_residue_characteristics := _denominator_residue_characteristics m;
     _approx_trace_field_gens := _approx_trace_field_gens m;
     _approx_invariant_trace_field_gens := _approx_invariant_trace_field_gens m |}.

Definition set_denominators (v : gset Ideal) (m : ManifoldNT) : ManifoldNT :=
  {| _snappy_mfld := _snappy_mfld m;
     _trace_field := _trace_field m;
     _trace_field_numerical_root := _trace_field_numerical_root m;
     _trace_field_generators := _trace_field_generators m;
     _trace_field_prec_record := _trace_field_prec_record m;
     _invariant_trace_field := _invariant_trace_field m;
     _invariant_trace_field_numerical_root := _invariant_trace_field_numerical_root m;
     _invariant_trace_field_generators := _invariant_trace_field_generators m;
     _invariant_trace_field_prec_record := _invariant_trace_field_prec_record m;
     _quaternion_algebra := _quaternion_algebra m;
     _quaternion_algebra_prec_record := _quaternion_algebra_prec_record m;
     _invariant_quaternion_algebra := _invariant_quaternion_algebra m;
     _invariant_quaternion_algebra_prec_record := _invariant_quaternion_algebra_prec_record m;
     _denominators := Some v;
     _denominator_residue_characteristics := _denominator_residue_characteristics m;
     _approx_trace_field_gens := _approx_trace_field_gens m;
     _approx_invariant_trace_field_gens := _approx_invariant_trace_field_gens m |}.

Definition set_denominator_residue_characteristics (v : gset Z)
    (m : ManifoldNT) : ManifoldNT :=
  {| _snappy_mfld := _snappy_mfld m;
     _trace_field := _trace_field m;
     _trace_field_numerical_root := _trace_field_numerical_root m;
     _trace_field_generators := _trace_field_generators m;
     _trace_field_prec_record := _trace_field_prec_record m;
     _invariant_trace_field := _invariant_trace_field m;
     _invariant_trace_field_numerical_root := _invariant_trace_field_numerical_root m;
     _invariant_trace_field_generators := _invariant_trace_field_generators m;
     _invariant_trace_field_prec_record := _invariant_trace_field_prec_record m;
     _quaternion_algebra := _quaternion_algebra m;
     _quaternion_algebra_prec_record := _quaternion_algebra_prec_record m;
     _invariant_quaternion_algebra := _invariant_quaternion_algebra m;
     _invariant_quaternion_algebra_prec_record := _invariant_quaternion_algebra_prec_record m;
     _denominators := _denominators m;
     _denominator_residue_characteristics := Some v;
     _approx_trace_field_gens := _approx_trace_field_gens m;
     _approx_invariant_trace_field_gens := _approx_invariant_trace_field_gens m |}.

(** ** The two field methods *)

(** [x if arg is None else arg], with [x] read off the planner. *)
Definition arg_or_planned (arg : option Z) (self : ManifoldNT)
    (invariant : Invariant) (attr : Planned → Res Z) : Res Z :=
  match arg with
  | Some v => Ok v
  | None => next_prec_and_degree self invariant ≫= attr
  end.

(** [gens.find_field(prec=prec, degree=degree, optimize=True)] *)
Definition call_find_field (gens : Gens) (prec degree : Z)
  : Method (option (Field * AAN * list Elt)) :=
  log_call (CallFindField gens prec degree);;
  mret (find_field X gens prec degree).

(** [trace_field(prec=None, degree=None)] *)
Definition trace_field (prec degree : option Z) : Method (option Field) :=
  self ← get_self;
  if bool_decide (is_Some (_trace_field self) ∧ prec = None ∧ degree = None)
  then mret (_trace_field self)
  else
    prec ← lift (arg_or_planned prec self TraceField planned_prec);
    degree ← lift (arg_or_planned degree self TraceField planned_degree);
    exact_field_data ←
      call_find_field (_approx_trace_field_gens self) prec degree;
    modify (set_trace_field_prec_record (PDT prec degree)
              (bool_decide (is_Some exact_field_data)));;
    match exact_field_data with
    | Some (field, root, gens) =>
        modify (set_trace_field (Some field));;
        modify (set_trace_field_data root gens);;
        self ← get_self;
        (if bool_decide (_invariant_trace_field self = None)
            && negb (is_modtwo_homology_sphere self)
         then
           modify (set_invariant_trace_field_prec_record (PDT prec degree) true);;
           modify (set_invariant_trace_field (Some field));;
           modify (set_invariant_trace_field_data root gens)
         else mret tt);;
        self ← get_self;
        mret (_trace_field self)
    | None => mret None
    end.

(** [invariant_trace_field(prec=None, degree=None)] *)
Definition invariant_trace_field (prec degree : option Z)
  : Method (option Field) :=
  self ← get_self;
  if bool_decide (is_Some (_invariant_trace_field self)
                  ∧ prec = None ∧ degree = None)
  then mret (_invariant_trace_field self)
  else
    prec ← lift (arg_or_planned prec self InvariantTraceField planned_prec);
    degree ← lift (arg_or_planned degree self InvariantTraceField planned_degree);
    exact_field_data ←
      call_find_field (_approx_invariant_trace_field_gens self) prec degree;
    modify (set_invariant_trace_field_prec_record (PDT prec degree)
              (bool_decide (is_Some exact_field_data)));;
    match exact_field_data with
    | Some (field, root, gens) =>
        modify (set_invariant_trace_field (Some field));;
        modify (set_invariant_trace_field_data root gens);;
        self ← get_self;
        mret (_invariant_trace_field self)
    | None => mret None
    end.

(** ** The two algebra methods *)

(** [compute_approximate_hilbert_symbol(power, epsilon_coefficient)] *)
Definition compute_approximate_hilbert_symbol (power epsilon_coefficient : Z)
  : Method (AAN * AAN) :=
  self ← get_self;
  log_call (CallHilbertWords power epsilon_coefficient);;
  let '(word1, word2) :=
    find_hilbert_symbol_words X (_snappy_mfld self) power epsilon_coefficient in
  let first_entry :=
    aan_sub X (aan_pow X (approximate_trace X (_snappy_mfld self) word1) 2)
              (aan_of_int X 4) in
  let commutator_word := commutator_of_words X word1 word2 in
  let second_entry :=
    aan_sub X (approximate_trace X (_snappy_mfld self) commutator_word)
              (aan_of_int X 2) in
  mret (first_entry, second_entry).

(** [entry == 0] for what [express] returned: [None == 0] is false. *)
Definition eq_zero (entry : option Poly) : bool :=
  match entry with
  | Some p => poly_is_zero X p
  | None => false
  end.

(** [bool(entry)] *)
Definition truthy (entry : option Poly) : bool :=
  match entry with
  | Some p => negb (poly_is_zero X p)
  | None => false
  end.

(** The [while True] loop of the algebra methods: one unit of fuel per
    iteration. *)
Fixpoint hilbert_symbol_loop (fuel : nat) (power : Z)
    (primitive_element : option AAN) (prec epsilon_coefficient : Z)
  : Method (option Poly * option Poly) :=
  match fuel with
  | O => lift Diverge
  | S fuel' =>
      '(approx_first_entry, approx_second_entry) ←
        compute_approximate_hilbert_symbol power epsilon_coefficient;
      match primitive_element with
      | None => raise AttributeError
      | Some primitive_element' =>
          let first_entry :=
            express X primitive_element' approx_first_entry prec in
          let second_entry :=
            express X primitive_element' approx_second_entry prec in
          if eq_zero first_entry || eq_zero second_entry
          then hilbert_symbol_loop fuel' power primitive_element prec
                                   (epsilon_coefficient * 10)
          else mret (first_entry, second_entry)
      end
  end.

(** What one iteration of the loop computes at a given epsilon
    coefficient, and whether the loop stops there. *)
Definition entries_at (self : ManifoldNT) (power : Z) (primitive_element : AAN)
    (prec epsilon_coefficient : Z) : option Poly * option Poly :=
  let '(word1, word2) :=
    find_hilbert_symbol_words X (_snappy_mfld self) power epsilon_coefficient in
  let first_entry :=
    aan_sub X (aan_pow X (approximate_trace X (_snappy_mfld self) word1) 2)
              (aan_of_int X 4) in
  let commutator_word := commutator_of_words X word1 word2 in
  let second_entry :=
    aan_sub X (approximate_trace X (_snappy_mfld self) commutator_word)
              (aan_of_int X 2) in
  (express X primitive_element first_entry prec,
   express X primitive_element second_entry prec).

Definition retried (entries : option Poly * option Poly) : bool :=
  eq_zero entries.1 || eq_zero entries.2.

(** The searches logged by the first [n] iterations, starting at
    [epsilon_coefficient]. *)
Fixpoint hilbert_calls (n : nat) (power epsilon_coefficient : Z) : list Call :=
  match n with
  | O => []
  | S n' => CallHilbertWords power epsilon_coefficient
            :: hilbert_calls n' power (epsilon_coefficient * 10)
  end.

(** The attributes and the method an algebra method works on. *)
Definition algebra_of (invariant : Invariant) (self : ManifoldNT)
  : option Algebra :=
  if bool_decide (invariant = QuaternionAlgebra) then _quaternion_algebra self
  else _invariant_quaternion_algebra self.

Definition field_of (field : Invariant) (self : ManifoldNT) : option Field :=
  match field with
  | TraceField => _trace_field self
  | _ => _invariant_trace_field self
  end.

Definition numerical_root_of (field : Invariant) (self : ManifoldNT)
  : option AAN :=
  match field with
  | TraceField => _trace_field_numerical_root self
  | _ => _invariant_trace_field_numerical_root self
  end.

Definition approx_gens_of (field : Invariant) (self : ManifoldNT) : Gens :=
  match field with
  | TraceField => _approx_trace_field_gens self
  | _ => _approx_invariant_trace_field_gens self
  end.

Definition field_method (field : Invariant) (prec degree : option Z)
  : Method (option Field) :=
  match field with
  | TraceField => trace_field prec degree
  | _ => invariant_trace_field prec degree
  end.

Definition set_field_of (field : Invariant) (v : option Field)
  : ManifoldNT → ManifoldNT :=
  match field with
  | TraceField => set_trace_field v
  | _ => set_invariant_trace_field v
  end.

(** [power=1] for the quaternion algebra, [power=2] for the invariant one. *)
Definition power_of (invariant : Invariant) : Z :=
  if bool_decide (invariant = QuaternionAlgebra) then 1 else 2.

(** The common text of [quaternion_algebra(prec=None)] and
    [invariant_quaternion_algebra(prec=None)]: the second is the first with
    "trace field" replaced by "invariant trace field", "qa" by "iqa" and
    [power=1] by [power=2]. *)
Definition algebra_method (invariant : Invariant) (fuel : nat)
    (prec : option Z) : Method (option Algebra) :=
  self ← get_self;
  if bool_decide (is_Some (algebra_of invariant self) ∧ prec = None)
  then mret (algebra_of invariant self)
  else
    prec ← lift (arg_or_planned prec self invariant planned_int);
    found ←
      (if bool_decide (field_of (associated_field invariant) self = None) then
         field ← field_method (associated_field invariant) (Some prec) None;
         modify (set_field_of (associated_field invariant) field);;
         mret (bool_decide (is_Some field))
       else mret true);
    if negb found then mret None
    else
      self ← get_self;
      let primitive_element := numerical_root_of (associated_field invariant) self in
      '(first_entry, second_entry) ←
        hilbert_symbol_loop fuel (power_of invariant) primitive_element prec 10;
      modify (set_quaternion_algebra_prec_record invariant prec
                (truthy first_entry && truthy second_entry));;
      match first_entry, second_entry, field_of (associated_field invariant) self with
      | Some first_entry, Some second_entry, Some field =>
          modify (set_quaternion_algebra invariant
                    (mk_algebra X field (poly_at_gen X first_entry field)
                                        (poly_at_gen X second_entry field)));;
          self ← get_self;
          mret (algebra_of invariant self)
      | Some _, Some _, None => raise AttributeError
      | _, _, _ => mret None
      end.

Definition quaternion_algebra : nat → option Z → Method (option Algebra) :=
  algebra_method QuaternionAlgebra.

Definition invariant_quaternion_algebra
  : nat → option Z → Method (option Algebra) :=
  algebra_method InvariantQuaternionAlgebra.

(** ** Denominators and arithmeticity *)

(** The residue characteristics of a set of prime ideals:
    [find_prime_factors_in_a_set({ideal.absolute_norm() for ideal in prime_ideals})] *)
Definition residue_characteristics_of (prime_ideals : gset Ideal) : gset Z :=
  let norms : gset Z := set_map (absolute_norm X) prime_ideals in
  find_prime_factors_in_a_set X norms.

(** [denominators()] *)
Definition denominators : Method (option (gset Ideal)) :=
  self ← get_self;
  match _denominators self with
  | Some cached => mret (Some cached)
  | None =>
      match _trace_field_generators self with
      | None => mret None
      | Some generators =>
          let denominator_ideals : gset Ideal :=
            list_to_set (denominator_ideal X <$> generators) in
          let prime_ideals : gset Ideal :=
            list_to_set
              (ideal ← elements denominator_ideals; (factor X ideal).*1) in
          modify (set_denominators prime_ideals);;
          modify (set_denominator_residue_characteristics
                    (residue_characteristics_of prime_ideals));;
          mret (Some prime_ideals)
      end
  end.

(** [is_arithmetic()]; it reads three attributes and calls nothing that
    could change them. *)
Definition is_arithmetic (self : ManifoldNT) : option bool :=
  match _invariant_trace_field self, _invariant_quaternion_algebra self,
        _denominators self with
  | Some itf, Some iqa, Some denoms =>
      let '(number_of_real_places, number_of_complex_places) :=
        signature X itf in
      let number_of_ramified_real_places :=
        Z.of_nat (length (ramified_real_places X iqa)) in
      Some (bool_decide (number_of_ramified_real_places = number_of_real_places)
            && bool_decide (number_of_complex_places = 1)
            && bool_decide (denoms = ∅))
  | _, _, _ => None
  end.

(** What a field method that found nothing leaves in the record:
    [record[PrecDegreeTuple(prec, degree)] = False]. *)
Definition record_failure (field : Invariant) (key : PrecDegreeTuple)
  : ManifoldNT → ManifoldNT :=
  match field with
  | TraceField => set_trace_field_prec_record key false
  | _ => set_invariant_trace_field_prec_record key false
  end.

(** The attributes after a field method found [(field, root, gens)] at
    [key]; the second is also what [trace_field] copies into the invariant
    trace field's attributes. *)
Definition trace_field_found (key : PrecDegreeTuple) (field : Field)
    (root : AAN) (gens : list Elt) (self : ManifoldNT) : ManifoldNT :=
  set_trace_field_data root gens
    (set_trace_field (Some field) (set_trace_field_prec_record key true self)).

Definition invariant_trace_field_found (key : PrecDegreeTuple) (field : Field)
    (root : AAN) (gens : list Elt) (self : ManifoldNT) : ManifoldNT :=
  set_invariant_trace_field_data root gens
    (set_invariant_trace_field (Some field)
       (set_invariant_trace_field_prec_record key true self)).

(** The attributes after the method of the field [field_kind] found
    [(field, root, gens)] at [key], with the copy [trace_field] makes. *)
Definition after_field_found (field_kind : Invariant) (key : PrecDegreeTuple)
    (field : Field) (root : AAN) (gens : list Elt) (self : ManifoldNT)
  : ManifoldNT :=
  match field_kind with
  | TraceField =>
      if bool_decide (_invariant_trace_field self = None)
         && negb (is_modtwo_homology_sphere self)
      then invariant_trace_field_found key field root gens
             (trace_field_found key field root gens self)
      else trace_field_found key field root gens self
  | _ => invariant_trace_field_found key field root gens self
  end.

(** The part of an algebra method after its loop, applied to what the loop
    left: record the outcome at [prec], then build and store the algebra
    over [field] unless an entry is [None]. *)
Definition conclude_algebra (invariant : Invariant) (prec : Z) (field : Field)
    (after_loop : Res (option Poly * option Poly) * (ManifoldNT * list Call))
  : Res (option Algebra) * (ManifoldNT * list Call) :=
  match after_loop with
  | (Ok (first_entry, second_entry), (self, log)) =>
      let recorded :=
        set_quaternion_algebra_prec_record invariant prec
          (truthy first_entry && truthy second_entry) self in
      match first_entry, second_entry with
      | Some first_entry, Some second_entry =>
          let algebra :=
            mk_algebra X field (poly_at_gen X first_entry field)
                               (poly_at_gen X second_entry field) in
          (Ok (Some algebra),
           (set_quaternion_algebra invariant algebra recorded, log))
      | _, _ => (Ok None, (recorded, log))
      end
  | (Raise e, s) => (Raise e, s)
  | (Diverge, s) => (Diverge, s)
  end.

(** An algebra is only ever cached next to the field it is defined over. *)
Definition algebras_over_known_fields (self : ManifoldNT) : Prop :=
  (is_Some (_quaternion_algebra self) → is_Some (_trace_field self))
  ∧ (is_Some (_invariant_quaternion_algebra self)
     → is_Some (_invariant_trace_field self)).

(** From [self] to [self'] no field was forgotten and no algebra changed. *)
Definition fields_grow (self self' : ManifoldNT) : Prop :=
  (is_Some (_trace_field self) → is_Some (_trace_field self'))
  ∧ (is_Some (_invariant_trace_field self)
     → is_Some (_invariant_trace_field self'))
  ∧ _quaternion_algebra self' = _quaternion_algebra self
  ∧ _invariant_quaternion_algebra self' = _invariant_quaternion_algebra self.

(** What is cached in [self] is still cached, unchanged, in [self']. *)
Definition cache_kept (self self' : ManifoldNT) : Prop :=
  (∀ v, _trace_field self = Some v →
        _trace_field self' = Some v
        ∧ _trace_field_numerical_root self' = _trace_field_numerical_root self
        ∧ _trace_field_generators self' = _trace_field_generators self)
  ∧ (∀ v, _invariant_trace_field self = Some v →
          _invariant_trace_field self' = Some v
          ∧ _invariant_trace_field_numerical_root self'
            = _invariant_trace_field_numerical_root self
          ∧ _invariant_trace_field_generators self'
            = _invariant_trace_field_generators self)
  ∧ (∀ v, _quaternion_algebra self = Some v → _quaternion_algebra self' = Some v)
  ∧ (∀ v, _invariant_quaternion_algebra self = Some v →
          _invariant_quaternion_algebra self' = Some v)
  ∧ (∀ v, _denominators self = Some v →
          _denominators self' = Some v
          ∧ _denominator_residue_characteristics self'
            = _denominator_residue_characteristics self).

(** The other field, whose degree overrides the candidate degree. *)
Definition related_field (field : Invariant) (self : ManifoldNT)
  : option Field :=
  match field with
  | TraceField => _invariant_trace_field self
  | _ => _trace_field self
  end.

(** [denominator_residue_characteristics()] *)
Definition denominator_residue_characteristics : Method (option (gset Z)) :=
  self ← get_self;
  (if bool_decide (_denominators self = None)
   then denominators;; mret tt else mret tt);;
  self ← get_self;
  (match _denominators self, _denominator_residue_characteristics self with
   | Some prime_ideals, None =>
       modify (set_denominator_residue_characteristics
                 (residue_characteristics_of prime_ideals))
   | _, _ => mret tt
   end);;
  self ← get_self;
  mret (_denominator_residue_characteristics self).

(** The residue characteristics stored next to known denominators are
    those of the denominators. *)
Definition denominators_consistent (self : ManifoldNT) : Prop :=
  ∀ denoms, _denominators self = Some denoms →
            _denominator_residue_characteristics self
            = Some (residue_characteristics_of denoms).

(** ** Comparing two manifolds

    [M.compare_arithmetic_invariants(N)] works on two objects, or on one
    when [N is M]; a method called on [self] is then seen through
    [other]. *)

Inductive Operands : Type :=
| Alias (m : ManifoldNT)
| Two (self other : ManifoldNT).

Definition self_of (ops : Operands) : ManifoldNT :=
  match ops with Alias m => m | Two self _ => self end.

Definition other_of (ops : Operands) : ManifoldNT :=
  match ops with Alias m => m | Two _ other => other end.

Definition Comparison (A : Type) : Type :=
  Operands * list Call → Res A * (Operands * list Call).

#[global] Instance Comparison_ret : MRet Comparison := λ A a s, (Ok a, s).

#[global] Instance Comparison_bind : MBind Comparison := λ A B k m s,
  match m s with
  | (Ok a, s') => k a s'
  | (Raise e, s') => (Raise e, s')
  | (Diverge, s') => (Diverge, s')
  end.

Definition on_self {A} (meth : Method A) : Comparison A := λ s,
  match s.1 with
  | Alias m =>
      let r := meth (m, s.2) in (r.1, (Alias r.2.1, r.2.2))
  | Two self other =>
      let r := meth (self, s.2) in (r.1, (Two r.2.1 other, r.2.2))
  end.

Definition on_other {A} (meth : Method A) : Comparison A := λ s,
  match s.1 with
  | Alias m =>
      let r := meth (m, s.2) in (r.1, (Alias r.2.1, r.2.2))
  | Two self other =>
      let r := meth (other, s.2) in (r.1, (Two self r.2.1, r.2.2))
  end.

Definition operands : Comparison Operands := λ s, (Ok s.1, s).
Definition lift2 {A} (r : Res A) : Comparison A := λ s, (r, s).

(** A comparison step that returns or raises without touching the operands
    or the log. *)
Definition quiet {A} (m : Comparison A) (ops : Operands) (log : list Call)
  : Prop :=
  ∃ r, m (ops, log) = (r, (ops, log)).

(** [max(a.next_prec_and_degree(k), b.next_prec_and_degree(k))] *)
Definition planned_max (a b : Planned) : Res PrecArg :=
  match a, b with
  | PairOf s, PairOf t => Ok (PrecTuple (pdt_max s t))
  | PrecOf p, PrecOf q => Ok (PrecInt (Z.max p q))
  | _, _ => Raise TypeError
  end.

(** [[root.express(gen, prec=prec) for gen in gens]] with a whole
    [PrecDegreeTuple] as [prec]: the calls are made in order and the first
    one that raises ends the comprehension. *)
Fixpoint express_each (root : AAN) (gens : list AAN) (prec : PrecDegreeTuple)
  : Res (list (option Poly)) :=
  match gens with
  | [] => Ok []
  | gen :: rest =>
      p ← express_given_pair X root gen prec;
      ps ← express_each root rest prec;
      Ok (p :: ps)
  end.

(** [[root.express(gen, prec=prec) for gen in approx_gens]]: an absent root
    is only noticed when there is a generator to express. *)
Definition express_all (root : option AAN) (approx_gens : Gens)
    (prec : PrecArg) : Res (list (option Poly)) :=
  match gens_list X approx_gens, root, prec with
  | [], _, _ => Ok []
  | _ :: _, None, _ => Raise AttributeError
  | l, Some root', PrecInt p => Ok ((λ gen, express X root' gen p) <$> l)
  | l, Some root', PrecTuple t => express_each root' l t
  end.

(** [_conjugate_invariants()], as far as its callers can tell: with an
    algebra known the loop over the algebras reads the attribute
    [_quaterion_algebra], which no object has; otherwise the loop over
    [self._denominators] needs them known. *)
Definition _conjugate_invariants (self : ManifoldNT) : Res unit :=
  if bool_decide (is_Some (_quaternion_algebra self)
                  ∨ is_Some (_invariant_quaternion_algebra self))
  then Raise AttributeError
  else match _denominators self with
       | None => Raise TypeError
       | Some _ => Ok tt
       end.

(** [_isomorphic_quaternion_algebras(other, _invariant_qa=False)] *)
Definition _isomorphic_quaternion_algebras (fuel : nat) (_invariant_qa : bool)
  : Comparison bool :=
  let invariant :=
    if _invariant_qa then InvariantQuaternionAlgebra else QuaternionAlgebra in
  self_field ← on_self (field_method (associated_field invariant) None None);
  other_field ← on_other (field_method (associated_field invariant) None None);
  self_qa ← on_self (algebra_method invariant fuel None);
  other_qa ← on_other (algebra_method invariant fuel None);
  match self_field, other_field, self_qa, other_qa with
  | Some self_field, Some other_field, Some self_qa, Some other_qa =>
      if bool_decide (self_field = other_field)
      then mret (algebra_is_isomorphic X self_qa other_qa)
      else
        same ← lift2 (same_subfield_of_CC X (Some self_field)
                                           (Some other_field) true);
        if negb same then mret false
        else
          ops ← operands;
          prec ← lift2 (a ← next_prec_and_degree (self_of ops) invariant;
                        b ← next_prec_and_degree (other_of ops) invariant;
                        planned_max a b);
          if bool_decide (length (ramified_real_places X self_qa)
                          ≠ length (ramified_real_places X other_qa))
          then mret false
          else if bool_decide (ramified_residue_characteristics X self_qa
                               ≠ ramified_residue_characteristics X other_qa)
          then mret false
          else
            let primitive_element := numerical_root_of (associated_field invariant) (self_of ops) in
            same ← lift2 (same_subfield_of_CC X (Some self_field)
                                               (Some other_field) false);
            '(old_prim_elt, approx_gens) ←
              (if negb same then
                 lift2 (_conjugate_invariants (other_of ops));;
                 (* conjugate_invariants[field]["approx_gens"]: no such key *)
                 lift2 (Raise KeyError)
               else
                 mret (numerical_root_of (associated_field invariant) (other_of ops),
                       approx_gens_of (associated_field invariant)
                                      (other_of ops)));
            old_anchor ← lift2 (express_all old_prim_elt approx_gens prec);
            new_anchor ← lift2 (express_all primitive_element approx_gens prec);
            let special_iso :=
              special_isomorphism X self_field other_field
                                  old_anchor new_anchor in
            let new_QA := new_QA_via_field_isomorphism X other_qa special_iso in
            mret (algebra_is_isomorphic X self_qa new_QA)
  | _, _, _, _ =>
      lift2 (Raise (RuntimeError "Trace fields or quaternion algebras not known."))
  end.

(** [_same_denominators(other)] *)
Definition _same_denominators : Comparison bool :=
  self_field ← on_self (trace_field None None);
  other_field ← on_other (trace_field None None);
  if negb (bool_decide (is_Some self_field) && bool_decide (is_Some other_field))
  then lift2 (Raise (RuntimeError "Trace field not known."))
  else
    self_denoms ← on_self denominators;
    other_known ←
      (if bool_decide (self_denoms = None) then mret false
       else other_denoms ← on_other denominators;
            mret (bool_decide (is_Some other_denoms)));
    if negb other_known
    then lift2 (Raise (RuntimeError "Denomiantors not known."))
    else
      ops ← operands;
      let self := self_of ops in
      let other := other_of ops in
      if bool_decide (_denominator_residue_characteristics self
                      ≠ _denominator_residue_characteristics other)
      then mret false
      else if bool_decide (_trace_field self = _trace_field other)
      then mret (bool_decide (_denominators self = _denominators other))
      else
        match _trace_field self, _trace_field other with
        | Some self_tf, Some other_tf =>
            if negb (field_is_isomorphic X self_tf other_tf) then mret false
            else
              prec ← lift2 (a ← next_prec_and_degree self TraceField;
                            b ← next_prec_and_degree other TraceField;
                            planned_max a b);
              let primitive_element := _trace_field_numerical_root self in
              let old_prim_elt := _trace_field_numerical_root other in
              old_anchor ← lift2 (express_all old_prim_elt
                                    (_approx_trace_field_gens other) prec);
              new_anchor ← lift2 (express_all primitive_element
                                    (_approx_trace_field_gens other) prec);
              let special_iso :=
                special_isomorphism X self_tf other_tf old_anchor new_anchor in
              match _denominators other with
              | None => lift2 (Raise TypeError)
              | Some other_denoms =>
                  let new_denoms : gset Ideal :=
                    set_map (apply_iso X special_iso) other_denoms in
                  mret (bool_decide (_denominators self = Some new_denoms))
              end
        | _, _ => lift2 (Raise AttributeError)
        end.

(** [compare_arithmetic_invariants(other)]: the dictionary it returns, in
    insertion order. *)
Definition compare_arithmetic_invariants (fuel : nat)
  : Comparison (list (string * bool)) :=
  self_tf ← on_self (trace_field None None);
  other_tf ← on_other (trace_field None None);
  tf ← lift2 (same_subfield_of_CC X self_tf other_tf false);
  self_itf ← on_self (invariant_trace_field None None);
  other_itf ← on_other (invariant_trace_field None None);
  itf ← lift2 (same_subfield_of_CC X self_itf other_itf false);
  qa ← _isomorphic_quaternion_algebras fuel false;
  iqa ← _isomorphic_quaternion_algebras fuel true;
  denoms ← _same_denominators;
  mret [("trace field", tf); ("invariant trace field", itf);
        ("quaternion algebra", qa); ("invariant quaternion algebra", iqa);
        ("denominators", denoms)].

(** [has_same_arithmetic_invariants(other)] *)
Definition has_same_arithmetic_invariants (fuel : nat) : Comparison bool :=
  arith_dict ← compare_arithmetic_invariants fuel;
  mret (negb (bool_decide (false ∈ arith_dict.*2))).

(** ** Computing everything, and starting over *)

(** [compute_arithmetic_invariants(prec=None, degree=None)]: the six
    coordinates are read off the planner before anything is attempted, and
    each method is then called with its coordinates given;
    [if self._trace_field_generators:] is false for [None] and for the
    empty list. *)
Definition compute_arithmetic_invariants (fuel : nat) (prec degree : option Z)
  : Method unit :=
  self ← get_self;
  tf_prec ← lift (arg_or_planned prec self TraceField planned_prec);
  tf_degree ← lift (arg_or_planned degree self TraceField planned_degree);
  itf_prec ← lift (arg_or_planned prec self InvariantTraceField planned_prec);
  itf_degree ←
    lift (arg_or_planned degree self InvariantTraceField planned_degree);
  qa_prec ← lift (arg_or_planned prec self QuaternionAlgebra planned_int);
  iqa_prec ←
    lift (arg_or_planned prec self InvariantQuaternionAlgebra planned_int);
  trace_field (Some tf_prec) (Some tf_degree);;
  invariant_trace_field (Some itf_prec) (Some itf_degree);;
  quaternion_algebra fuel (Some qa_prec);;
  invariant_quaternion_algebra fuel (Some iqa_prec);;
  self ← get_self;
  match _trace_field_generators self with
  | Some (_ :: _) => denominators;; mret tt
  | _ => mret tt
  end.

(** [delete_arithmetic_invariants()]: every attribute but the wrapped
    manifold is assigned afresh. *)
Definition delete_arithmetic_invariants (self : ManifoldNT) : ManifoldNT :=
  {| _snappy_mfld := _snappy_mfld self;
     _trace_field := None;
     _trace_field_numerical_root := None;
     _trace_field_generators := None;
     _trace_field_prec_record := ∅;
     _invariant_trace_field := None;
     _invariant_trace_field_numerical_root := None;
     _invariant_trace_field_generators := None;
     _invariant_trace_field_prec_record := ∅;
     _quaternion_algebra := None;
     _quaternion_algebra_prec_record := ∅;
     _invariant_quaternion_algebra := None;
     _invariant_quaternion_algebra_prec_record := ∅;
     _denominators := None;
     _denominator_residue_characteristics := None;
     _approx_trace_field_gens := trace_field_gens X (_snappy_mfld self);
     _approx_invariant_trace_field_gens :=
       invariant_trace_field_gens X (_snappy_mfld self) |}.

(** What [self._snappy_mfld.dehn_fill(...)] does to the wrapped manifold,
    which is changed in place. *)
Definition set_snappy_mfld (v : Host) (m : ManifoldNT) : ManifoldNT :=
  {| _snappy_mfld := v;
     _trace_field := _trace_field m;
     _trace_field_numerical_root := _trace_field_numerical_root m;
     _trace_field_generators := _trace_field_generators m;
     _trace_field_prec_record := _trace_field_prec_record m;
     _invariant_trace_field := _invariant_trace_field m;
     _invariant_trace_field_numerical_root := _invariant_trace_field_numerical_root m;
     _invariant_trace_field_generators := _invariant_trace_field_generators m;
     _invariant_trace_field_prec_record := _invariant_trace_field_prec_record m;
     _quaternion_algebra := _quaternion_algebra m;
     _quaternion_algebra_prec_record := _quaternion_algebra_prec_record m;
     _invariant_quaternion_algebra := _invariant_quaternion_algebra m;
     _invariant_quaternion_algebra_prec_record := _invariant_quaternion_algebra_prec_record m;
     _denominators := _denominators m;
     _denominator_residue_characteristics := _denominator_residue_characteristics m;
     _approx_trace_field_gens := _approx_trace_field_gens m;
     _approx_invariant_trace_field_gens := _approx_invariant_trace_field_gens m |}.

(** [dehn_fill(filling_data, which_cusp=None)]; SnapPy's own [dehn_fill] is
    the function [filled] of the wrapped manifold and the two arguments. *)
Definition dehn_fill {Filling Cusp : Type}
    (filled : Host → Filling → option Cusp → Host)
    (filling_data : Filling) (which_cusp : option Cusp) : Method unit :=
  self ← get_self;
  modify (set_snappy_mfld (filled (_snappy_mfld self) filling_data which_cusp));;
  modify delete_arithmetic_invariants.

(** The assignments the resolving methods make, each with the condition
    under which the source reaches it: a failure recorded for a field; a
    field stored with its root, generators and success; an outcome recorded
    for an algebra; an algebra stored, its field being there; the
    denominators stored with their residue characteristics, the generators
    being there and no denominators yet; the residue characteristics filled
    in next to known denominators. *)
Inductive assignment : ManifoldNT → ManifoldNT → Prop :=
| assign_failure k key self :
    assignment self (record_failure k key self)
| assign_field k key field root gens self :
    assignment self (after_field_found k key field root gens self)
| assign_algebra_record invariant p b self :
    assignment self (set_quaternion_algebra_prec_record invariant p b self)
| assign_algebra invariant algebra self :
    is_Some (field_of (associated_field invariant) self) →
    assignment self (set_quaternion_algebra invariant algebra self)
| assign_denominators prime_ideals self :
    _denominators self = None →
    is_Some (_trace_field_generators self) →
    assignment self
      (set_denominator_residue_characteristics
         (residue_characteristics_of prime_ideals)
         (set_denominators prime_ideals self))
| assign_residue_characteristics prime_ideals self :
    _denominators self = Some prime_ideals →
    _denominator_residue_characteristics self = None →
    assignment self
      (set_denominator_residue_characteristics
         (residue_characteristics_of prime_ideals) self).

(** A relation between the attributes before a call and after it, that
    holds for every run of the method, whatever its outcome. *)
Definition keeps {A} (R : ManifoldNT → ManifoldNT → Prop) (meth : Method A)
  : Prop :=
  ∀ self log, R self (meth (self, log)).2.1.

(** Every run of the method leaves the searches logged before it in place
    and adds its own after them. *)
Definition extends_log {A} (meth : Method A) : Prop :=
  ∀ self log, log `prefix_of` (meth (self, log)).2.2.

(** From [self] to [self'] nothing was forgotten: the wrapped manifold and
    the approximate generators are the same, what was known is still known,
    the denominators are the same once known, and no attempted coordinate
    left a record. *)
Definition nothing_forgotten (self self' : ManifoldNT) : Prop :=
  _snappy_mfld self' = _snappy_mfld self
  ∧ _approx_trace_field_gens self' = _approx_trace_field_gens self
  ∧ _approx_invariant_trace_field_gens self'
    = _approx_invariant_trace_field_gens self
  ∧ (is_Some (_trace_field self) → is_Some (_trace_field self'))
  ∧ (is_Some (_invariant_trace_field self)
     → is_Some (_invariant_trace_field self'))
  ∧ (is_Some (_quaternion_algebra self) → is_Some (_quaternion_algebra self'))
  ∧ (is_Some (_invariant_quaternion_algebra self)
     → is_Some (_invariant_quaternion_algebra self'))
  ∧ (∀ denoms, _denominators self = Some denoms
               → _denominators self' = Some denoms)
  ∧ (∀ key, is_Some (_trace_field_prec_record self !! key)
            → is_Some (_trace_field_prec_record self' !! key))
  ∧ (∀ key, is_Some (_invariant_trace_field_prec_record self !! key)
            → is_Some (_invariant_trace_field_prec_record self' !! key))
  ∧ (∀ key, is_Some (_quaternion_algebra_prec_record self !! key)
            → is_Some (_quaternion_algebra_prec_record self' !! key))
  ∧ (∀ key, is_Some (_invariant_quaternion_algebra_prec_record self !! key)
            → is_Some (_invariant_quaternion_algebra_prec_record self' !! key)).

(** The states an instance goes through: [__init__] creates it, and its
    attributes are assigned by the methods above only. *)
Inductive reachable : ManifoldNT → Prop :=
| reachable_init host : reachable (init host)
| reachable_field_method k prec degree self log :
    k = TraceField ∨ k = InvariantTraceField →
    reachable self →
    reachable (field_method k prec degree (self, log)).2.1
| reachable_algebra_method invariant fuel prec self log :
    invariant = QuaternionAlgebra ∨ invariant = InvariantQuaternionAlgebra →
    reachable self →
    reachable (algebra_method invariant fuel prec (self, log)).2.1
| reachable_denominators self log :
    reachable self → reachable (denominators (self, log)).2.1
| reachable_denominator_residue_characteristics self log :
    reachable self →
    reachable (denominator_residue_characteristics (self, log)).2.1
| reachable_compute_arithmetic_invariants fuel prec degree self log :
    reachable self →
    reachable (compute_arithmetic_invariants fuel prec degree (self, log)).2.1
| reachable_dehn_fill host self :
    reachable self →
    reachable (delete_arithmetic_invariants (set_snappy_mfld host self)).

(** What holds of the attributes in every such state: a field is stored
    with its numerical root and its generators, an algebra only next to its
    field, the residue characteristics only next to the denominators they
    belong to, the denominators only next to the trace field's generators,
    and the trace field's approximate generators are the wrapped
    manifold's. *)
Definition attributes_coherent (self : ManifoldNT) : Prop :=
  (∀ k, is_Some (field_of k self) ↔ is_Some (numerical_root_of k self))
  ∧ (is_Some (_trace_field self) ↔ is_Some (_trace_field_generators self))
  ∧ (is_Some (_invariant_trace_field self)
     ↔ is_Some (_invariant_trace_field_generators self))
  ∧ algebras_over_known_fields self
  ∧ denominators_consistent self
  ∧ (_denominators self = None → _denominator_residue_characteristics self = None)
  ∧ (is_Some (_denominators self) → is_Some (_trace_field_generators self))
  ∧ _approx_trace_field_gens self = trace_field_gens X (_snappy_mfld self).

End Engine.

(** ** Pickling

    [__getstate__] and [__setstate__] work on the instance dictionary
    [self.__dict__], from attribute names to values of any kind; [str] is
    Python's [str(...)] on the wrapped manifold, [of_str] a Python string as
    a value. *)

Section Pickling.

Context {Value : Type}.
Variable str : Value → string.
Variable of_str : string → Value.

(** [del state[key]] *)
Definition del (key : string) (state : gmap string Value)
  : Res (gmap string Value) :=
  match state !! key with
  | Some _ => Ok (delete key state)
  | None => Raise KeyError
  end.

(** [self._snappy_mfld] on an instance: without the attribute,
    [__getattr__] asks [self._snappy_mfld] for it, again and again, until
    Python raises RecursionError, which is a RuntimeError. *)
Definition get_snappy_mfld (dict : gmap string Value) : Res Value :=
  match dict !! "_snappy_mfld" with
  | Some snappy_mfld => Ok snappy_mfld
  | None => Raise (RuntimeError "maximum recursion depth exceeded")
  end.

(** [__getstate__()], on a copy of [self.__dict__] *)
Definition __getstate__ (dict : gmap string Value) : Res (gmap string Value) :=
  let state := dict in
  state ← del "_approx_trace_field_gens" state;
  state ← del "_approx_invariant_trace_field_gens" state;
  snappy_mfld ← get_snappy_mfld dict;
  let state := <["snappy_mfld_name" := of_str (str snappy_mfld)]> state in
  del "_snappy_mfld" state.

(** [__setstate__(state)]: [self.__dict__.update(state)]; the lines that
    would rebuild the wrapped manifold are inside a string literal. *)
Definition __setstate__ (state dict : gmap string Value) : gmap string Value :=
  state ∪ dict.

(** What unpickling gives: a new instance, whose dictionary is empty, is
    handed the pickled state. *)
Definition unpickled (state : gmap string Value) : gmap string Value :=
  __setstate__ state ∅.

End Pickling.



(** ** A small concrete set of collaborators

    Used to run the methods on explicit inputs.  A host manifold is the list
    of its elementary divisors; a generator sequence is an integer (plus the
    number of divisors for the trace field, minus it for the invariant trace
    field); a field is a pair (degree, tag); everything else is an integer.
    The field search and [express] are left open. *)

Module Sample.

(** Sage's [floor(log(prec * (degree_increment / prec_increment) / itf_deg, 2))]
    at the inputs the states below reach, all with the default increments
    5 and 5000: [floor(log(3.0, 2)) = 1] and [floor(log(5.5, 2)) = 2] for a
    field of degree 2, [floor(log(1.2, 2)) = 0], [floor(log(2.2, 2)) = 1]
    and [floor(log(3.2, 2)) = 1] for a field of degree 5.  None of the five
    logarithms is near an integer.  The sample has no other inputs; it
    answers them like a precision too large for a float. *)
Definition floor_log_on_floats
    (prec degree_increment prec_increment itf_deg : Z) : Res Z :=
  if negb ((degree_increment =? 5) && (prec_increment =? 5000))
  then Raise OverflowError
  else if (prec =? 6000) && (itf_deg =? 2) then Ok 1
  else if (prec =? 11000) && (itf_deg =? 2) then Ok 2
  else if (prec =? 6000) && (itf_deg =? 5) then Ok 0
  else if (prec =? 11000) && (itf_deg =? 5) then Ok 1
  else if (prec =? 16000) && (itf_deg =? 5) then Ok 1
  else Raise OverflowError.

Definition collaborators
    (find : Z → Z → Z → option ((Z * Z) * Z * list Z))
    (expr : Z → Z → Z → option Z)
  : @Collaborators (list Z) Z (Z * Z) Z Z Z Z Z Z unit :=
  {| elementary_divisors := λ h, h;
     trace_field_gens := λ h, Z.of_nat (length h);
     invariant_trace_field_gens := λ h, - Z.of_nat (length h);
     find_field := find;
     gens_list := λ g, [g];
     field_degree := λ f, f.1;
     floor_log := floor_log_on_floats;
     signature := λ f, (f.1 - 2, 1);
     field_is_isomorphic := λ a b, bool_decide (a.1 = b.1);
     same_subfield_of_CC := λ a b _, Ok (bool_decide (a = b));
     special_isomorphism := λ _ _ _ _, tt;
     apply_iso := λ _ i, i;
     find_hilbert_symbol_words := λ _ power eps, (eps, power);
     commutator_of_words := λ a b, a + b;
     approximate_trace := λ _ w, w;
     aan_of_int := λ z, z;
     aan_pow := λ a n, a ^ n;
     aan_sub := λ a b, a - b;
     express := expr;
     express_given_pair := λ _ _ _, Raise TypeError;
     poly_is_zero := λ p, p =? 0;
     poly_at_gen := λ p _, p;
     mk_algebra := λ _ a b, a * b;
     ramified_real_places := λ a, if a <? 0 then [1; 2] else [];
     ramified_residue_characteristics := λ _, [];
     algebra_is_isomorphic := λ a b, a =? b;
     new_QA_via_field_isomorphism := λ a _, a;
     denominator_ideal := λ e, e;
     factor := λ i, if i =? 1 then [] else [(i, 1)];
     absolute_norm := λ i, i;
     find_prime_factors_in_a_set := λ s, s |}.

(** Field searches: one that always finds a field of degree 4 with integral
    generators, one that never finds anything, two that only work on the
    invariant trace field's generators and find a field of degree 2 and of
    degree 5, one that fails on a manifold with a single divisor. *)
Definition finds_always (g p d : Z) : option ((Z * Z) * Z * list Z) :=
  Some ((4, g), 7, [1]).

Definition finds_never (g p d : Z) : option ((Z * Z) * Z * list Z) := None.

Definition finds_invariant_only_5 (g p d : Z) : option ((Z * Z) * Z * list Z) :=
  if g <? 0 then Some ((5, g), 7, [1]) else None.

Definition finds_invariant_only (g p d : Z) : option ((Z * Z) * Z * list Z) :=
  if g <? 0 then Some ((2, g), 7, [1]) else None.

Definition finds_two_divisors (g p d : Z) : option ((Z * Z) * Z * list Z) :=
  if g =? 2 then Some ((4, g), 7, [1]) else None.

(** [express]: one that always returns the zero polynomial, one that is zero
    on 96 only (the first entry at epsilon coefficient 10).  [express]
    handed a pair is a [TypeError] in the sample; every fact below that
    meets such a call is proved for whatever the call does. *)
Definition express_zero (root a : Z) (prec : Z) : option Z := Some 0.

Definition express_minus_96 (root a : Z) (prec : Z) : option Z :=
  Some (a - 96).

Definition finds_with_denominator (g p d : Z)
  : option ((Z * Z) * Z * list Z) :=
  Some ((4, g), 7, [3]).

Definition finds_degree_2 (g p d : Z) : option ((Z * Z) * Z * list Z) :=
  Some ((2, g), 7, [1]).

(** The attributes a method call leaves behind, starting with an empty log. *)
Definition after {A} (meth : @Method (list Z) Z (Z * Z) Z Z Z Z _ _ A)
    (self : @ManifoldNT (list Z) Z (Z * Z) Z Z Z Z _ _)
  : @ManifoldNT (list Z) Z (Z * Z) Z Z Z Z _ _ :=
  (meth (self, [])).2.1.

Definition always := collaborators finds_always express_minus_96.
Definition always_zero := collaborators finds_always express_zero.
Definition two_divisors := collaborators finds_two_divisors express_zero.
Definition with_denominator := collaborators finds_with_denominator express_zero.
Definition invariant_only := collaborators finds_invariant_only express_zero.
Definition invariant_only_5 := collaborators finds_invariant_only_5 express_zero.
Definition never := collaborators finds_never express_zero.
Definition degree_2 := collaborators finds_degree_2 express_minus_96.

(** Two successful searches for the trace field, at (1000, 30) and at
    (2000, 20). *)
Definition two_successes_state :=
  after (trace_field always (Some 2000) (Some 20))
        (after (trace_field always (Some 1000) (Some 30)) (init always [1])).

(** Not a mod-2-homology sphere; the invariant trace field, of degree 2,
    was found, the trace field was looked for in vain at (1000, 20). *)
Definition failing_tf_state :=
  after (trace_field invariant_only None None)
        (after (invariant_trace_field invariant_only None None)
               (init invariant_only [2])).

(** Not a mod-2-homology sphere; the invariant trace field, of degree 5,
    was found, the trace field was looked for in vain twice, at the
    planner's coordinates (1000, 20) and (6000, 5). *)
Definition failing_twice_state :=
  after (trace_field invariant_only_5 None None)
        (after (trace_field invariant_only_5 None None)
               (after (invariant_trace_field invariant_only_5 None None)
                      (init invariant_only_5 [2]))).

(** Trace field, invariant quaternion algebra and denominators resolved, in
    this order, over a field of degree 2. *)
Definition arithmetic_state :=
  after (denominators degree_2)
        (after (invariant_quaternion_algebra degree_2 5 None)
               (after (trace_field degree_2 None None) (init degree_2 [2]))).

(** Trace field and denominators resolved on a manifold with the given
    divisors. *)
Definition resolved_state
    (X : @Collaborators (list Z) Z (Z * Z) Z Z Z Z Z Z unit)
    (divisors : list Z) :=
  after (denominators X) (after (trace_field X None None) (init X divisors)).

(** [express] that finds no polynomial: the loop of an algebra method
    stops at once and the attempt fails. *)
Definition express_none (root a : Z) (prec : Z) : option Z := None.

Definition no_entries := collaborators finds_always express_none.

(** The same collaborators, for which two fields of the same degree are
    the same subfield of the complex numbers up to conjugation, and only
    equal fields are the same subfield. *)
Definition up_to_conjugation
    (X : @Collaborators (list Z) Z (Z * Z) Z Z Z Z Z Z unit)
  : @Collaborators (list Z) Z (Z * Z) Z Z Z Z Z Z unit :=
  {| elementary_divisors := elementary_divisors X;
     trace_field_gens := trace_field_gens X;
     invariant_trace_field_gens := invariant_trace_field_gens X;
     find_field := find_field X;
     gens_list := gens_list X;
     field_degree := field_degree X;
     floor_log := floor_log X;
     signature := signature X;
     field_is_isomorphic := field_is_isomorphic X;
     same_subfield_of_CC := λ a b conjugation,
       Ok (if conjugation then bool_decide (fst <$> a = fst <$> b)
           else bool_decide (a = b));
     special_isomorphism := special_isomorphism X;
     apply_iso := apply_iso X;
     find_hilbert_symbol_words := find_hilbert_symbol_words X;
     commutator_of_words := commutator_of_words X;
     approximate_trace := approximate_trace X;
     aan_of_int := aan_of_int X;
     aan_pow := aan_pow X;
     aan_sub := aan_sub X;
     express := express X;
     express_given_pair := express_given_pair X;
     poly_is_zero := poly_is_zero X;
     poly_at_gen := poly_at_gen X;
     mk_algebra := mk_algebra X;
     ramified_real_places := ramified_real_places X;
     ramified_residue_characteristics := ramified_residue_characteristics X;
     algebra_is_isomorphic := algebra_is_isomorphic X;
     new_QA_via_field_isomorphism := new_QA_via_field_isomorphism X;
     denominator_ideal := denominator_ideal X;
     factor := factor X;
     absolute_norm := absolute_norm X;
     find_prime_factors_in_a_set := find_prime_factors_in_a_set X |}.

Definition conjugates := up_to_conjugation always.

(** Everything resolved by one call of [compute_arithmetic_invariants] on a
    new instance. *)
Definition computed_state :=
  after (compute_arithmetic_invariants always 5 None None) (init always [2]).

(** The trace field resolved, then one failed attempt of the quaternion
    algebra. *)
Definition failing_qa_state :=
  after (quaternion_algebra no_entries 5 None)
        (after (trace_field no_entries None None) (init no_entries [2])).

(** The quaternion algebra, and with it the trace field, resolved on a
    manifold with the given divisors. *)
Definition algebra_state (divisors : list Z) :=
  after (quaternion_algebra conjugates 5 None) (init conjugates divisors).

End Sample.

(** ** Facts about the Python helpers *)

Lemma foldr_min_spec (l : list Z) (x : Z) :
  (foldr Z.min x l = x ∨ foldr Z.min x l ∈ l)
  ∧ foldr Z.min x l ≤ x ∧ ∀ y, y ∈ l → foldr Z.min x l ≤ y.
Proof.
  induction l as [|a l IH]; simpl.
  - split; [by left|]. split; [lia|]. intros y Hy. by apply elem_of_nil in Hy.
  - destruct IH as (Hin & Hle & Hall). split; [|split].
    + destruct (Z.min_spec a (foldr Z.min x l)) as [[_ ->]|[_ ->]].
      * right. apply elem_of_cons. by left.
      * destruct Hin as [->|Hin]; [by left|]. right. apply elem_of_cons. by right.
    + lia.
    + intros y Hy. apply elem_of_cons in Hy as [->|Hy]; [lia|].
      specialize (Hall y Hy). lia.
Qed.

Lemma foldr_max_spec (l : list Z) (x : Z) :
  (foldr Z.max x l = x ∨ foldr Z.max x l ∈ l)
  ∧ x ≤ foldr Z.max x l ∧ ∀ y, y ∈ l → y ≤ foldr Z.max x l.
Proof.
  induction l as [|a l IH]; simpl.
  - split; [by left|]. split; [lia|]. intros y Hy. by apply elem_of_nil in Hy.
  - destruct IH as (Hin & Hle & Hall). split; [|split].
    + destruct (Z.max_spec a (foldr Z.max x l)) as [[_ ->]|[_ ->]].
      * destruct Hin as [->|Hin]; [by left|]. right. apply elem_of_cons. by right.
      * right. apply elem_of_cons. by left.
    + lia.
    + intros y Hy. apply elem_of_cons in Hy as [->|Hy]; [lia|].
      specialize (Hall y Hy). lia.
Qed.

Lemma py_min_Ok (l : list Z) (x : Z) :
  py_min l = Ok x → x ∈ l ∧ ∀ y, y ∈ l → x ≤ y.
Proof.
  destruct l as [|a l]; simpl; [discriminate|]. intros [= <-].
  destruct (foldr_min_spec l a) as (Hin & Hle & Hall). split.
  - apply elem_of_cons. destruct Hin as [->|Hin]; [by left|by right].
  - intros y Hy. apply elem_of_cons in Hy as [->|Hy]; [done|by apply Hall].
Qed.

Lemma py_max_Ok (l : list Z) (x : Z) :
  py_max l = Ok x → x ∈ l ∧ ∀ y, y ∈ l → y ≤ x.
Proof.
  destruct l as [|a l]; simpl; [discriminate|]. intros [= <-].
  destruct (foldr_max_spec l a) as (Hin & Hle & Hall). split.
  - apply elem_of_cons. destruct Hin as [->|Hin]; [by left|by right].
  - intros y Hy. apply elem_of_cons in Hy as [->|Hy]; [done|by apply Hall].
Qed.

Lemma py_min_total (l : list Z) : l ≠ [] → ∃ x, py_min l = Ok x.
Proof. destruct l; [done|]. intros _. simpl. eauto. Qed.

Lemma py_max_total (l : list Z) : l ≠ [] → ∃ x, py_max l = Ok x.
Proof. destruct l; [done|]. intros _. simpl. eauto. Qed.

Lemma elem_of_values {K} `{Countable K} (record : gmap K bool) (v : bool) :
  v ∈ values record ↔ ∃ k, record !! k = Some v.
Proof.
  unfold values. rewrite list_elem_of_fmap. split.
  - intros [[k v'] [-> Hin]]. exists k. by apply elem_of_map_to_list.
  - intros [k Hk]. exists (k, v). split; [done|]. by apply elem_of_map_to_list.
Qed.

Lemma no_success_of_values {K} `{Countable K} (record : gmap K bool) :
  bool_decide (true ∈ values record) = false →
  ∀ k, record !! k ≠ Some true.
Proof.
  intros Hv k Hk. apply bool_decide_eq_false in Hv. apply Hv.
  apply elem_of_values. eauto.
Qed.

Lemma elem_of_keys_where {K} `{Countable K} (b : bool) (record : gmap K bool)
    (k : K) :
  k ∈ keys_where b record ↔ record !! k = Some b.
Proof.
  unfold keys_where. rewrite list_elem_of_fmap. split.
  - intros [[k' v] [-> Hin]]. apply list_elem_of_filter in Hin as [Hv Hin].
    simpl in *. subst v. by apply elem_of_map_to_list.
  - intros Hk. exists (k, b). split; [done|].
    apply list_elem_of_filter. split; [done|]. by apply elem_of_map_to_list.
Qed.

Lemma keys_where_nonempty {K} `{Countable K} (b : bool) (record : gmap K bool)
    (k : K) :
  record !! k = Some b → keys_where b record ≠ [].
Proof.
  intros Hk Hnil. apply (elem_of_keys_where b) in Hk.
  rewrite Hnil in Hk. by apply elem_of_nil in Hk.
Qed.

(** ** The planner *)

Section PlannerFacts.

Context {Host Gens Field AAN Elt Poly Word Ideal Algebra Iso : Type}.
Context `{Countable Ideal}.
Variable X : @Collaborators Host Gens Field AAN Elt Poly Word Ideal Algebra Iso.

Implicit Types (self : @ManifoldNT Host Gens Field AAN Elt Ideal Algebra _ _).

(** The names the methods pass to the planner. *)
Lemma fix_names_short :
  fix_names "tf" = Ok TraceField
  ∧ fix_names "itf" = Ok InvariantTraceField
  ∧ fix_names "qa" = Ok QuaternionAlgebra
  ∧ fix_names "iqa" = Ok InvariantQuaternionAlgebra
  ∧ fix_names " Trace Field " = Ok TraceField
  ∧ fix_names "trace_field" = Raise (ValueError "Name not recognized").
Proof. repeat split; reflexivity. Qed.

Lemma next_prec_and_degree_named_short self :
  next_prec_and_degree_named X self "tf" 1000 20 5000 5
  = next_prec_and_degree X self TraceField
  ∧ next_prec_and_degree_named X self "itf" 1000 20 5000 5
    = next_prec_and_degree X self InvariantTraceField
  ∧ next_prec_and_degree_named X self "qa" 1000 20 5000 5
    = next_prec_and_degree X self QuaternionAlgebra
  ∧ next_prec_and_degree_named X self "iqa" 1000 20 5000 5
    = next_prec_and_degree X self InvariantQuaternionAlgebra.
Proof. repeat split; reflexivity. Qed.

Lemma next_prec_and_degree_field self invariant :
  invariant = TraceField ∨ invariant = InvariantTraceField →
  next_prec_and_degree X self invariant
  = PairOf <$> next_for_field X self invariant 1000 20 5000 5.
Proof. by intros [-> | ->]. Qed.

Lemma next_for_field_empty self invariant sp sd pi di :
  field_record self invariant = ∅ →
  next_for_field X self invariant sp sd pi di = Ok (PDT sp sd).
Proof.
  intros Hempty. unfold next_for_field. by rewrite bool_decide_eq_true_2.
Qed.

Lemma next_for_field_success self invariant sp sd pi di :
  (∃ k, field_record self invariant !! k = Some true) →
  ∃ p d,
    next_for_field X self invariant sp sd pi di = Ok (PDT p d)
    ∧ py_min (prec <$> keys_where true (field_record self invariant)) = Ok p
    ∧ py_min (degree <$> keys_where true (field_record self invariant)) = Ok d.
Proof.
  intros [k Hk]. unfold next_for_field.
  rewrite bool_decide_eq_false_2; last first.
  { intros Hempty. rewrite Hempty in Hk. by rewrite lookup_empty in Hk. }
  rewrite bool_decide_eq_true_2; last (apply elem_of_values; eauto).
  pose proof (keys_where_nonempty true _ k Hk) as Hne.
  destruct (py_min_total (prec <$> keys_where true (field_record self invariant)))
    as [p Hp].
  { intros Hnil. by apply fmap_nil_inv in Hnil. }
  destruct (py_min_total (degree <$> keys_where true (field_record self invariant)))
    as [d Hd].
  { intros Hnil. by apply fmap_nil_inv in Hnil. }
  exists p, d. rewrite Hp, Hd. done.
Qed.

Lemma py_min_attr_spec (attr : PrecDegreeTuple → Z)
    (record : gmap PrecDegreeTuple bool) (b : bool) (x : Z) :
  py_min (attr <$> keys_where b record) = Ok x →
  (∃ k, record !! k = Some b ∧ attr k = x)
  ∧ (∀ k, record !! k = Some b → x ≤ attr k).
Proof.
  intros Hmin. apply py_min_Ok in Hmin as [Hin Hall]. split.
  - apply list_elem_of_fmap in Hin as [k [-> Hk]].
    exists k. split; [by apply elem_of_keys_where|done].
  - intros k Hk. apply Hall. apply list_elem_of_fmap.
    exists k. split; [done|by apply elem_of_keys_where].
Qed.

Lemma py_max_attr_spec (attr : PrecDegreeTuple → Z)
    (record : gmap PrecDegreeTuple bool) (b : bool) (x : Z) :
  py_max (attr <$> keys_where b record) = Ok x →
  (∃ k, record !! k = Some b ∧ attr k = x)
  ∧ (∀ k, record !! k = Some b → attr k ≤ x).
Proof.
  intros Hmax. apply py_max_Ok in Hmax as [Hin Hall]. split.
  - apply list_elem_of_fmap in Hin as [k [-> Hk]].
    exists k. split; [by apply elem_of_keys_where|done].
  - intros k Hk. apply Hall. apply list_elem_of_fmap.
    exists k. split; [done|by apply elem_of_keys_where].
Qed.

(** C5.  For a field kind: an empty record gives the defaults (1000, 20);
    with at least one success the planner returns the least successful
    precision paired with the least successful degree, each taken on its
    own; with the two successes (p1, d1), (p2, d2), p1 < p2, d2 < d1, the
    answer (p1, d2) is a coordinate that was never attempted. *)
Theorem C5_planner_success_minimum self invariant :
  invariant = TraceField ∨ invariant = InvariantTraceField →
  let record := field_record self invariant in
  (record = ∅ →
   next_prec_and_degree X self invariant = Ok (PairOf (PDT 1000 20)))
  ∧ ((∃ k, record !! k = Some true) →
     ∃ p d,
       next_prec_and_degree X self invariant = Ok (PairOf (PDT p d))
       ∧ (∃ k, record !! k = Some true ∧ prec k = p)
       ∧ (∀ k, record !! k = Some true → p ≤ prec k)
       ∧ (∃ k, record !! k = Some true ∧ degree k = d)
       ∧ (∀ k, record !! k = Some true → d ≤ degree k))
  ∧ (∀ p1 d1 p2 d2,
       record = <[PDT p1 d1 := true]> {[PDT p2 d2 := true]} →
       p1 < p2 → d2 < d1 →
       next_prec_and_degree X self invariant = Ok (PairOf (PDT p1 d2))
       ∧ record !! PDT p1 d2 = None).
Proof.
  intros Hkind record.
  assert (Hsucc : (∃ k, record !! k = Some true) →
     ∃ p d,
       next_prec_and_degree X self invariant = Ok (PairOf (PDT p d))
       ∧ (∃ k, record !! k = Some true ∧ prec k = p)
       ∧ (∀ k, record !! k = Some true → p ≤ prec k)
       ∧ (∃ k, record !! k = Some true ∧ degree k = d)
       ∧ (∀ k, record !! k = Some true → d ≤ degree k)).
  { intros Hex. rewrite next_prec_and_degree_field by done.
    destruct (next_for_field_success self invariant 1000 20 5000 5 Hex)
      as (p & d & -> & Hp & Hd).
    exists p, d. split; [done|].
    destruct (py_min_attr_spec prec _ _ _ Hp) as [? ?].
    destruct (py_min_attr_spec degree _ _ _ Hd) as [? ?]. done. }
  split; [|split; [exact Hsucc|]].
  - intros Hempty. rewrite next_prec_and_degree_field by done.
    by rewrite next_for_field_empty.
  - intros p1 d1 p2 d2 Hrec Hp Hd.
    assert (Hlook : ∀ k, record !! k = Some true ↔ k = PDT p1 d1 ∨ k = PDT p2 d2).
    { intros k. rewrite Hrec. rewrite lookup_insert.
      destruct (decide (PDT p1 d1 = k)) as [<-|Hne]; [split; [by left|done]|].
      rewrite lookup_singleton.
      destruct (decide (PDT p2 d2 = k)) as [<-|Hne2]; [split; [by right|done]|].
      split; [done|]. intros [?|?]; congruence. }
    destruct Hsucc as (p & d & Hnext & [kp [Hkp Hp1]] & Hpmin & [kd [Hkd Hd1]] & Hdmin).
    { exists (PDT p1 d1). apply Hlook. by left. }
    pose proof (Hpmin (PDT p1 d1) (proj2 (Hlook _) (or_introl eq_refl))) as Hpa.
    pose proof (Hdmin (PDT p2 d2) (proj2 (Hlook _) (or_intror eq_refl))) as Hda.
    simpl in Hpa, Hda.
    apply Hlook in Hkp. apply Hlook in Hkd.
    assert (p = p1) as -> by (destruct Hkp as [-> | ->]; simpl in *; lia).
    assert (d = d2) as -> by (destruct Hkd as [-> | ->]; simpl in *; lia).
    split; [done|].
    destruct (record !! PDT p1 d2) as [[]|] eqn:Hl; [| |done].
    + apply Hlook in Hl as [[=]|[=]]; lia.
    + rewrite Hrec in Hl. rewrite lookup_insert in Hl.
      destruct (decide (PDT p1 d1 = PDT p1 d2)); [done|].
      rewrite lookup_singleton in Hl.
      destruct (decide (PDT p2 d2 = PDT p1 d2)); done.
Qed.

Lemma field_record_record_failure self invariant t :
  invariant = TraceField ∨ invariant = InvariantTraceField →
  field_record (record_failure invariant t self) invariant
  = <[t := false]> (field_record self invariant).
Proof. by intros [-> | ->]. Qed.

Lemma related_field_record_failure self invariant t :
  related_field invariant (record_failure invariant t self)
  = related_field invariant self.
Proof. by destruct invariant. Qed.

Lemma is_modtwo_homology_sphere_record_failure self invariant t :
  is_modtwo_homology_sphere X (record_failure invariant t self)
  = is_modtwo_homology_sphere X self.
Proof. by destruct invariant. Qed.

Lemma next_for_field_failure self invariant sp sd pi di :
  field_record self invariant ≠ ∅ →
  (∀ k, field_record self invariant !! k ≠ Some true) →
  ∃ maxP maxD,
    py_max (prec <$> keys_where false (field_record self invariant)) = Ok maxP
    ∧ py_max (degree <$> keys_where false (field_record self invariant)) = Ok maxD
    ∧ next_for_field X self invariant sp sd pi di
      = correct_degree X self invariant pi di (PDT (maxP + pi) (maxD + di)).
Proof.
  intros Hne Hall. unfold next_for_field.
  rewrite bool_decide_eq_false_2 by done.
  rewrite bool_decide_eq_false_2; last first.
  { intros Hin. apply elem_of_values in Hin as [k Hk]. by apply (Hall k). }
  destruct (map_choose _ Hne) as (k & v & Hk).
  assert (v = false) as ->.
  { destruct v; [by apply Hall in Hk|done]. }
  pose proof (keys_where_nonempty false _ k Hk) as Hnn.
  destruct (py_max_total (prec <$> keys_where false (field_record self invariant)))
    as [maxP HP].
  { intros Hnil. by apply fmap_nil_inv in Hnil. }
  destruct (py_max_total (degree <$> keys_where false (field_record self invariant)))
    as [maxD HD].
  { intros Hnil. by apply fmap_nil_inv in Hnil. }
  exists maxP, maxD. rewrite HP, HD. done.
Qed.

Lemma correct_degree_unrelated self invariant pi di t :
  invariant = TraceField ∨ invariant = InvariantTraceField →
  related_field invariant self = None →
  correct_degree X self invariant pi di t = Ok t.
Proof.
  intros [-> | ->] Hrel; simpl in Hrel; unfold correct_degree; rewrite Hrel; done.
Qed.

Lemma correct_degree_sphere self pi di t itf :
  _invariant_trace_field self = Some itf →
  is_modtwo_homology_sphere X self = true →
  correct_degree X self TraceField pi di t
  = Ok (PDT (prec t) (field_degree X itf)).
Proof. intros Hitf Hs. unfold correct_degree. rewrite Hitf, Hs. done. Qed.

Lemma correct_degree_log self pi di t itf :
  _invariant_trace_field self = Some itf →
  is_modtwo_homology_sphere X self = false →
  correct_degree X self TraceField pi di t
  = (l ← floor_log X (prec t) di pi (field_degree X itf);
     Ok (PDT (prec t) ((l + 1) * field_degree X itf))).
Proof.
  intros Hitf Hs. unfold correct_degree. rewrite Hitf, Hs.
  by destruct (floor_log _ _ _ _ _).
Qed.

(** The planner's result for a field is the pair, or the exception, of the
    branch it took. *)
Lemma fmap_PairOf_bind (r : Res Z) (f : Z → PrecDegreeTuple) :
  PairOf <$> (l ← r; Ok (f l)) = (l ← r; Ok (PairOf (f l))).
Proof. by destruct r. Qed.

Lemma correct_degree_itf self pi di t tf :
  _trace_field self = Some tf →
  correct_degree X self InvariantTraceField pi di t
  = Ok (PDT (prec t) (field_degree X tf)).
Proof. intros Htf. unfold correct_degree. rewrite Htf. done. Qed.

Lemma py_max_largest_failed (attr : PrecDegreeTuple → Z)
    (record : gmap PrecDegreeTuple bool) (x : Z) :
  py_max (attr <$> keys_where false record) = Ok x →
  largest_failed attr record x.
Proof. apply py_max_attr_spec. Qed.

(** C6 (amended).  With a non-empty all-failure record for the trace field
    and the invariant trace field known with degree d2, the planner returns
    precision maxP + 5000, maxP the largest failed precision, and degree d2
    on a mod-2-homology sphere.  Otherwise it hands maxP + 5000, the two
    increments and d2 to Sage's floor(log(..., 2)) on floats; it returns
    degree (l + 1) * d2 where that computation returns l, and raises what it
    raises.  For the invariant trace field with the trace field known the
    degree is the trace field's degree. *)
Theorem C6_cross_invariant_degree self :
  (∀ itf,
     _trace_field_prec_record self ≠ ∅ →
     (∀ k, _trace_field_prec_record self !! k ≠ Some true) →
     _invariant_trace_field self = Some itf →
     ∃ maxP,
       largest_failed prec (_trace_field_prec_record self) maxP
       ∧ next_prec_and_degree X self TraceField
         = if is_modtwo_homology_sphere X self
           then Ok (PairOf (PDT (maxP + 5000) (field_degree X itf)))
           else l ← floor_log X (maxP + 5000) 5 5000 (field_degree X itf);
                Ok (PairOf (PDT (maxP + 5000) ((l + 1) * field_degree X itf))))
  ∧ (∀ tf,
       _invariant_trace_field_prec_record self ≠ ∅ →
       (∀ k, _invariant_trace_field_prec_record self !! k ≠ Some true) →
       _trace_field self = Some tf →
       ∃ maxP,
         largest_failed prec (_invariant_trace_field_prec_record self) maxP
         ∧ next_prec_and_degree X self InvariantTraceField
           = Ok (PairOf (PDT (maxP + 5000) (field_degree X tf)))).
Proof.
  split.
  - intros itf Hne Hall Hitf.
    destruct (next_for_field_failure self TraceField 1000 20 5000 5 Hne Hall)
      as (maxP & maxD & HP & HD & Hnext).
    exists maxP. split; [by apply py_max_largest_failed|].
    rewrite next_prec_and_degree_field by (by left). rewrite Hnext.
    destruct (is_modtwo_homology_sphere X self) eqn:Hs.
    + by rewrite (correct_degree_sphere _ _ _ _ itf).
    + rewrite (correct_degree_log _ _ _ _ itf) by done.
      apply fmap_PairOf_bind.
  - intros tf Hne Hall Htf.
    destruct (next_for_field_failure self InvariantTraceField 1000 20 5000 5
                Hne Hall) as (maxP & maxD & HP & HD & Hnext).
    exists maxP. split; [by apply py_max_largest_failed|].
    rewrite next_prec_and_degree_field by (by right). rewrite Hnext.
    by rewrite (correct_degree_itf _ _ _ _ tf).
Qed.

Lemma next_field_Ok self invariant t :
  invariant = TraceField ∨ invariant = InvariantTraceField →
  next_prec_and_degree X self invariant = Ok (PairOf t)
  ↔ next_for_field X self invariant 1000 20 5000 5 = Ok t.
Proof.
  intros Hkind. rewrite next_prec_and_degree_field by done.
  destruct (next_for_field X self invariant 1000 20 5000 5); simpl;
    split; congruence.
Qed.

Lemma correct_degree_prec self invariant pi di t t' :
  correct_degree X self invariant pi di t = Ok t' → prec t' = prec t.
Proof.
  unfold correct_degree.
  destruct invariant, (_invariant_trace_field self), (_trace_field self),
    (is_modtwo_homology_sphere X self); simpl;
    try destruct (floor_log _ _ _ _ _); simpl; intros [= <-]; done.
Qed.

Lemma py_max_after_failure (attr : PrecDegreeTuple → Z)
    (record : gmap PrecDegreeTuple bool) (t : PrecDegreeTuple) :
  (∀ k, record !! k = Some false → attr k ≤ attr t) →
  py_max (attr <$> keys_where false (<[t := false]> record)) = Ok (attr t).
Proof.
  intros Hle.
  destruct (py_max_total (attr <$> keys_where false (<[t := false]> record)))
    as [x Hx].
  { intros Hnil. apply fmap_nil_inv in Hnil. revert Hnil.
    apply (keys_where_nonempty false _ t). apply lookup_insert_eq. }
  rewrite Hx. f_equal.
  apply py_max_attr_spec in Hx as [[k [Hk Hkx]] Hmax].
  pose proof (Hmax t (lookup_insert_eq _ _ _)) as Ht.
  rewrite lookup_insert in Hk.
  destruct (decide (t = k)) as [<-|Hne]; [done|].
  apply Hle in Hk. lia.
Qed.

Lemma step_after_failure self invariant t1 :
  invariant = TraceField ∨ invariant = InvariantTraceField →
  (∀ k, field_record self invariant !! k ≠ Some true) →
  (∀ k, field_record self invariant !! k = Some false → prec k ≤ prec t1) →
  ∃ maxD,
    py_max (degree <$> keys_where false (<[t1 := false]> (field_record self invariant)))
    = Ok maxD
    ∧ next_for_field X (record_failure invariant t1 self) invariant 1000 20 5000 5
      = correct_degree X (record_failure invariant t1 self) invariant 5000 5
                       (PDT (prec t1 + 5000) (maxD + 5)).
Proof.
  intros Hkind Hall Hle.
  destruct (next_for_field_failure (record_failure invariant t1 self) invariant
              1000 20 5000 5) as (maxP & maxD & HP & HD & Hnext).
  { rewrite field_record_record_failure by done. apply insert_non_empty. }
  { intros k. rewrite field_record_record_failure by done.
    rewrite lookup_insert. destruct (decide (t1 = k)); [done|apply Hall]. }
  rewrite field_record_record_failure in HP, HD by done.
  rewrite py_max_after_failure in HP by done. injection HP as <-.
  exists maxD. done.
Qed.

(** C4 (amended).  After a failure is recorded at the coordinate the planner
    returned, the next coordinate has a precision larger by the increment.
    Its degree is larger by the degree increment as long as the related
    field is unknown.  Once the related field is known the degree is the
    overriding value instead: the related field's degree (on a
    mod-2-homology sphere, and for the invariant trace field), which stays
    the same from call to call, or, for the trace field elsewhere,
    (l + 1) * d2 for the l that Sage's floor(log(..., 2)) returns at the
    new precision, with no order between one call and the next; there the
    planner raises what that computation raises. *)
Theorem C4_escalation self invariant t1 :
  invariant = TraceField ∨ invariant = InvariantTraceField →
  (∀ k, field_record self invariant !! k ≠ Some true) →
  next_prec_and_degree X self invariant = Ok (PairOf t1) →
  let next :=
    next_prec_and_degree X (record_failure invariant t1 self) invariant in
  (related_field invariant self = None →
   next = Ok (PairOf (PDT (prec t1 + 5000) (degree t1 + 5))))
  ∧ (∀ F, related_field invariant self = Some F →
       invariant = InvariantTraceField
       ∨ is_modtwo_homology_sphere X self = true →
       next = Ok (PairOf (PDT (prec t1 + 5000) (field_degree X F)))
       ∧ (field_record self invariant ≠ ∅ → degree t1 = field_degree X F))
  ∧ (∀ F, related_field invariant self = Some F →
       invariant = TraceField →
       is_modtwo_homology_sphere X self = false →
       next = (l ← floor_log X (prec t1 + 5000) 5 5000 (field_degree X F);
               Ok (PairOf (PDT (prec t1 + 5000) ((l + 1) * field_degree X F))))).
Proof.
  intros Hkind Hall Hnext1 next. apply next_field_Ok in Hnext1; [|done].
  set (self' := record_failure invariant t1 self) in *.
  (* what the first call returned *)
  assert (Hfirst :
    (field_record self invariant = ∅ ∧ t1 = PDT 1000 20)
    ∨ (field_record self invariant ≠ ∅
       ∧ ∃ maxP maxD,
           largest_failed prec (field_record self invariant) maxP
           ∧ largest_failed degree (field_record self invariant) maxD
           ∧ correct_degree X self invariant 5000 5
               (PDT (maxP + 5000) (maxD + 5)) = Ok t1)).
  { destruct (decide (field_record self invariant = ∅)) as [Hempty|Hne].
    - left. split; [done|]. rewrite next_for_field_empty in Hnext1 by done.
      congruence.
    - right. split; [done|].
      destruct (next_for_field_failure self invariant 1000 20 5000 5 Hne Hall)
        as (maxP & maxD & HP & HD & Hnext).
      exists maxP, maxD. split; [by apply py_max_largest_failed|].
      split; [by apply py_max_largest_failed|]. congruence. }
  assert (Hprec : ∀ k, field_record self invariant !! k = Some false →
                       prec k ≤ prec t1).
  { intros k Hk. destruct Hfirst as [[Hempty _]|(_ & maxP & maxD & [_ HP] & _ & Hc)].
    - rewrite Hempty in Hk. by rewrite lookup_empty in Hk.
    - apply correct_degree_prec in Hc. simpl in Hc. apply HP in Hk. lia. }
  destruct (step_after_failure self invariant t1 Hkind Hall Hprec)
    as (maxD' & HD' & Hnext2). fold self' in Hnext2.
  assert (Hnext : next = PairOf <$> correct_degree X self' invariant 5000 5
                                      (PDT (prec t1 + 5000) (maxD' + 5))).
  { unfold next. rewrite next_prec_and_degree_field by done. by rewrite Hnext2. }
  assert (Hsphere : is_modtwo_homology_sphere X self'
                    = is_modtwo_homology_sphere X self).
  { apply is_modtwo_homology_sphere_record_failure. }
  assert (Hrel : related_field invariant self' = related_field invariant self).
  { apply related_field_record_failure. }
  split; [|split].
  - (* the related field is unknown: no override *)
    intros Hnone. rewrite Hnone in Hrel.
    rewrite Hnext, correct_degree_unrelated by done.
    assert (Hdegree : ∀ k, field_record self invariant !! k = Some false →
                           degree k ≤ degree t1).
    { intros k Hk.
      destruct Hfirst as [[Hempty _]|(_ & maxP & maxD & _ & [_ HD] & Hc)].
      - rewrite Hempty in Hk. by rewrite lookup_empty in Hk.
      - rewrite correct_degree_unrelated in Hc by done. injection Hc as <-.
        simpl. apply HD in Hk. lia. }
    rewrite py_max_after_failure in HD' by done. by injection HD' as <-.
  - (* the related field's degree *)
    intros F HF Hcase. rewrite HF in Hrel.
    assert (Hcorrect : ∀ s t, related_field invariant s = Some F →
              is_modtwo_homology_sphere X s = is_modtwo_homology_sphere X self →
              correct_degree X s invariant 5000 5 t
              = Ok (PDT (prec t) (field_degree X F))).
    { intros s t Hs Hsp. destruct Hkind as [-> | ->].
      - destruct Hcase as [?|Hcase]; [done|]. rewrite Hcase in Hsp.
        by apply correct_degree_sphere.
      - by apply correct_degree_itf. }
    split.
    + by rewrite Hnext, Hcorrect.
    + intros Hne.
      destruct Hfirst as [[? _]|(_ & maxP & maxD & _ & _ & Hc)]; [done|].
      rewrite Hcorrect in Hc by done. by injection Hc as <-.
  - (* the logarithmic override *)
    intros F HF -> Hs. rewrite HF in Hrel. rewrite Hs in Hsphere.
    rewrite Hnext, (correct_degree_log _ _ _ _ F) by done.
    apply fmap_PairOf_bind.
Qed.

End PlannerFacts.

(** ** The field methods *)

Section MethodFacts.

Context {Host Gens Field AAN Elt Poly Word Ideal Algebra Iso : Type}.
Context `{EqDecision Field} `{EqDecision Algebra}.
Context `{Countable Ideal}.
Variable X : @Collaborators Host Gens Field AAN Elt Poly Word Ideal Algebra Iso.

Implicit Types (self : @ManifoldNT Host Gens Field AAN Elt Ideal Algebra _ _).
Implicit Types (log : list (@Call Gens)).

Ltac run_method :=
  unfold mbind, Method_bind, mret, Method_ret, get_self, lift, raise,
    call_find_field, log_call, modify; simpl.

Lemma trace_field_cached self log field :
  _trace_field self = Some field →
  trace_field X None None (self, log) = (Ok (Some field), (self, log)).
Proof.
  intros Htf. unfold trace_field. run_method.
  rewrite bool_decide_eq_true_2 by (rewrite Htf; eauto).
  by rewrite Htf.
Qed.

Lemma invariant_trace_field_cached self log field :
  _invariant_trace_field self = Some field →
  invariant_trace_field X None None (self, log) = (Ok (Some field), (self, log)).
Proof.
  intros Htf. unfold invariant_trace_field. run_method.
  rewrite bool_decide_eq_true_2 by (rewrite Htf; eauto).
  by rewrite Htf.
Qed.

(** An attempt of [trace_field] at the coordinate [(p, d)]. *)
Lemma trace_field_attempt self log prec degree p d :
  ¬ (is_Some (_trace_field self) ∧ prec = None ∧ degree = None) →
  arg_or_planned X prec self TraceField planned_prec = Ok p →
  arg_or_planned X degree self TraceField planned_degree = Ok d →
  trace_field X prec degree (self, log)
  = let log' := log ++ [CallFindField (_approx_trace_field_gens self) p d] in
    match find_field X (_approx_trace_field_gens self) p d with
    | None => (Ok None, (record_failure TraceField (PDT p d) self, log'))
    | Some (field, root, gens) =>
        (Ok (Some field),
         (if bool_decide (_invariant_trace_field self = None)
             && negb (is_modtwo_homology_sphere X self)
          then invariant_trace_field_found (PDT p d) field root gens
                 (trace_field_found (PDT p d) field root gens self)
          else trace_field_found (PDT p d) field root gens self,
          log'))
    end.
Proof.
  intros Hno Hp Hd. unfold trace_field. run_method.
  rewrite bool_decide_eq_false_2 by done.
  rewrite Hp, Hd. simpl.
  destruct (find_field X (_approx_trace_field_gens self) p d)
    as [[[field root] gens]|]; simpl; [|done].
  change (is_modtwo_homology_sphere X (set_trace_field_data _ _ _))
    with (is_modtwo_homology_sphere X self).
  by destruct (bool_decide (_invariant_trace_field self = None)
               && negb (is_modtwo_homology_sphere X self)).
Qed.

(** An attempt of [invariant_trace_field] at the coordinate [(p, d)]. *)
Lemma invariant_trace_field_attempt self log prec degree p d :
  ¬ (is_Some (_invariant_trace_field self) ∧ prec = None ∧ degree = None) →
  arg_or_planned X prec self InvariantTraceField planned_prec = Ok p →
  arg_or_planned X degree self InvariantTraceField planned_degree = Ok d →
  invariant_trace_field X prec degree (self, log)
  = let log' :=
      log ++ [CallFindField (_approx_invariant_trace_field_gens self) p d] in
    match find_field X (_approx_invariant_trace_field_gens self) p d with
    | None => (Ok None, (record_failure InvariantTraceField (PDT p d) self, log'))
    | Some (field, root, gens) =>
        (Ok (Some field),
         (invariant_trace_field_found (PDT p d) field root gens self, log'))
    end.
Proof.
  intros Hno Hp Hd. unfold invariant_trace_field. run_method.
  rewrite bool_decide_eq_false_2 by done.
  rewrite Hp, Hd. simpl.
  by destruct (find_field X (_approx_invariant_trace_field_gens self) p d)
    as [[[field root] gens]|].
Qed.

(** C7.  When an attempt of [trace_field] at (p, d) finds a field, the
    invariant trace field is unknown and the manifold is not a
    mod-2-homology sphere, the invariant trace field's field, numerical
    root and generators become those just found and its record gets a
    success at (p, d); on a mod-2-homology sphere, or with the invariant
    trace field known, its four attributes stay as they were. *)
Theorem C7_trace_field_propagation self log prec degree p d field root gens :
  ¬ (is_Some (_trace_field self) ∧ prec = None ∧ degree = None) →
  arg_or_planned X prec self TraceField planned_prec = Ok p →
  arg_or_planned X degree self TraceField planned_degree = Ok d →
  find_field X (_approx_trace_field_gens self) p d = Some (field, root, gens) →
  ∃ self',
    trace_field X prec degree (self, log)
    = (Ok (Some field),
       (self', log ++ [CallFindField (_approx_trace_field_gens self) p d]))
    ∧ _trace_field self' = Some field
    ∧ _trace_field_numerical_root self' = Some root
    ∧ _trace_field_generators self' = Some gens
    ∧ _trace_field_prec_record self'
      = <[PDT p d := true]> (_trace_field_prec_record self)
    ∧ (_invariant_trace_field self = None →
       is_modtwo_homology_sphere X self = false →
       _invariant_trace_field self' = Some field
       ∧ _invariant_trace_field_numerical_root self' = Some root
       ∧ _invariant_trace_field_generators self' = Some gens
       ∧ _invariant_trace_field_prec_record self'
         = <[PDT p d := true]> (_invariant_trace_field_prec_record self))
    ∧ (_invariant_trace_field self ≠ None
       ∨ is_modtwo_homology_sphere X self = true →
       _invariant_trace_field self' = _invariant_trace_field self
       ∧ _invariant_trace_field_numerical_root self'
         = _invariant_trace_field_numerical_root self
       ∧ _invariant_trace_field_generators self'
         = _invariant_trace_field_generators self
       ∧ _invariant_trace_field_prec_record self'
         = _invariant_trace_field_prec_record self).
Proof.
  intros Hno Hp Hd Hfound.
  rewrite (trace_field_attempt self log prec degree p d Hno Hp Hd).
  simpl. rewrite Hfound. eexists. split; [reflexivity|].
  destruct (_invariant_trace_field self) as [itf|] eqn:Hitf;
    destruct (is_modtwo_homology_sphere X self) eqn:Hs; simpl;
    repeat split; try done; intros; try done;
    match goal with Hor : _ ∨ _ |- _ => destruct Hor; done end.
Qed.

Lemma is_arithmetic_unknown self :
  _invariant_trace_field self = None
  ∨ _invariant_quaternion_algebra self = None
  ∨ _denominators self = None →
  is_arithmetic X self = None.
Proof.
  unfold is_arithmetic. intros [-> | [Hn | Hn]]; [done| |].
  - destruct (_invariant_trace_field self); [|done]. by rewrite Hn.
  - destruct (_invariant_trace_field self); [|done].
    destruct (_invariant_quaternion_algebra self); [|done]. by rewrite Hn.
Qed.

(** C9.  With the invariant trace field, the invariant quaternion algebra
    and the denominators known, [is_arithmetic] is true exactly when the
    number of ramified real places equals the number of real places, the
    number of complex places is 1 and the denominator set is empty, and
    false otherwise; it is [None] exactly when one of the three is
    unknown. *)
Theorem C9_is_arithmetic self :
  (∀ itf iqa denoms,
     _invariant_trace_field self = Some itf →
     _invariant_quaternion_algebra self = Some iqa →
     _denominators self = Some denoms →
     ∃ b, is_arithmetic X self = Some b
          ∧ (b = true
             ↔ Z.of_nat (length (ramified_real_places X iqa))
               = (signature X itf).1
               ∧ (signature X itf).2 = 1
               ∧ denoms = ∅))
  ∧ (is_arithmetic X self = None
     ↔ _invariant_trace_field self = None
       ∨ _invariant_quaternion_algebra self = None
       ∨ _denominators self = None).
Proof.
  unfold is_arithmetic. split.
  - intros itf iqa denoms -> -> ->.
    destruct (signature X itf) as [r c]. simpl. eexists. split; [done|].
    rewrite !andb_true_iff, !bool_decide_eq_true. tauto.
  - destruct (_invariant_trace_field self) as [itf|];
      [|split; [by left|done]].
    destruct (_invariant_quaternion_algebra self) as [iqa|];
      [|split; [by right; left|done]].
    destruct (_denominators self) as [denoms|];
      [|split; [by right; right|done]].
    destruct (signature X itf). split; [done|]. intros [?|[?|?]]; done.
Qed.

(** ** The algebra methods *)

Lemma hilbert_symbol_loop_step fuel power root prec eps self log :
  hilbert_symbol_loop X (S fuel) power (Some root) prec eps (self, log)
  = if retried X (entries_at X self power root prec eps)
    then hilbert_symbol_loop X fuel power (Some root) prec (eps * 10)
           (self, log ++ [CallHilbertWords power eps])
    else (Ok (entries_at X self power root prec eps),
          (self, log ++ [CallHilbertWords power eps])).
Proof.
  simpl. unfold compute_approximate_hilbert_symbol. run_method.
  unfold entries_at, retried.
  destruct (find_hilbert_symbol_words X (_snappy_mfld self) power eps)
    as [word1 word2]. simpl.
  by destruct (_ || _).
Qed.

(** The loop stops at the first epsilon coefficient, [eps * 10 ^ n], whose
    entries are both non-zero, after [n + 1] searches. *)
Lemma hilbert_symbol_loop_stops self power root prec :
  ∀ n fuel eps log,
    (∀ i, (i < n)%nat →
          retried X (entries_at X self power root prec (eps * 10 ^ Z.of_nat i))
          = true) →
    retried X (entries_at X self power root prec (eps * 10 ^ Z.of_nat n))
    = false →
    (n < fuel)%nat →
    hilbert_symbol_loop X fuel power (Some root) prec eps (self, log)
    = (Ok (entries_at X self power root prec (eps * 10 ^ Z.of_nat n)),
       (self, log ++ hilbert_calls (S n) power eps)).
Proof.
  induction n as [|n IH]; intros fuel eps log Hretry Hstop Hfuel;
    (destruct fuel as [|fuel]; [lia|]); rewrite hilbert_symbol_loop_step.
  - change (Z.of_nat 0) with 0 in *. rewrite Z.pow_0_r, Z.mul_1_r in *.
    by rewrite Hstop.
  - pose proof (Hretry 0%nat ltac:(lia)) as H0.
    change (Z.of_nat 0) with 0 in H0. rewrite Z.pow_0_r, Z.mul_1_r in H0.
    rewrite H0.
    assert (Hshift : ∀ i, eps * 10 * 10 ^ Z.of_nat i
                          = eps * 10 ^ Z.of_nat (S i)).
    { intros i. rewrite Nat2Z.inj_succ, Z.pow_succ_r by lia. lia. }
    rewrite (IH fuel (eps * 10)).
    + rewrite Hshift. by rewrite <- app_assoc.
    + intros i Hi. rewrite Hshift. apply Hretry. lia.
    + by rewrite Hshift.
    + lia.
Qed.

(** While every epsilon coefficient gives a zero entry the loop goes on. *)
Lemma hilbert_symbol_loop_spins self power root prec :
  ∀ fuel eps log,
    (∀ i, (i < fuel)%nat →
          retried X (entries_at X self power root prec (eps * 10 ^ Z.of_nat i))
          = true) →
    hilbert_symbol_loop X fuel power (Some root) prec eps (self, log)
    = (Diverge, (self, log ++ hilbert_calls fuel power eps)).
Proof.
  induction fuel as [|fuel IH]; intros eps log Hretry.
  - simpl. by rewrite app_nil_r.
  - rewrite hilbert_symbol_loop_step.
    pose proof (Hretry 0%nat ltac:(lia)) as H0.
    change (Z.of_nat 0) with 0 in H0. rewrite Z.pow_0_r, Z.mul_1_r in H0.
    rewrite H0. rewrite IH.
    + simpl. by rewrite <- app_assoc.
    + intros i Hi.
      replace (eps * 10 * 10 ^ Z.of_nat i) with (eps * 10 ^ Z.of_nat (S i)).
      * apply Hretry. lia.
      * rewrite Nat2Z.inj_succ, Z.pow_succ_r by lia. lia.
Qed.

(** The loop changes no attribute, only extends the log, and raises nothing
    when the numerical root is there. *)
Lemma hilbert_symbol_loop_self self power root prec :
  ∀ fuel eps log,
    ∃ r n,
      hilbert_symbol_loop X fuel power (Some root) prec eps (self, log)
      = (r, (self, log ++ hilbert_calls n power eps))
      ∧ (∀ e, r ≠ Raise e)
      ∧ (fuel ≠ O → n ≠ O).
Proof.
  induction fuel as [|fuel IH]; intros eps log.
  - exists Diverge, O. simpl. by rewrite app_nil_r.
  - rewrite hilbert_symbol_loop_step.
    destruct (retried X (entries_at X self power root prec eps)).
    + destruct (IH (eps * 10) (log ++ [CallHilbertWords power eps]))
        as (r & n & -> & Hr & _).
      exists r, (S n). simpl. by rewrite <- app_assoc.
    + eexists _, 1%nat. simpl. done.
Qed.

(** An attempt of either field method at the coordinate [(p, d)]. *)
Lemma field_method_attempt k self log prec degree p d :
  k = TraceField ∨ k = InvariantTraceField →
  ¬ (is_Some (field_of k self) ∧ prec = None ∧ degree = None) →
  arg_or_planned X prec self k planned_prec = Ok p →
  arg_or_planned X degree self k planned_degree = Ok d →
  field_method X k prec degree (self, log)
  = let log' := log ++ [CallFindField (approx_gens_of k self) p d] in
    match find_field X (approx_gens_of k self) p d with
    | None => (Ok None, (record_failure k (PDT p d) self, log'))
    | Some (field, root, gens) =>
        (Ok (Some field),
         (after_field_found X k (PDT p d) field root gens self, log'))
    end.
Proof.
  intros [-> | ->] Hno Hp Hd; simpl.
  - by rewrite (trace_field_attempt self log prec degree p d).
  - by rewrite (invariant_trace_field_attempt self log prec degree p d).
Qed.

Lemma algebra_method_cached inv fuel self log algebra :
  algebra_of inv self = Some algebra →
  algebra_method X inv fuel None (self, log) = (Ok (Some algebra), (self, log)).
Proof.
  intros Hqa. unfold algebra_method. run_method.
  rewrite bool_decide_eq_true_2 by (rewrite Hqa; eauto).
  by rewrite Hqa.
Qed.

(** An attempt of an algebra method whose field is known. *)
Lemma algebra_method_known inv fuel self log prec p field :
  ¬ (is_Some (algebra_of inv self) ∧ prec = None) →
  arg_or_planned X prec self inv planned_int = Ok p →
  field_of (associated_field inv) self = Some field →
  algebra_method X inv fuel prec (self, log)
  = conclude_algebra X inv p field
      (hilbert_symbol_loop X fuel (power_of inv)
         (numerical_root_of (associated_field inv) self) p 10 (self, log)).
Proof.
  intros Hno Hp Hfield. unfold algebra_method. run_method.
  rewrite bool_decide_eq_false_2 by done.
  rewrite Hp. simpl.
  rewrite bool_decide_eq_false_2 by (by rewrite Hfield). simpl.
  rewrite Hfield.
  destruct (hilbert_symbol_loop _ _ _ _ _ _ _) as [[[e1 e2]|e|] [s l]];
    simpl; try done.
  destruct e1, e2; try done; simpl; unfold algebra_of; simpl;
    by destruct (bool_decide (inv = QuaternionAlgebra)).
Qed.

(** An attempt of an algebra method whose field is unknown and not found. *)
Lemma algebra_method_field_failed inv fuel self log prec p d :
  inv = QuaternionAlgebra ∨ inv = InvariantQuaternionAlgebra →
  ¬ (is_Some (algebra_of inv self) ∧ prec = None) →
  arg_or_planned X prec self inv planned_int = Ok p →
  field_of (associated_field inv) self = None →
  arg_or_planned X None self (associated_field inv) planned_degree = Ok d →
  find_field X (approx_gens_of (associated_field inv) self) p d = None →
  algebra_method X inv fuel prec (self, log)
  = (Ok None,
     (record_failure (associated_field inv) (PDT p d) self,
      log ++ [CallFindField (approx_gens_of (associated_field inv) self) p d])).
Proof.
  intros Hinv Hno Hp Hfield Hd Hfind. unfold algebra_method. run_method.
  rewrite bool_decide_eq_false_2 by done.
  rewrite Hp. simpl.
  rewrite bool_decide_eq_true_2 by done.
  rewrite (field_method_attempt _ self log (Some p) None p d);
    [|destruct Hinv as [-> | ->]; [by left|by right]
     |by intros (_ & ? & _)|done|done].
  simpl. rewrite Hfind. simpl. do 2 f_equal.
  destruct Hinv as [-> | ->]; destruct self; simpl in *; by subst.
Qed.

(** An attempt of an algebra method whose field is unknown and found. *)
Lemma algebra_method_field_found inv fuel self log prec p d field root gens :
  inv = QuaternionAlgebra ∨ inv = InvariantQuaternionAlgebra →
  ¬ (is_Some (algebra_of inv self) ∧ prec = None) →
  arg_or_planned X prec self inv planned_int = Ok p →
  field_of (associated_field inv) self = None →
  arg_or_planned X None self (associated_field inv) planned_degree = Ok d →
  find_field X (approx_gens_of (associated_field inv) self) p d
  = Some (field, root, gens) →
  algebra_method X inv fuel prec (self, log)
  = conclude_algebra X inv p field
      (hilbert_symbol_loop X fuel (power_of inv) (Some root) p 10
         (after_field_found X (associated_field inv) (PDT p d) field root gens
                            self,
          log ++ [CallFindField (approx_gens_of (associated_field inv) self)
                                p d])).
Proof.
  intros Hinv Hno Hp Hfield Hd Hfind. unfold algebra_method. run_method.
  rewrite bool_decide_eq_false_2 by done.
  rewrite Hp. simpl.
  rewrite bool_decide_eq_true_2 by done.
  rewrite (field_method_attempt _ self log (Some p) None p d);
    [|destruct Hinv as [-> | ->]; [by left|by right]
     |by intros (_ & ? & _)|done|done].
  simpl. rewrite Hfind. simpl.
  assert (Hset : set_field_of (associated_field inv) (Some field)
                   (after_field_found X (associated_field inv) (PDT p d)
                                      field root gens self)
                 = after_field_found X (associated_field inv) (PDT p d)
                                     field root gens self).
  { destruct Hinv as [-> | ->]; simpl; [|done].
    by destruct (bool_decide (_invariant_trace_field self = None)
                 && negb (is_modtwo_homology_sphere X self)). }
  rewrite Hset.
  assert (Hroot : numerical_root_of (associated_field inv)
                    (after_field_found X (associated_field inv) (PDT p d)
                                       field root gens self) = Some root).
  { destruct Hinv as [-> | ->]; simpl; [|done].
    by destruct (bool_decide (_invariant_trace_field self = None)
                 && negb (is_modtwo_homology_sphere X self)). }
  rewrite Hroot.
  assert (Hf : field_of (associated_field inv)
                 (after_field_found X (associated_field inv) (PDT p d)
                                    field root gens self) = Some field).
  { destruct Hinv as [-> | ->]; simpl; [|done].
    by destruct (bool_decide (_invariant_trace_field self = None)
                 && negb (is_modtwo_homology_sphere X self)). }
  rewrite Hf.
  destruct (hilbert_symbol_loop _ _ _ _ _ _ _) as [[[e1 e2]|e|] [s l]];
    simpl; try done.
  destruct e1, e2; try done; simpl; unfold algebra_of; simpl;
    by destruct (bool_decide (inv = QuaternionAlgebra)).
Qed.

Lemma field_of_conclude_algebra inv k p field after r self' log' :
  conclude_algebra X inv p field after = (r, (self', log')) →
  field_of k self' = field_of k after.2.1 ∧ log' = after.2.2.
Proof.
  destruct after as [[[[a|] [b|]]|e|] [s l]]; simpl; intros [= <- <- <-];
    by destruct k.
Qed.

(** C10.  An algebra method called while its field is unknown first runs
    the field's method at the chosen precision.  If that search finds
    nothing the algebra method returns [None], raising nothing, and no
    Hilbert-symbol search is made; if it finds the field, the
    Hilbert-symbol search follows. *)
Theorem C10_algebra_resolves_field_first inv fuel self log prec p d :
  inv = QuaternionAlgebra ∨ inv = InvariantQuaternionAlgebra →
  ¬ (is_Some (algebra_of inv self) ∧ prec = None) →
  arg_or_planned X prec self inv planned_int = Ok p →
  field_of (associated_field inv) self = None →
  arg_or_planned X None self (associated_field inv) planned_degree = Ok d →
  let gens := approx_gens_of (associated_field inv) self in
  (find_field X gens p d = None →
   algebra_method X inv fuel prec (self, log)
   = (Ok None,
      (record_failure (associated_field inv) (PDT p d) self,
       log ++ [CallFindField gens p d])))
  ∧ (∀ field root g,
       find_field X gens p d = Some (field, root, g) →
       ∃ r self' n,
         algebra_method X inv fuel prec (self, log)
         = (r, (self',
                log ++ CallFindField gens p d
                       :: hilbert_calls n (power_of inv) 10))
         ∧ (fuel ≠ O → n ≠ O)
         ∧ field_of (associated_field inv) self' = Some field).
Proof.
  intros Hinv Hno Hp Hfield Hd gens. split.
  - intros Hfind. by apply algebra_method_field_failed.
  - intros field root g Hfind.
    rewrite (algebra_method_field_found inv fuel self log prec p d field root g)
      by done.
    destruct (hilbert_symbol_loop_self
                (after_field_found X (associated_field inv) (PDT p d)
                                   field root g self)
                (power_of inv) root p fuel 10
                (log ++ [CallFindField gens p d]))
      as (r & n & Hloop & _ & Hn).
    fold gens. rewrite Hloop.
    destruct (conclude_algebra X inv p field _) as [r' [self' log']] eqn:Hc.
    apply (field_of_conclude_algebra _ (associated_field inv)) in Hc
      as [Hf ->]. simpl in *.
    exists r', self', n. split; [by rewrite <- app_assoc|]. split; [done|].
    rewrite Hf.
    destruct Hinv as [-> | ->]; simpl; [|done].
    by destruct (bool_decide (_invariant_trace_field self = None)
                 && negb (is_modtwo_homology_sphere X self)).
Qed.

(** C3 (amended).  The loop has no iteration bound and no error of its own:
    started at epsilon coefficient 10, it stops at the first coefficient
    10 * 10^n at which both expressed entries are non-zero, after n + 1
    searches, and returns those entries; if every coefficient gives a zero
    entry it never stops, and so neither does the algebra method running
    it; with the numerical root present it never raises. *)
Theorem C3_epsilon_loop self log power root prec :
  (∀ n fuel,
     (∀ i, (i < n)%nat →
           retried X (entries_at X self power root prec (10 * 10 ^ Z.of_nat i))
           = true) →
     retried X (entries_at X self power root prec (10 * 10 ^ Z.of_nat n))
     = false →
     (n < fuel)%nat →
     hilbert_symbol_loop X fuel power (Some root) prec 10 (self, log)
     = (Ok (entries_at X self power root prec (10 * 10 ^ Z.of_nat n)),
        (self, log ++ hilbert_calls (S n) power 10)))
  ∧ ((∀ i, retried X (entries_at X self power root prec (10 * 10 ^ Z.of_nat i))
           = true) →
     ∀ fuel,
       hilbert_symbol_loop X fuel power (Some root) prec 10 (self, log)
       = (Diverge, (self, log ++ hilbert_calls fuel power 10)))
  ∧ (∀ fuel e,
       (hilbert_symbol_loop X fuel power (Some root) prec 10 (self, log)).1
       ≠ Raise e)
  ∧ (∀ inv arg field,
       ¬ (is_Some (algebra_of inv self) ∧ arg = None) →
       arg_or_planned X arg self inv planned_int = Ok prec →
       field_of (associated_field inv) self = Some field →
       numerical_root_of (associated_field inv) self = Some root →
       power_of inv = power →
       (∀ i, retried X (entries_at X self power root prec (10 * 10 ^ Z.of_nat i))
             = true) →
       ∀ fuel, (algebra_method X inv fuel arg (self, log)).1 = Diverge).
Proof.
  split; [|split; [|split]].
  - intros n fuel Hretry Hstop Hfuel. by apply hilbert_symbol_loop_stops.
  - intros Hretry fuel. apply hilbert_symbol_loop_spins. auto.
  - intros fuel e.
    destruct (hilbert_symbol_loop_self self power root prec fuel 10 log)
      as (r & n & -> & Hr & _). apply Hr.
  - intros inv arg field Hno Hp Hfield Hroot <- Hretry fuel.
    rewrite (algebra_method_known inv fuel self log arg prec field) by done.
    rewrite Hroot, hilbert_symbol_loop_spins by auto. done.
Qed.

(** ** The methods leave the denominators alone *)

Lemma hilbert_symbol_loop_state power root prec self :
  ∀ fuel eps log,
    (hilbert_symbol_loop X fuel power root prec eps (self, log)).2.1 = self.
Proof.
  induction fuel as [|fuel IH]; intros eps log; [done|].
  simpl. unfold compute_approximate_hilbert_symbol. run_method.
  destruct (find_hilbert_symbol_words X (_snappy_mfld self) power eps)
    as [word1 word2]. simpl.
  destruct root as [root|]; [|done].
  destruct (_ || _); [apply IH|done].
Qed.

Lemma field_method_denominators k self log prec degree :
  _denominators (field_method X k prec degree (self, log)).2.1
  = _denominators self
  ∧ _denominator_residue_characteristics
      (field_method X k prec degree (self, log)).2.1
    = _denominator_residue_characteristics self.
Proof.
  destruct k; simpl; unfold trace_field, invariant_trace_field; run_method;
    (destruct (bool_decide _); [done|]);
    (destruct (arg_or_planned X prec self _ planned_prec); simpl; [|done..]);
    (destruct (arg_or_planned X degree self _ planned_degree); simpl;
       [|done..]);
    (destruct (find_field X _ _ _) as [[[field root] gens]|]; simpl; [|done]);
    try done;
    by destruct (bool_decide (_invariant_trace_field self = None)
                 && negb (is_modtwo_homology_sphere X _)).
Qed.

Lemma algebra_method_denominators inv fuel self log prec :
  _denominators (algebra_method X inv fuel prec (self, log)).2.1
  = _denominators self
  ∧ _denominator_residue_characteristics
      (algebra_method X inv fuel prec (self, log)).2.1
    = _denominator_residue_characteristics self.
Proof.
  unfold algebra_method. run_method.
  destruct (bool_decide _); [done|].
  destruct (arg_or_planned X prec self inv planned_int) as [p|e|];
    simpl; [|done..].
  destruct (bool_decide (field_of (associated_field inv) self = None)).
  - pose proof (field_method_denominators (associated_field inv) self log
                                          (Some p) None) as [Hd Hrc].
    destruct (field_method X (associated_field inv) (Some p) None (self, log))
      as [[[field|]|e|] [s1 l1]]; simpl in *; try done;
      (destruct (associated_field inv); simpl in *;
       try match goal with
       | |- context [hilbert_symbol_loop X ?f ?pw ?root ?q ?eps (?s0, ?l0)] =>
           pose proof (hilbert_symbol_loop_state pw root q s0 f eps l0)
             as Hstate;
           destruct (hilbert_symbol_loop X f pw root q eps (s0, l0))
             as [[[[a|] [b|]]|e|] [s2 l2]]; simpl in Hstate; subst s2
       end; simpl; done).
  - simpl.
    match goal with
    | |- context [hilbert_symbol_loop X ?f ?pw ?root ?q ?eps (?s0, ?l0)] =>
        pose proof (hilbert_symbol_loop_state pw root q s0 f eps l0) as Hstate;
        destruct (hilbert_symbol_loop X f pw root q eps (s0, l0))
          as [[[[a|] [b|]]|e|] [s2 l2]]; simpl in Hstate; subst s2
    end; simpl; try done.
    by destruct (field_of (associated_field inv) self).
Qed.

Lemma init_consistent (host : Host) : denominators_consistent X (init X host).
Proof. by intros denoms. Qed.

(** The field and algebra methods keep the stored residue characteristics
    in step with the denominators, as [denominators()] does. *)
Lemma field_method_consistent k self log prec degree :
  denominators_consistent X self →
  denominators_consistent X (field_method X k prec degree (self, log)).2.1.
Proof.
  intros Hc denoms.
  destruct (field_method_denominators k self log prec degree) as [-> ->].
  apply Hc.
Qed.

Lemma algebra_method_consistent inv fuel self log prec :
  denominators_consistent X self →
  denominators_consistent X (algebra_method X inv fuel prec (self, log)).2.1.
Proof.
  intros Hc denoms.
  destruct (algebra_method_denominators inv fuel self log prec) as [-> ->].
  apply Hc.
Qed.

(** A planned attempt of a field method that finds nothing records a
    failure at the coordinate the planner returned. *)
Lemma field_method_records_failure k self log t :
  k = TraceField ∨ k = InvariantTraceField →
  field_of k self = None →
  next_prec_and_degree X self k = Ok (PairOf t) →
  find_field X (approx_gens_of k self) (prec t) (degree t) = None →
  field_method X k None None (self, log)
  = (Ok None,
     (record_failure k t self,
      log ++ [CallFindField (approx_gens_of k self) (prec t) (degree t)])).
Proof.
  intros Hk Hnone Hplan Hfind.
  rewrite (field_method_attempt k self log None None (prec t) (degree t)).
  - simpl. rewrite Hfind. by destruct t.
  - done.
  - intros [[f Hf] _]. congruence.
  - simpl. by rewrite Hplan.
  - simpl. by rewrite Hplan.
Qed.

(** ** Algebras are cached over known fields *)

Lemma field_method_grows k self log prec degree :
  fields_grow self (field_method X k prec degree (self, log)).2.1.
Proof.
  destruct k; simpl; unfold trace_field, invariant_trace_field; run_method;
    (destruct (bool_decide _); [done|]);
    (destruct (arg_or_planned X prec self _ planned_prec); simpl; [|done..]);
    (destruct (arg_or_planned X degree self _ planned_degree); simpl;
       [|done..]);
    (destruct (find_field X _ _ _) as [[[field root] gens]|]; simpl; [|done]);
    try (destruct (bool_decide (_invariant_trace_field self = None)
                   && negb (is_modtwo_homology_sphere X _)));
    unfold fields_grow; simpl; eauto 10.
Qed.

Lemma fields_grow_known self self' :
  fields_grow self self' →
  algebras_over_known_fields self → algebras_over_known_fields self'.
Proof.
  intros (Htf & Hitf & Hqa & Hiqa) [H1 H2]. unfold algebras_over_known_fields.
  rewrite Hqa, Hiqa. split; auto.
Qed.

Lemma init_known (host : Host) : algebras_over_known_fields (init X host).
Proof. split; simpl; by intros [? ?]. Qed.

Lemma field_method_known k self log prec degree :
  algebras_over_known_fields self →
  algebras_over_known_fields (field_method X k prec degree (self, log)).2.1.
Proof. apply fields_grow_known, field_method_grows. Qed.

Lemma algebra_method_keeps_known inv fuel self log prec :
  algebras_over_known_fields self →
  algebras_over_known_fields (algebra_method X inv fuel prec (self, log)).2.1.
Proof.
  intros Hwf. unfold algebra_method. run_method.
  destruct (bool_decide _); [done|].
  destruct (arg_or_planned X prec self inv planned_int) as [p|e|];
    simpl; [|done..].
  case_bool_decide as Hnone.
  - pose proof (field_method_known (associated_field inv) self log
                                   (Some p) None Hwf) as Hwf1.
    pose proof (field_method_grows (associated_field inv) self log
                                   (Some p) None) as (_ & _ & Hqa & Hiqa).
    destruct (field_method X (associated_field inv) (Some p) None (self, log))
      as [[[field|]|e|] [s1 l1]]; simpl in *; try done.
    + destruct Hwf1 as [H3 H4].
      destruct inv; simpl in *;
        match goal with
        | |- context [hilbert_symbol_loop X ?f ?pw ?root ?q ?eps (?s0, ?l0)] =>
            pose proof (hilbert_symbol_loop_state pw root q s0 f eps l0)
              as Hstate;
            destruct (hilbert_symbol_loop X f pw root q eps (s0, l0))
              as [[[[a|] [b|]]|e|] [s2 l2]]; simpl in Hstate; subst s2
        end; simpl; split; simpl; eauto.
    + destruct Hwf as [H1 H2], Hwf1 as [H3 H4].
      destruct inv; simpl in *; (split; simpl; [try done|try done]);
        intros Hsome; rewrite ?Hqa, ?Hiqa in Hsome;
        (apply H1 in Hsome || apply H2 in Hsome);
        rewrite Hnone in Hsome; by destruct Hsome.
  - simpl.
    match goal with
    | |- context [hilbert_symbol_loop X ?f ?pw ?root ?q ?eps (?s0, ?l0)] =>
        pose proof (hilbert_symbol_loop_state pw root q s0 f eps l0) as Hstate;
        destruct (hilbert_symbol_loop X f pw root q eps (s0, l0))
          as [[[[a|] [b|]]|e|] [s2 l2]]; simpl in Hstate; subst s2
    end; simpl; try done.
    destruct (field_of (associated_field inv) self) as [field|] eqn:Hfield;
      simpl; [|done].
    destruct Hwf as [H1 H2].
    destruct inv; simpl in *; split; simpl; eauto.
Qed.

Lemma denominators_keeps_known self log :
  algebras_over_known_fields self →
  algebras_over_known_fields (denominators X (self, log)).2.1.
Proof.
  intros Hwf. unfold denominators. run_method.
  destruct (_denominators self); [done|].
  by destruct (_trace_field_generators self).
Qed.

(** In such a state an algebra method whose field is unknown has nothing
    cached to return. *)
Lemma unknown_field_no_cached_algebra inv self (prec : option Z) :
  inv = QuaternionAlgebra ∨ inv = InvariantQuaternionAlgebra →
  algebras_over_known_fields self →
  field_of (associated_field inv) self = None →
  ¬ (is_Some (algebra_of inv self) ∧ prec = None).
Proof.
  intros [-> | ->] [H1 H2] Hnone [Hsome _]; simpl in *.
  - apply H1 in Hsome. rewrite Hnone in Hsome. by destruct Hsome.
  - apply H2 in Hsome. rewrite Hnone in Hsome. by destruct Hsome.
Qed.

(** ** What an attempt writes *)

Lemma cache_kept_record_failure k key self :
  cache_kept self (record_failure k key self).
Proof. by destruct k. Qed.

Lemma cache_kept_algebra_record inv p b self :
  cache_kept self (set_quaternion_algebra_prec_record inv p b self).
Proof. done. Qed.

Lemma cache_kept_after_field_found inv k key p b field root gens self :
  k = TraceField ∨ k = InvariantTraceField →
  field_of k self = None →
  cache_kept self
    (set_quaternion_algebra_prec_record inv p b
       (after_field_found X k key field root gens self)).
Proof.
  intros [-> | ->] Hnone; simpl in Hnone; unfold cache_kept, after_field_found.
  - destruct (_invariant_trace_field self) as [itf|] eqn:Hitf;
      destruct (is_modtwo_homology_sphere X self); simpl;
      rewrite ?Hitf, ?Hnone; repeat split; intros; done.
  - simpl. rewrite Hnone. repeat split; intros; done.
Qed.

Lemma hilbert_symbol_loop_no_root fuel power prec eps self log v :
  (hilbert_symbol_loop X fuel power None prec eps (self, log)).1 ≠ Ok v.
Proof.
  destruct fuel; simpl; [done|].
  unfold compute_approximate_hilbert_symbol. run_method.
  by destruct (find_hilbert_symbol_words X (_snappy_mfld self) power eps).
Qed.

(** A field method that returns has had both coordinates. *)
Lemma field_method_Ok_inv k self log prec degree v s' :
  k = TraceField ∨ k = InvariantTraceField →
  ¬ (is_Some (field_of k self) ∧ prec = None ∧ degree = None) →
  field_method X k prec degree (self, log) = (Ok v, s') →
  ∃ p d, arg_or_planned X prec self k planned_prec = Ok p
         ∧ arg_or_planned X degree self k planned_degree = Ok d.
Proof.
  intros [-> | ->] Hno; simpl in *;
    [unfold trace_field|unfold invariant_trace_field]; run_method;
    rewrite bool_decide_eq_false_2 by done;
    (destruct (arg_or_planned X prec self _ planned_prec) as [p|e|];
       simpl; [|done..]);
    (destruct (arg_or_planned X degree self _ planned_degree) as [d|e|];
       simpl; [|done..]); eauto.
Qed.

(** An algebra method that returns has had its precision, and the degree
    for the field search when it had to make one. *)
Lemma algebra_method_Ok_inv inv fuel self log prec v s' :
  inv = QuaternionAlgebra ∨ inv = InvariantQuaternionAlgebra →
  ¬ (is_Some (algebra_of inv self) ∧ prec = None) →
  algebra_method X inv fuel prec (self, log) = (Ok v, s') →
  ∃ p, arg_or_planned X prec self inv planned_int = Ok p
       ∧ (field_of (associated_field inv) self = None →
          ∃ d, arg_or_planned X None self (associated_field inv) planned_degree
               = Ok d).
Proof.
  intros Hinv Hno. unfold algebra_method. run_method.
  rewrite bool_decide_eq_false_2 by done.
  destruct (arg_or_planned X prec self inv planned_int) as [p|e|];
    simpl; [|done..].
  intros Hrun. exists p. split; [done|]. intros Hnone.
  rewrite bool_decide_eq_true_2 in Hrun by done.
  destruct (field_method X (associated_field inv) (Some p) None (self, log))
    as [[f|e|] s1] eqn:Hfm; [|done..].
  apply field_method_Ok_inv in Hfm as (p' & d & _ & Hd).
  - eauto.
  - destruct Hinv as [-> | ->]; [by left|by right].
  - by intros (_ & ? & _).
Qed.

(** A failed attempt of a field method keeps the cache. *)
Lemma field_method_failed_keeps k self log prec degree self' log' :
  k = TraceField ∨ k = InvariantTraceField →
  field_method X k prec degree (self, log) = (Ok None, (self', log')) →
  cache_kept self self'.
Proof.
  intros Hk Hrun.
  destruct (decide (is_Some (field_of k self) ∧ prec = None ∧ degree = None))
    as [([f Hf] & -> & ->)|Hno].
  - destruct Hk as [-> | ->]; simpl in *.
    + by rewrite (trace_field_cached self log f) in Hrun.
    + by rewrite (invariant_trace_field_cached self log f) in Hrun.
  - destruct (field_method_Ok_inv _ _ _ _ _ _ _ Hk Hno Hrun)
      as (p & d & Hp & Hd).
    rewrite (field_method_attempt k self log prec degree p d) in Hrun by done.
    simpl in Hrun.
    destruct (find_field X (approx_gens_of k self) p d) as [[[f r] g]|];
      [done|].
    injection Hrun as <- _. apply cache_kept_record_failure.
Qed.

(** A failed attempt of an algebra method keeps the cache. *)
Lemma algebra_method_failed_keeps inv fuel self log prec self' log' :
  inv = QuaternionAlgebra ∨ inv = InvariantQuaternionAlgebra →
  algebra_method X inv fuel prec (self, log) = (Ok None, (self', log')) →
  cache_kept self self'.
Proof.
  intros Hinv Hrun.
  assert (Hk : associated_field inv = TraceField
               ∨ associated_field inv = InvariantTraceField).
  { destruct Hinv as [-> | ->]; [by left|by right]. }
  destruct (decide (is_Some (algebra_of inv self) ∧ prec = None))
    as [([a Ha] & ->)|Hno].
  { by rewrite (algebra_method_cached inv fuel self log a) in Hrun. }
  destruct (algebra_method_Ok_inv _ _ _ _ _ _ _ Hinv Hno Hrun) as (p & Hp & Hdeg).
  destruct (field_of (associated_field inv) self) as [field|] eqn:Hfield.
  - rewrite (algebra_method_known inv fuel self log prec p field) in Hrun
      by done.
    destruct (numerical_root_of (associated_field inv) self) as [root|].
    + destruct (hilbert_symbol_loop_self self (power_of inv) root p fuel 10 log)
        as (r & n & Hloop & _). rewrite Hloop in Hrun.
      destruct r as [[[a|] [b|]]|e|]; simpl in Hrun; try done;
        injection Hrun as <- _; apply cache_kept_algebra_record.
    + pose proof (hilbert_symbol_loop_no_root fuel (power_of inv) p 10 self log)
        as Hnr.
      destruct (hilbert_symbol_loop _ _ _ _ _ _ _) as [[v|e|] s1];
        simpl in *; [by destruct (Hnr v)|done..].
  - destruct (Hdeg eq_refl) as [d Hd].
    destruct (find_field X (approx_gens_of (associated_field inv) self) p d)
      as [[[field root] g]|] eqn:Hfind.
    + rewrite (algebra_method_field_found inv fuel self log prec p d field root g)
        in Hrun by done.
      destruct (hilbert_symbol_loop_self
                  (after_field_found X (associated_field inv) (PDT p d)
                                     field root g self)
                  (power_of inv) root p fuel 10
                  (log ++ [CallFindField
                             (approx_gens_of (associated_field inv) self) p d]))
        as (r & n & Hloop & _). rewrite Hloop in Hrun.
      destruct r as [[[a|] [b|]]|e|]; simpl in Hrun; try done;
        injection Hrun as <- _; by apply cache_kept_after_field_found.
    + rewrite (algebra_method_field_failed inv fuel self log prec p d) in Hrun
        by done.
      injection Hrun as <- _. apply cache_kept_record_failure.
Qed.

Lemma found_Some {A} (x : A) : bool_decide (is_Some (Some x)) = true.
Proof. apply bool_decide_eq_true_2. eauto. Qed.

Lemma found_None {A} : bool_decide (is_Some (@None A)) = false.
Proof. apply bool_decide_eq_false_2. by intros [? ?]. Qed.

(** C8 (amended).  An attempt of a field method writes one entry, the
    outcome at the attempted coordinate, into its own record, replacing an
    entry already there; an attempt of [trace_field] that finds the field
    while the invariant trace field is unknown, not on a mod-2-homology
    sphere, also writes a success at that coordinate into the invariant
    trace field's record; the algebra records are not written.  An attempt
    of an algebra method whose field is known, when its loop stops, writes
    one entry into its own record and none elsewhere.  A failed attempt of
    a field method changes nothing but that entry, and a failed attempt of
    any of the four methods leaves everything already cached as it was. *)
Theorem C8_attempt_records self log :
  (∀ prec degree p d,
     ¬ (is_Some (_trace_field self) ∧ prec = None ∧ degree = None) →
     arg_or_planned X prec self TraceField planned_prec = Ok p →
     arg_or_planned X degree self TraceField planned_degree = Ok d →
     ∃ r self',
       trace_field X prec degree (self, log)
       = (r, (self', log ++ [CallFindField (_approx_trace_field_gens self) p d]))
       ∧ let found :=
           bool_decide (is_Some (find_field X (_approx_trace_field_gens self) p d)) in
         (r = Ok None ↔ found = false)
         ∧ _trace_field_prec_record self'
           = <[PDT p d := found]> (_trace_field_prec_record self)
         ∧ _invariant_trace_field_prec_record self'
           = (if found && bool_decide (_invariant_trace_field self = None)
                 && negb (is_modtwo_homology_sphere X self)
              then <[PDT p d := true]> (_invariant_trace_field_prec_record self)
              else _invariant_trace_field_prec_record self)
         ∧ _quaternion_algebra_prec_record self'
           = _quaternion_algebra_prec_record self
         ∧ _invariant_quaternion_algebra_prec_record self'
           = _invariant_quaternion_algebra_prec_record self
         ∧ (found = false → self' = record_failure TraceField (PDT p d) self))
  ∧ (∀ prec degree p d,
       ¬ (is_Some (_invariant_trace_field self) ∧ prec = None ∧ degree = None) →
       arg_or_planned X prec self InvariantTraceField planned_prec = Ok p →
       arg_or_planned X degree self InvariantTraceField planned_degree = Ok d →
       ∃ r self',
         invariant_trace_field X prec degree (self, log)
         = (r, (self',
                log ++ [CallFindField (_approx_invariant_trace_field_gens self) p d]))
         ∧ let found :=
             bool_decide
               (is_Some (find_field X (_approx_invariant_trace_field_gens self) p d)) in
           (r = Ok None ↔ found = false)
           ∧ _invariant_trace_field_prec_record self'
             = <[PDT p d := found]> (_invariant_trace_field_prec_record self)
           ∧ _trace_field_prec_record self' = _trace_field_prec_record self
           ∧ _quaternion_algebra_prec_record self'
             = _quaternion_algebra_prec_record self
           ∧ _invariant_quaternion_algebra_prec_record self'
             = _invariant_quaternion_algebra_prec_record self
           ∧ (found = false
              → self' = record_failure InvariantTraceField (PDT p d) self))
  ∧ (∀ inv prec p field root n fuel,
       inv = QuaternionAlgebra ∨ inv = InvariantQuaternionAlgebra →
       ¬ (is_Some (algebra_of inv self) ∧ prec = None) →
       arg_or_planned X prec self inv planned_int = Ok p →
       field_of (associated_field inv) self = Some field →
       numerical_root_of (associated_field inv) self = Some root →
       (∀ i, (i < n)%nat →
             retried X (entries_at X self (power_of inv) root p
                                   (10 * 10 ^ Z.of_nat i)) = true) →
       retried X (entries_at X self (power_of inv) root p (10 * 10 ^ Z.of_nat n))
       = false →
       (n < fuel)%nat →
       let entries :=
         entries_at X self (power_of inv) root p (10 * 10 ^ Z.of_nat n) in
       let recorded := truthy X entries.1 && truthy X entries.2 in
       ∃ r self',
         algebra_method X inv fuel prec (self, log)
         = (r, (self', log ++ hilbert_calls (S n) (power_of inv) 10))
         ∧ algebra_record self' inv = <[p := recorded]> (algebra_record self inv)
         ∧ (inv = QuaternionAlgebra →
            _invariant_quaternion_algebra_prec_record self'
            = _invariant_quaternion_algebra_prec_record self)
         ∧ (inv = InvariantQuaternionAlgebra →
            _quaternion_algebra_prec_record self'
            = _quaternion_algebra_prec_record self)
         ∧ _trace_field_prec_record self' = _trace_field_prec_record self
         ∧ _invariant_trace_field_prec_record self'
           = _invariant_trace_field_prec_record self
         ∧ (r = Ok None →
            recorded = false
            ∧ self' = set_quaternion_algebra_prec_record inv p false self))
  ∧ (∀ k prec degree self' log',
       k = TraceField ∨ k = InvariantTraceField →
       field_method X k prec degree (self, log) = (Ok None, (self', log')) →
       cache_kept self self')
  ∧ (∀ inv fuel prec self' log',
       inv = QuaternionAlgebra ∨ inv = InvariantQuaternionAlgebra →
       algebra_method X inv fuel prec (self, log) = (Ok None, (self', log')) →
       cache_kept self self').
Proof.
  split; [|split; [|split; [|split]]].
  - intros prec degree p d Hno Hp Hd.
    rewrite (trace_field_attempt self log prec degree p d) by done. simpl.
    destruct (find_field X (_approx_trace_field_gens self) p d)
      as [[[field root] gens]|].
    + eexists _, _. split; [reflexivity|]. rewrite found_Some. simpl.
      split; [done|].
      by destruct (bool_decide (_invariant_trace_field self = None)),
                  (is_modtwo_homology_sphere X self).
    + eexists _, _. split; [reflexivity|]. rewrite found_None. done.
  - intros prec degree p d Hno Hp Hd.
    rewrite (invariant_trace_field_attempt self log prec degree p d) by done.
    simpl.
    destruct (find_field X (_approx_invariant_trace_field_gens self) p d)
      as [[[field root] gens]|].
    + eexists _, _. split; [reflexivity|]. rewrite found_Some. done.
    + eexists _, _. split; [reflexivity|]. rewrite found_None. done.
  - intros inv prec p field root n fuel Hinv Hno Hp Hfield Hroot Hretry Hstop
           Hfuel entries recorded.
    rewrite (algebra_method_known inv fuel self log prec p field) by done.
    rewrite Hroot, (hilbert_symbol_loop_stops self (power_of inv) root p n)
      by done.
    fold entries. unfold recorded. destruct entries as [[a|] [b|]]; simpl;
      eexists _, _; (split; [reflexivity|]);
      destruct Hinv as [-> | ->]; simpl; repeat split; try done;
      intros; try done; by rewrite ?andb_false_r.
  - intros k prec degree self' log' Hk Hrun.
    by apply (field_method_failed_keeps k self log prec degree self' log').
  - intros inv fuel prec self' log' Hinv Hrun.
    by apply (algebra_method_failed_keeps inv fuel self log prec self' log').
Qed.

End MethodFacts.

(** ** The comparisons *)

Section ComparatorFacts.

Context {Host Gens Field AAN Elt Poly Word Ideal Algebra Iso : Type}.
Context `{EqDecision Field} `{EqDecision Algebra}.
Context `{Countable Ideal}.
Variable X : @Collaborators Host Gens Field AAN Elt Poly Word Ideal Algebra Iso.

Implicit Types (self other : @ManifoldNT Host Gens Field AAN Elt Ideal Algebra _ _).
Implicit Types (ops : @Operands Host Gens Field AAN Elt Ideal Algebra _ _).
Implicit Types (log : list (@Call Gens)).

Ltac run_comparison :=
  unfold mbind, Comparison_bind, mret, Comparison_ret, operands, lift2; simpl.

Lemma on_self_unchanged {A} (meth : Method A) ops log (v : A) :
  meth (self_of ops, log) = (Ok v, (self_of ops, log)) →
  on_self meth (ops, log) = (Ok v, (ops, log)).
Proof. destruct ops; unfold on_self; simpl; by intros ->. Qed.

Lemma on_other_unchanged {A} (meth : Method A) ops log (v : A) :
  meth (other_of ops, log) = (Ok v, (other_of ops, log)) →
  on_other meth (ops, log) = (Ok v, (ops, log)).
Proof. destruct ops; unfold on_other; simpl; by intros ->. Qed.

Lemma denominators_cached self log denoms :
  _denominators self = Some denoms →
  denominators X (self, log) = (Ok (Some denoms), (self, log)).
Proof.
  intros Hd. unfold denominators, mbind, Method_bind, get_self. simpl.
  by rewrite Hd.
Qed.

(** [denominators()] stores the residue characteristics of what it
    computes. *)
Lemma denominators_consistent_after self log r self' log' :
  denominators_consistent X self →
  denominators X (self, log) = (r, (self', log')) →
  denominators_consistent X self'.
Proof.
  intros Hc. unfold denominators, mbind, Method_bind, get_self, modify, mret,
    Method_ret. simpl.
  destruct (_denominators self) as [cached|] eqn:Hd.
  - by intros [= _ <- _].
  - destruct (_trace_field_generators self) as [gens|]; simpl.
    + intros [= _ <- _]. intros denoms. simpl. by intros [= <-].
    + by intros [= _ <- _].
Qed.

(** [_same_denominators] with the trace fields and the denominators cached
    on both sides: the accessors return the cache and the rest follows. *)
Ltac same_denominators_cached ops log tf_s tf_o D_s D_o :=
  unfold _same_denominators;
  unfold mbind at 1; unfold Comparison_bind at 1;
  rewrite (on_self_unchanged _ ops log (Some tf_s))
    by (by apply trace_field_cached);
  unfold mbind at 1; unfold Comparison_bind at 1;
  rewrite (on_other_unchanged _ ops log (Some tf_o))
    by (by apply trace_field_cached);
  cbv beta iota;
  rewrite !(bool_decide_eq_true_2 (is_Some (Some _))) by eauto; simpl;
  unfold mbind at 1; unfold Comparison_bind at 1;
  rewrite (on_self_unchanged _ ops log (Some D_s))
    by (by apply denominators_cached);
  cbv beta iota;
  unfold mbind at 1; unfold Comparison_bind at 1;
  rewrite bool_decide_eq_false_2 by done;
  unfold mbind at 1; unfold Comparison_bind at 1;
  rewrite (on_other_unchanged _ ops log (Some D_o))
    by (by apply denominators_cached);
  cbv beta iota;
  rewrite !(bool_decide_eq_true_2 (is_Some (Some _))) by eauto;
  run_comparison.

(** C2.  With the trace fields and the denominators known on both sides,
    nothing is searched for and nothing changes, and the comparison is:
    false when the stored residue characteristics differ; with the same
    trace field, whether the two sets of prime ideals are equal; with
    different, non-isomorphic trace fields, false.  With different but
    isomorphic trace fields, where the documentation of
    [compare_arithmetic_invariants] promises false, the method does not
    return false: it goes on with the larger of the two planned
    coordinates, a whole pair, as the precision of [express], and answers
    whether the first set is the image of the second under the special
    isomorphism.  With both sets empty that answer is never false: the
    method returns true unless one of these calls raises. *)
Theorem C2_same_denominators ops log tf_s tf_o D_s D_o :
  _trace_field (self_of ops) = Some tf_s →
  _trace_field (other_of ops) = Some tf_o →
  _denominators (self_of ops) = Some D_s →
  _denominators (other_of ops) = Some D_o →
  let rc_s := _denominator_residue_characteristics (self_of ops) in
  let rc_o := _denominator_residue_characteristics (other_of ops) in
  (rc_s ≠ rc_o → _same_denominators X (ops, log) = (Ok false, (ops, log)))
  ∧ (tf_s = tf_o → rc_s = rc_o →
     _same_denominators X (ops, log)
     = (Ok (bool_decide (D_s = D_o)), (ops, log)))
  ∧ (tf_s = tf_o →
     denominators_consistent X (self_of ops) →
     denominators_consistent X (other_of ops) →
     _same_denominators X (ops, log)
     = (Ok (bool_decide (D_s = D_o)), (ops, log)))
  ∧ (tf_s ≠ tf_o → field_is_isomorphic X tf_s tf_o = false →
     _same_denominators X (ops, log) = (Ok false, (ops, log)))
  ∧ (tf_s ≠ tf_o → field_is_isomorphic X tf_s tf_o = true → rc_s = rc_o →
     let planned :=
       a ← next_prec_and_degree X (self_of ops) TraceField;
       b ← next_prec_and_degree X (other_of ops) TraceField;
       planned_max a b in
     (∀ prec, planned = Ok prec → ∃ t, prec = PrecTuple t)
     ∧ _same_denominators X (ops, log)
       = (prec ← planned;
          old_anchor ←
            express_all X (_trace_field_numerical_root (other_of ops))
                        (_approx_trace_field_gens (other_of ops)) prec;
          new_anchor ←
            express_all X (_trace_field_numerical_root (self_of ops))
                        (_approx_trace_field_gens (other_of ops)) prec;
          Ok (bool_decide
                (D_s = set_map (apply_iso X (special_isomorphism
                                               X tf_s tf_o old_anchor new_anchor))
                               D_o)),
          (ops, log))
     ∧ (D_s = ∅ → D_o = ∅ →
        (_same_denominators X (ops, log)).1 ≠ Ok false)).
Proof.
  intros Hs Ho HDs HDo rc_s rc_o.
  assert (Hsome : ∀ D D' : gset Ideal,
             bool_decide (Some D = Some D') = bool_decide (D = D')).
  { intros D D'. apply bool_decide_ext. split; [by intros [= ->]|by intros ->]. }
  assert (Hequal : tf_s = tf_o → rc_s = rc_o →
     _same_denominators X (ops, log)
     = (Ok (bool_decide (D_s = D_o)), (ops, log))).
  { intros -> Hrc. same_denominators_cached ops log tf_o tf_o D_s D_o.
    rewrite Hs, Ho, HDs, HDo.
    rewrite bool_decide_eq_false_2 by (intros Hne; by apply Hne).
    rewrite bool_decide_eq_true_2 by done. by rewrite Hsome. }
  assert (Hdiffer : rc_s ≠ rc_o →
     _same_denominators X (ops, log) = (Ok false, (ops, log))).
  { intros Hrc. same_denominators_cached ops log tf_s tf_o D_s D_o.
    by rewrite bool_decide_eq_true_2 by done. }
  split; [done|]. split; [done|]. split; [|split].
  - intros Htf Hcs Hco. destruct (decide (rc_s = rc_o)) as [Hrc|Hrc]; [auto|].
    rewrite Hdiffer by done. rewrite bool_decide_eq_false_2; [done|].
    intros ->. apply Hrc. unfold rc_s, rc_o.
    by rewrite (Hcs _ HDs), (Hco _ HDo).
  - intros Htf Hiso. same_denominators_cached ops log tf_s tf_o D_s D_o.
    rewrite Hs, Ho.
    destruct (bool_decide (_ ≠ _)); [done|].
    rewrite bool_decide_eq_false_2 by (by intros [= ?]).
    by rewrite Hiso.
  - intros Htf Hiso Hrc planned.
    assert (Hrun : _same_denominators X (ops, log)
       = (prec ← planned;
          old_anchor ←
            express_all X (_trace_field_numerical_root (other_of ops))
                        (_approx_trace_field_gens (other_of ops)) prec;
          new_anchor ←
            express_all X (_trace_field_numerical_root (self_of ops))
                        (_approx_trace_field_gens (other_of ops)) prec;
          Ok (bool_decide
                (D_s = set_map (apply_iso X (special_isomorphism
                                               X tf_s tf_o old_anchor new_anchor))
                               D_o)),
          (ops, log))).
    { same_denominators_cached ops log tf_s tf_o D_s D_o.
      rewrite Hs, Ho, HDs, HDo.
      rewrite bool_decide_eq_false_2 by (intros Hne; by apply Hne).
      rewrite bool_decide_eq_false_2 by (by intros [= ?]).
      rewrite Hiso. simpl. subst planned. unfold mbind.
      rewrite ?(bool_decide_eq_false_2 (Some tf_s = Some tf_o)) by congruence.
      destruct (Res_bind Planned PrecArg _ _) as [prec| |]; simpl; [|done..].
      destruct (express_all X _ _ prec) as [old_anchor| |]; simpl; [|done..].
      destruct (express_all X _ _ prec) as [new_anchor| |]; simpl; [|done..].
      by rewrite Hsome. }
    split; [|split; [exact Hrun|]].
    + intros prec. unfold planned.
      rewrite !next_prec_and_degree_field by (by left).
      destruct (next_for_field X (self_of ops) _ _ _ _ _) as [s| |];
        simpl; [|done..].
      destruct (next_for_field X (other_of ops) _ _ _ _ _) as [t| |];
        simpl; [|done..].
      intros [= <-]. eauto.
    + intros -> ->. rewrite Hrun. simpl. clear Hrun. clearbody planned.
      unfold mbind.
      destruct planned as [prec| |]; simpl; [|done..].
      destruct (express_all X (_trace_field_numerical_root (other_of ops)) _ prec)
        as [old_anchor| |]; simpl; [|done..].
      destruct (express_all X (_trace_field_numerical_root (self_of ops)) _ prec)
        as [new_anchor| |]; simpl; [|done..].
      rewrite set_map_empty. by rewrite bool_decide_eq_true_2.
Qed.

Lemma quiet_bind {A B} (m : Comparison A) (k : A → Comparison B) ops log :
  quiet m ops log → (∀ a, quiet (k a) ops log) → quiet (m ≫= k) ops log.
Proof.
  intros [r Hr] Hk. unfold quiet, mbind, Comparison_bind. rewrite Hr.
  destruct r as [a| |]; [apply Hk|eauto..].
Qed.

Lemma quiet_ret {A} (a : A) ops log : quiet (mret a) ops log.
Proof. by eexists. Qed.

Lemma quiet_lift2 {A} (r : Res A) ops log : quiet (lift2 r) ops log.
Proof. by eexists. Qed.

Lemma quiet_operands ops log : quiet operands ops log.
Proof. by eexists. Qed.

Lemma quiet_on_self {A} (meth : Method A) ops log (v : A) :
  meth (self_of ops, log) = (Ok v, (self_of ops, log)) →
  quiet (on_self meth) ops log.
Proof. intros Hm. eexists. by apply on_self_unchanged. Qed.

Lemma quiet_on_other {A} (meth : Method A) ops log (v : A) :
  meth (other_of ops, log) = (Ok v, (other_of ops, log)) →
  quiet (on_other meth) ops log.
Proof. intros Hm. eexists. by apply on_other_unchanged. Qed.

Lemma field_method_cached k self log field :
  field_of k self = Some field →
  field_method X k None None (self, log) = (Ok (Some field), (self, log)).
Proof.
  destruct k; simpl; intros Hf;
    by (apply trace_field_cached || apply invariant_trace_field_cached).
Qed.

Ltac quiet_steps :=
  repeat first
    [ apply quiet_ret | apply quiet_lift2 | apply quiet_operands
    | apply quiet_bind; [|intros ?]
    | match goal with
      | |- quiet (if ?c then _ else _) _ _ => destruct c
      | |- quiet (match ?x with _ => _ end) _ _ => destruct x
      | |- quiet (let '(_, _) := ?x in _) _ _ => destruct x
      end ].

Lemma quiet_isomorphic_quaternion_algebras fuel b ops log :
  _arithmetic_invariants_known (self_of ops) = true →
  _arithmetic_invariants_known (other_of ops) = true →
  quiet (_isomorphic_quaternion_algebras X fuel b) ops log.
Proof.
  unfold _arithmetic_invariants_known.
  rewrite !andb_true_iff, !bool_decide_eq_true.
  intros [[[[[tf Htf] [itf Hitf]] [qa Hqa]] [iqa Hiqa]] _]
         [[[[[tf' Htf'] [itf' Hitf']] [qa' Hqa']] [iqa' Hiqa']] _].
  unfold _isomorphic_quaternion_algebras.
  destruct b; simpl.
  - apply quiet_bind;
      [by apply (quiet_on_self _ _ _ (Some itf)), invariant_trace_field_cached|intros ?].
    apply quiet_bind;
      [by apply (quiet_on_other _ _ _ (Some itf')), invariant_trace_field_cached|intros ?].
    apply quiet_bind;
      [by apply (quiet_on_self _ _ _ (Some iqa)), algebra_method_cached|intros ?].
    apply quiet_bind;
      [by apply (quiet_on_other _ _ _ (Some iqa')), algebra_method_cached|intros ?].
    quiet_steps.
  - apply quiet_bind;
      [by apply (quiet_on_self _ _ _ (Some tf)), trace_field_cached|intros ?].
    apply quiet_bind;
      [by apply (quiet_on_other _ _ _ (Some tf')), trace_field_cached|intros ?].
    apply quiet_bind;
      [by apply (quiet_on_self _ _ _ (Some qa)), algebra_method_cached|intros ?].
    apply quiet_bind;
      [by apply (quiet_on_other _ _ _ (Some qa')), algebra_method_cached|intros ?].
    quiet_steps.
Qed.

Lemma quiet_same_denominators ops log :
  _arithmetic_invariants_known (self_of ops) = true →
  _arithmetic_invariants_known (other_of ops) = true →
  quiet (_same_denominators X) ops log.
Proof.
  unfold _arithmetic_invariants_known.
  rewrite !andb_true_iff, !bool_decide_eq_true.
  intros [[[[[tf Htf] _] _] _] [D HD]] [[[[[tf' Htf'] _] _] _] [D' HD']].
  unfold _same_denominators.
  apply quiet_bind;
    [by apply (quiet_on_self _ _ _ (Some tf)), trace_field_cached|intros ?].
  apply quiet_bind;
    [by apply (quiet_on_other _ _ _ (Some tf')), trace_field_cached|intros ?].
  destruct (negb _); [apply quiet_lift2|].
  apply quiet_bind;
    [by apply (quiet_on_self _ _ _ (Some D)), denominators_cached|intros ?].
  apply quiet_bind.
  { destruct (bool_decide _); [apply quiet_ret|].
    apply quiet_bind;
      [by apply (quiet_on_other _ _ _ (Some D')), denominators_cached|intros ?].
    apply quiet_ret. }
  intros ?. quiet_steps.
Qed.

Lemma quiet_compare_arithmetic_invariants fuel ops log :
  _arithmetic_invariants_known (self_of ops) = true →
  _arithmetic_invariants_known (other_of ops) = true →
  quiet (compare_arithmetic_invariants X fuel) ops log.
Proof.
  intros Hs Ho.
  pose proof (quiet_isomorphic_quaternion_algebras fuel false ops log Hs Ho).
  pose proof (quiet_isomorphic_quaternion_algebras fuel true ops log Hs Ho).
  pose proof (quiet_same_denominators ops log Hs Ho).
  revert Hs Ho. unfold _arithmetic_invariants_known.
  rewrite !andb_true_iff, !bool_decide_eq_true.
  intros [[[[[tf Htf] [itf Hitf]] _] _] _]
         [[[[[tf' Htf'] [itf' Hitf']] _] _] _].
  unfold compare_arithmetic_invariants.
  apply quiet_bind;
    [by apply (quiet_on_self _ _ _ (Some tf)), trace_field_cached|intros ?].
  apply quiet_bind;
    [by apply (quiet_on_other _ _ _ (Some tf')), trace_field_cached|intros ?].
  apply quiet_bind; [apply quiet_lift2|intros ?].
  apply quiet_bind;
    [by apply (quiet_on_self _ _ _ (Some itf)), invariant_trace_field_cached
    |intros ?].
  apply quiet_bind;
    [by apply (quiet_on_other _ _ _ (Some itf')), invariant_trace_field_cached
    |intros ?].
  apply quiet_bind; [apply quiet_lift2|intros ?].
  apply quiet_bind; [done|intros ?].
  apply quiet_bind; [done|intros ?].
  apply quiet_bind; [done|intros ?].
  apply quiet_ret.
Qed.

Lemma quiet_has_same_arithmetic_invariants fuel ops log :
  _arithmetic_invariants_known (self_of ops) = true →
  _arithmetic_invariants_known (other_of ops) = true →
  quiet (has_same_arithmetic_invariants X fuel) ops log.
Proof.
  intros Hs Ho. unfold has_same_arithmetic_invariants.
  apply quiet_bind; [by apply quiet_compare_arithmetic_invariants|intros ?].
  apply quiet_ret.
Qed.

Lemma same_denominators_unknown_field ops log r1 s1 r2 s2 :
  on_self (trace_field X None None) (ops, log) = (Ok r1, s1) →
  on_other (trace_field X None None) s1 = (Ok r2, s2) →
  r1 = None ∨ r2 = None →
  _same_denominators X (ops, log)
  = (Raise (RuntimeError "Trace field not known."), s2).
Proof.
  intros H1 H2 Hnone. unfold _same_denominators.
  unfold mbind at 1. unfold Comparison_bind at 1. rewrite H1.
  unfold mbind at 1. unfold Comparison_bind at 1. rewrite H2.
  destruct Hnone as [-> | ->].
  - rewrite (bool_decide_eq_false_2 (is_Some None)) by (by intros [? ?]).
    done.
  - rewrite (bool_decide_eq_false_2 (is_Some None)) by (by intros [? ?]).
    by rewrite andb_false_r.
Qed.

Lemma isomorphic_quaternion_algebras_unknown (fuel : nat) (b : bool) ops log
    r1 s1 r2 s2 r3 s3 r4 s4 :
  let inv := if b then InvariantQuaternionAlgebra else QuaternionAlgebra in
  on_self (field_method X (associated_field inv) None None) (ops, log)
  = (Ok r1, s1) →
  on_other (field_method X (associated_field inv) None None) s1 = (Ok r2, s2) →
  on_self (algebra_method X inv fuel None) s2 = (Ok r3, s3) →
  on_other (algebra_method X inv fuel None) s3 = (Ok r4, s4) →
  r1 = None ∨ r2 = None ∨ r3 = None ∨ r4 = None →
  _isomorphic_quaternion_algebras X fuel b (ops, log)
  = (Raise (RuntimeError "Trace fields or quaternion algebras not known."), s4).
Proof.
  intros inv H1 H2 H3 H4 Hnone. unfold _isomorphic_quaternion_algebras.
  fold inv.
  unfold mbind at 1. unfold Comparison_bind at 1. rewrite H1.
  unfold mbind at 1. unfold Comparison_bind at 1. rewrite H2.
  unfold mbind at 1. unfold Comparison_bind at 1. rewrite H3.
  unfold mbind at 1. unfold Comparison_bind at 1. rewrite H4.
  destruct r1, r2, r3, r4; try done.
  destruct Hnone as [?|[?|[?|?]]]; done.
Qed.

(** C1 (amended).  [is_arithmetic] raises nothing and resolves nothing: it
    is [None] when one of its three inputs is unknown.
    [_same_denominators] and [_isomorphic_quaternion_algebras] raise
    [RuntimeError] when one of their accessor calls returns [None]; the
    accessors themselves search for an invariant that is not cached, so a
    field unknown at the call is searched for first and the error follows
    when that search finds nothing.  With the five invariants cached on
    both sides the comparisons search for nothing and change nothing. *)
Theorem C1_comparators_and_classifier ops log :
  (∀ self,
     _invariant_trace_field self = None
     ∨ _invariant_quaternion_algebra self = None
     ∨ _denominators self = None →
     is_arithmetic X self = None)
  ∧ (∀ r1 s1 r2 s2,
       on_self (trace_field X None None) (ops, log) = (Ok r1, s1) →
       on_other (trace_field X None None) s1 = (Ok r2, s2) →
       r1 = None ∨ r2 = None →
       _same_denominators X (ops, log)
       = (Raise (RuntimeError "Trace field not known."), s2))
  ∧ (∀ (fuel : nat) (b : bool) r1 s1 r2 s2 r3 s3 r4 s4,
       let inv := if b then InvariantQuaternionAlgebra else QuaternionAlgebra in
       on_self (field_method X (associated_field inv) None None) (ops, log)
       = (Ok r1, s1) →
       on_other (field_method X (associated_field inv) None None) s1
       = (Ok r2, s2) →
       on_self (algebra_method X inv fuel None) s2 = (Ok r3, s3) →
       on_other (algebra_method X inv fuel None) s3 = (Ok r4, s4) →
       r1 = None ∨ r2 = None ∨ r3 = None ∨ r4 = None →
       _isomorphic_quaternion_algebras X fuel b (ops, log)
       = (Raise (RuntimeError "Trace fields or quaternion algebras not known."),
          s4))
  ∧ (∀ self other p d tf_o,
       ops = Two self other →
       _trace_field self = None →
       _trace_field other = Some tf_o →
       next_prec_and_degree X self TraceField = Ok (PairOf (PDT p d)) →
       find_field X (_approx_trace_field_gens self) p d = None →
       _same_denominators X (ops, log)
       = (Raise (RuntimeError "Trace field not known."),
          (Two (record_failure TraceField (PDT p d) self) other,
           log ++ [CallFindField (_approx_trace_field_gens self) p d])))
  ∧ (_arithmetic_invariants_known (self_of ops) = true →
     _arithmetic_invariants_known (other_of ops) = true →
     ∀ fuel,
       quiet (compare_arithmetic_invariants X fuel) ops log
       ∧ quiet (has_same_arithmetic_invariants X fuel) ops log
       ∧ quiet (_isomorphic_quaternion_algebras X fuel false) ops log
       ∧ quiet (_isomorphic_quaternion_algebras X fuel true) ops log
       ∧ quiet (_same_denominators X) ops log).
Proof.
  split; [|split; [|split; [|split]]].
  - intros self Hnone. by apply is_arithmetic_unknown.
  - apply same_denominators_unknown_field.
  - intros fuel b. apply isomorphic_quaternion_algebras_unknown.
  - intros self other p d tf_o -> Hs Ho Hplan Hfind.
    eapply (same_denominators_unknown_field _ _ None _ (Some tf_o)).
    + unfold on_self. simpl.
      rewrite (trace_field_attempt X self log None None p d).
      * simpl. by rewrite Hfind.
      * intros [[? Hx] _]. congruence.
      * simpl. by rewrite Hplan.
      * simpl. by rewrite Hplan.
    + unfold on_other. simpl. by rewrite (trace_field_cached X other _ tf_o).
    + by left.
  - intros Hs Ho fuel. split; [|split; [|split; [|split]]].
    + by apply quiet_compare_arithmetic_invariants.
    + by apply quiet_has_same_arithmetic_invariants.
    + by apply quiet_isomorphic_quaternion_algebras.
    + by apply quiet_isomorphic_quaternion_algebras.
    + by apply quiet_same_denominators.
Qed.

End ComparatorFacts.

(** ** Names *)

Lemma lower_char_idemp (c : Ascii.ascii) : lower_char (lower_char c) = lower_char c.
Proof. destruct c as [[] [] [] [] [] [] [] []]; reflexivity. Qed.

Lemma lower_char_whitespace (c : Ascii.ascii) :
  is_whitespace c = true → lower_char c = c.
Proof. destruct c as [[] [] [] [] [] [] [] []]; (reflexivity || discriminate). Qed.

Lemma lower_idemp (name : string) : lower (lower name) = lower name.
Proof.
  induction name as [|c name IH]; simpl; [done|].
  by rewrite lower_char_idemp, IH.
Qed.

Lemma lower_app (a b : string) : lower (a ++ b) = (lower a ++ lower b)%string.
Proof. induction a as [|c a IH]; simpl; [done|]. by rewrite IH. Qed.

Lemma rev_app_app (s t u : string) :
  String.rev_app (s ++ t) u = String.rev_app t (String.rev_app s u).
Proof. revert u. induction s as [|a s IH]; intros u; simpl; [done|apply IH]. Qed.

Lemma lstrip_snoc (s : string) (c : Ascii.ascii) :
  is_whitespace c = true →
  lstrip (s ++ String c "")
  = match lstrip s with
    | EmptyString => EmptyString
    | String _ _ => (lstrip s ++ String c "")%string
    end.
Proof.
  intros Hc. induction s as [|a s IH]; simpl.
  - by rewrite Hc.
  - destruct (is_whitespace a); [apply IH|done].
Qed.

Lemma strip_cons (s : string) (c : Ascii.ascii) :
  is_whitespace c = true → strip (String c s) = strip s.
Proof. intros Hc. unfold strip. simpl. by rewrite Hc. Qed.

Lemma strip_snoc (s : string) (c : Ascii.ascii) :
  is_whitespace c = true → strip (s ++ String c "") = strip s.
Proof.
  intros Hc. unfold strip. rewrite lstrip_snoc by done.
  destruct (lstrip s) as [|a r] eqn:Hs; [done|].
  unfold String.rev at 2. rewrite rev_app_app. simpl. by rewrite Hc.
Qed.

(** X1.  [fix_names] does not see the case of the letters nor white space
    at either end of the name; the names it returns are names it accepts,
    unchanged; any other name raises ValueError. *)
Theorem fix_names_insensitive (name : string) (c : Ascii.ascii) :
  fix_names (lower name) = fix_names name
  ∧ (is_whitespace c = true →
     fix_names (String c name) = fix_names name
     ∧ fix_names (name ++ String c "") = fix_names name)
  ∧ (∀ invariant, fix_names (canonical_name invariant) = Ok invariant)
  ∧ ((∃ invariant, fix_names name = Ok invariant)
     ∨ fix_names name = Raise (ValueError "Name not recognized")).
Proof.
  split; [|split; [|split]].
  - unfold fix_names. by rewrite lower_idemp.
  - intros Hc. unfold fix_names. split.
    + simpl. rewrite (lower_char_whitespace c Hc). by rewrite strip_cons.
    + rewrite lower_app. simpl. rewrite (lower_char_whitespace c Hc).
      by rewrite strip_snoc.
  - intros invariant. by destruct invariant.
  - unfold fix_names. repeat case_bool_decide; eauto.
Qed.

(** ** The planner for the algebras, and when the planner returns *)

Section PlannerMore.

Context {Host Gens Field AAN Elt Poly Word Ideal Algebra Iso : Type}.
Context `{Countable Ideal}.
Variable X : @Collaborators Host Gens Field AAN Elt Poly Word Ideal Algebra Iso.

Implicit Types (self : @ManifoldNT Host Gens Field AAN Elt Ideal Algebra _ _).

Lemma next_prec_and_degree_algebra self invariant :
  invariant = QuaternionAlgebra ∨ invariant = InvariantQuaternionAlgebra →
  next_prec_and_degree X self invariant
  = PrecOf <$> next_for_algebra X self invariant 5000.
Proof. by intros [-> | ->]. Qed.

Lemma py_min_keys_spec (record : gmap Z bool) (b : bool) (x : Z) :
  py_min (keys_where b record) = Ok x →
  record !! x = Some b ∧ ∀ k, record !! k = Some b → x ≤ k.
Proof.
  intros Hmin. apply py_min_Ok in Hmin as [Hin Hall]. split.
  - by apply elem_of_keys_where.
  - intros k Hk. apply Hall. by apply elem_of_keys_where.
Qed.

Lemma py_max_keys_spec (record : gmap Z bool) (b : bool) (x : Z) :
  py_max (keys_where b record) = Ok x →
  record !! x = Some b ∧ ∀ k, record !! k = Some b → k ≤ x.
Proof.
  intros Hmax. apply py_max_Ok in Hmax as [Hin Hall]. split.
  - by apply elem_of_keys_where.
  - intros k Hk. apply Hall. by apply elem_of_keys_where.
Qed.

(** The three branches of the planner for an algebra, once the planner
    for its field has returned [t]. *)
Lemma next_for_algebra_cases self invariant pi t :
  next_for_field X self (associated_field invariant) 1000 20 5000 5 = Ok t →
  let record := algebra_record self invariant in
  (record = ∅ → next_for_algebra X self invariant pi = Ok (prec t))
  ∧ ((∃ p, record !! p = Some true) →
     ∃ p, next_for_algebra X self invariant pi = Ok p
          ∧ record !! p = Some true
          ∧ ∀ q, record !! q = Some true → p ≤ q)
  ∧ (record ≠ ∅ → (∀ p, record !! p ≠ Some true) →
     ∃ maxF, next_for_algebra X self invariant pi
             = Ok (Z.max (maxF + pi) (prec t))
             ∧ record !! maxF = Some false
             ∧ ∀ q, record !! q = Some false → q ≤ maxF).
Proof.
  intros Hfield record. unfold next_for_algebra. rewrite Hfield. simpl.
  fold record. split; [|split].
  - intros Hempty. by rewrite bool_decide_eq_true_2.
  - intros [p Hp].
    rewrite bool_decide_eq_false_2; last first.
    { intros Hempty. rewrite Hempty in Hp. by rewrite lookup_empty in Hp. }
    rewrite bool_decide_eq_true_2; last (apply elem_of_values; eauto).
    destruct (py_min_total (keys_where true record)) as [x Hx].
    { by apply (keys_where_nonempty true record p). }
    exists x. split; [done|]. by apply py_min_keys_spec.
  - intros Hne Hall.
    rewrite bool_decide_eq_false_2 by done.
    rewrite bool_decide_eq_false_2; last first.
    { intros Hin. apply elem_of_values in Hin as [k Hk]. by apply (Hall k). }
    destruct (map_choose _ Hne) as (k & v & Hk).
    assert (v = false) as ->.
    { destruct v; [by apply Hall in Hk|done]. }
    destruct (py_max_total (keys_where false record)) as [x Hx].
    { by apply (keys_where_nonempty false record k). }
    rewrite Hx. simpl. exists x. split; [done|]. by apply py_max_keys_spec.
Qed.

Lemma record_cases {K} `{Countable K} (record : gmap K bool) :
  record = ∅ ∨ (∃ k, record !! k = Some true)
  ∨ (record ≠ ∅ ∧ ∀ k, record !! k ≠ Some true).
Proof.
  destruct (decide (record = ∅)) as [?|Hne]; [by left|]. right.
  destruct (decide (true ∈ values record)) as [Hin|Hnin].
  - left. by apply elem_of_values.
  - right. split; [done|]. intros k Hk. apply Hnin. apply elem_of_values. eauto.
Qed.


(** The planner for a field returns wherever the logarithm of the override
    does. *)
Lemma next_for_field_returns self invariant :
  invariant = TraceField ∨ invariant = InvariantTraceField →
  invariant = InvariantTraceField ∨ logarithm_returns X self →
  ∃ t, next_for_field X self invariant 1000 20 5000 5 = Ok t.
Proof.
  intros Hkind Hcond.
  destruct (record_cases (field_record self invariant)) as [He|[Hs|[Hne Hall]]].
  - rewrite next_for_field_empty by done. eauto.
  - destruct (next_for_field_success X self invariant 1000 20 5000 5 Hs)
      as (p & d & -> & _). eauto.
  - destruct (next_for_field_failure X self invariant 1000 20 5000 5 Hne Hall)
      as (maxP & maxD & HP & HD & ->).
    destruct Hkind as [-> | ->].
    + destruct Hcond as [?|Hcond]; [done|].
      destruct (_invariant_trace_field self) as [F|] eqn:HF.
      * destruct (is_modtwo_homology_sphere X self) eqn:Hsph.
        -- rewrite (correct_degree_sphere X _ _ _ _ F) by done. eauto.
        -- rewrite (correct_degree_log X _ _ _ _ F) by done. simpl.
           destruct (Hcond F maxP HF Hsph Hall) as [l Hl].
           { by apply py_max_largest_failed. }
           rewrite Hl. simpl. eauto.
      * rewrite correct_degree_unrelated by (done || by left). eauto.
    + destruct (_trace_field self) as [F|] eqn:HF.
      * rewrite (correct_degree_itf X _ _ _ _ F) by done. eauto.
      * rewrite correct_degree_unrelated by (done || by right). eauto.
Qed.

Lemma next_for_algebra_returns self invariant pi t :
  next_for_field X self (associated_field invariant) 1000 20 5000 5 = Ok t →
  ∃ p, next_for_algebra X self invariant pi = Ok p.
Proof.
  intros Hfield.
  destruct (next_for_algebra_cases self invariant pi t Hfield) as (H1 & H2 & H3).
  destruct (record_cases (algebra_record self invariant)) as [He|[Hs|[Hne Hall]]].
  - rewrite H1 by done. eauto.
  - destruct (H2 Hs) as (p & -> & _). eauto.
  - destruct (H3 Hne Hall) as (m & -> & _). eauto.
Qed.

(** X2.  The planner never takes [min] or [max] of an empty sequence, and hands
    the field methods a pair and the algebra methods an integer: for the
    invariant trace field and the invariant quaternion algebra it always
    returns; for the trace field and the quaternion algebra it returns
    wherever the float logarithm of the degree override (invariant trace
    field known, not a mod-2-homology sphere, failures only) returns an
    integer. *)
Theorem planner_returns self :
  (∃ t, next_prec_and_degree X self InvariantTraceField = Ok (PairOf t))
  ∧ (∃ p, next_prec_and_degree X self InvariantQuaternionAlgebra = Ok (PrecOf p))
  ∧ (logarithm_returns X self →
     (∃ t, next_prec_and_degree X self TraceField = Ok (PairOf t))
     ∧ (∃ p, next_prec_and_degree X self QuaternionAlgebra = Ok (PrecOf p))).
Proof.
  split; [|split].
  - destruct (next_for_field_returns self InvariantTraceField) as [t Ht];
      [by right|by left|].
    exists t. by apply next_field_Ok; [right|].
  - destruct (next_for_field_returns self InvariantTraceField) as [t Ht];
      [by right|by left|].
    destruct (next_for_algebra_returns self InvariantQuaternionAlgebra 5000 t Ht)
      as [p Hp].
    exists p. rewrite next_prec_and_degree_algebra by (by right).
    by rewrite Hp.
  - intros Hcond.
    destruct (next_for_field_returns self TraceField) as [t Ht];
      [by left|by right|].
    split.
    + exists t. by apply next_field_Ok; [left|].
    + destruct (next_for_algebra_returns self QuaternionAlgebra 5000 t Ht)
        as [p Hp].
      exists p. rewrite next_prec_and_degree_algebra by (by left).
      by rewrite Hp.
Qed.

(** X3.  The planner for an algebra: with an empty record, the precision planned
    for its field; with a success, the smallest successful precision; with
    failures only, the larger of the largest failed precision plus the
    increment and the precision planned for its field. *)
Theorem algebra_planner self invariant t :
  invariant = QuaternionAlgebra ∨ invariant = InvariantQuaternionAlgebra →
  next_prec_and_degree X self (associated_field invariant) = Ok (PairOf t) →
  let record := algebra_record self invariant in
  (record = ∅ → next_prec_and_degree X self invariant = Ok (PrecOf (prec t)))
  ∧ ((∃ p, record !! p = Some true) →
     ∃ p, next_prec_and_degree X self invariant = Ok (PrecOf p)
          ∧ record !! p = Some true
          ∧ ∀ q, record !! q = Some true → p ≤ q)
  ∧ (record ≠ ∅ → (∀ p, record !! p ≠ Some true) →
     ∃ maxF, next_prec_and_degree X self invariant
             = Ok (PrecOf (Z.max (maxF + 5000) (prec t)))
             ∧ record !! maxF = Some false
             ∧ (∀ q, record !! q = Some false → q ≤ maxF))
  ∧ ((∀ p, record !! p ≠ Some true) →
     ∃ p, next_prec_and_degree X self invariant = Ok (PrecOf p)
          ∧ prec t ≤ p
          ∧ ∀ q, record !! q = Some false → q + 5000 ≤ p).
Proof.
  intros Hinv Hfield record.
  apply next_field_Ok in Hfield;
    [|destruct Hinv as [-> | ->]; [by left|by right]].
  destruct (next_for_algebra_cases self invariant 5000 t Hfield)
    as (H1 & H2 & H3). fold record in H1, H2, H3.
  rewrite next_prec_and_degree_algebra by done.
  split; [|split; [|split]].
  - intros He. by rewrite H1.
  - intros Hs. destruct (H2 Hs) as (p & -> & Hp). eauto.
  - intros Hne Hall. destruct (H3 Hne Hall) as (m & -> & Hm). eauto.
  - intros Hall. destruct (decide (record = ∅)) as [He|Hne].
    + rewrite H1 by done. eexists. split; [done|]. split; [lia|].
      intros q Hq. rewrite He in Hq. by rewrite lookup_empty in Hq.
    + destruct (H3 Hne Hall) as (m & -> & _ & Hm).
      eexists. split; [done|]. split; [lia|].
      intros q Hq. apply Hm in Hq. lia.
Qed.

(** X4.  After a failure is recorded at the precision the planner returned for
    an algebra, the planner returns that precision plus the increment. *)
Theorem algebra_escalation self invariant p :
  invariant = QuaternionAlgebra ∨ invariant = InvariantQuaternionAlgebra →
  (∀ q, algebra_record self invariant !! q ≠ Some true) →
  next_prec_and_degree X self invariant = Ok (PrecOf p) →
  next_prec_and_degree X
    (set_quaternion_algebra_prec_record invariant p false self) invariant
  = Ok (PrecOf (p + 5000)).
Proof.
  intros Hinv Hall Hnext.
  set (self' := set_quaternion_algebra_prec_record invariant p false self).
  rewrite next_prec_and_degree_algebra in Hnext by done.
  destruct (next_for_field X self (associated_field invariant) 1000 20 5000 5)
    as [t|e|] eqn:Hfield;
    [|unfold next_for_algebra in Hnext; by rewrite Hfield in Hnext..].
  assert (Hp : prec t ≤ p ∧ ∀ q, algebra_record self invariant !! q = Some false
                                   → q ≤ p).
  { destruct (next_for_algebra_cases self invariant 5000 t Hfield)
      as (H1 & _ & H3).
    destruct (decide (algebra_record self invariant = ∅)) as [He|Hne].
    - rewrite H1 in Hnext by done. injection Hnext as <-. split; [lia|].
      intros q Hq. rewrite He in Hq. by rewrite lookup_empty in Hq.
    - destruct (H3 Hne Hall) as (m & Hm & _ & Hle). rewrite Hm in Hnext.
      injection Hnext as <-. split; [lia|]. intros q Hq. apply Hle in Hq. lia. }
  destruct Hp as [Hfp Hle].
  assert (Hrec : algebra_record self' invariant
                 = <[p := false]> (algebra_record self invariant)).
  { by destruct Hinv as [-> | ->]. }
  assert (Hfield' : next_for_field X self' (associated_field invariant)
                      1000 20 5000 5 = Ok t).
  { rewrite <- Hfield. by destruct Hinv as [-> | ->]. }
  destruct (next_for_algebra_cases self' invariant 5000 t Hfield')
    as (_ & _ & H3).
  rewrite Hrec in H3. destruct H3 as (m & Hm & Hmf & Hmax).
  { apply insert_non_empty. }
  { intros q. rewrite lookup_insert. destruct (decide (p = q)); [done|apply Hall]. }
  rewrite next_prec_and_degree_algebra by done. rewrite Hm. simpl.
  do 2 f_equal.
  pose proof (Hmax p (lookup_insert_eq _ _ _)) as Hpm.
  rewrite lookup_insert in Hmf.
  destruct (decide (p = m)) as [<-|Hne]; [lia|]. apply Hle in Hmf. lia.
Qed.

(** With nothing attempted yet the planner answers (1000, 20) for the
    fields and 1000 for the algebras. *)
Lemma unattempted_plans self :
  _trace_field_prec_record self = ∅ →
  _invariant_trace_field_prec_record self = ∅ →
  _quaternion_algebra_prec_record self = ∅ →
  _invariant_quaternion_algebra_prec_record self = ∅ →
  (∀ k, k = TraceField ∨ k = InvariantTraceField →
        next_prec_and_degree X self k = Ok (PairOf (PDT 1000 20)))
  ∧ (∀ inv, inv = QuaternionAlgebra ∨ inv = InvariantQuaternionAlgebra →
            next_prec_and_degree X self inv = Ok (PrecOf 1000)).
Proof.
  intros Htf Hitf Hqa Hiqa.
  assert (Hfield : ∀ k, k = TraceField ∨ k = InvariantTraceField →
            next_for_field X self k 1000 20 5000 5 = Ok (PDT 1000 20)).
  { intros k Hk. apply next_for_field_empty. by destruct Hk as [-> | ->]. }
  split.
  - intros k Hk. apply next_field_Ok; [done|]. by apply Hfield.
  - intros inv Hinv.
    assert (Hk : associated_field inv = TraceField
                 ∨ associated_field inv = InvariantTraceField).
    { destruct Hinv as [-> | ->]; [by left|by right]. }
    destruct (next_for_algebra_cases self inv 5000 (PDT 1000 20) (Hfield _ Hk))
      as (Hempty & _).
    rewrite next_prec_and_degree_algebra by done.
    rewrite Hempty; [done|]. by destruct Hinv as [-> | ->].
Qed.

End PlannerMore.

(** ** What the methods assign *)

Section AssignmentFacts.

Context {Host Gens Field AAN Elt Poly Word Ideal Algebra Iso : Type}.
Context `{EqDecision Field} `{EqDecision Algebra}.
Context `{Countable Ideal}.
Variable X : @Collaborators Host Gens Field AAN Elt Poly Word Ideal Algebra Iso.

Implicit Types (self : @ManifoldNT Host Gens Field AAN Elt Ideal Algebra _ _).
Implicit Types (log : list (@Call Gens)).
Implicit Types (R : relation (@ManifoldNT Host Gens Field AAN Elt Ideal Algebra _ _)).

Ltac run_method :=
  unfold mbind, Method_bind, mret, Method_ret, get_self, lift, raise,
    call_find_field, log_call, modify; simpl.

Lemma keeps_bind {A B} R `{!PreOrder R} (m : Method A) (k : A → Method B) :
  keeps R m → (∀ a, keeps R (k a)) → keeps R (m ≫= k).
Proof.
  intros Hm Hk self log. specialize (Hm self log).
  unfold mbind, Method_bind.
  destruct (m (self, log)) as [[a|e|] [s1 l1]]; simpl in *; [|done..].
  by etrans; [|apply Hk].
Qed.

Lemma keeps_ret {A} R `{!PreOrder R} (a : A) : keeps R (mret a).
Proof. by intros self log. Qed.

Lemma keeps_lift {A} R `{!PreOrder R} (r : Res A) : keeps R (lift r).
Proof. by intros self log. Qed.

Lemma keeps_get_self R `{!PreOrder R} : keeps R get_self.
Proof. by intros self log. Qed.

(** A step that is kept only from the states the method is in when it
    gets there. *)
Lemma keeps_bind_self {B} R `{!PreOrder R} (k : ManifoldNT → Method B) :
  (∀ self log, R self (k self (self, log)).2.1) → keeps R (get_self ≫= k).
Proof. intros Hk self log. apply Hk. Qed.

(** A field method that is not answered from the cache and does not get
    both coordinates stops before it has searched for or written
    anything. *)
Lemma field_method_unplanned k self log prec degree :
  k = TraceField ∨ k = InvariantTraceField →
  ¬ (is_Some (field_of k self) ∧ prec = None ∧ degree = None) →
  (∀ p d, ¬ (arg_or_planned X prec self k planned_prec = Ok p
             ∧ arg_or_planned X degree self k planned_degree = Ok d)) →
  (field_method X k prec degree (self, log)).2 = (self, log)
  ∧ ∀ v, (field_method X k prec degree (self, log)).1 ≠ Ok v.
Proof.
  intros Hk Hno Hargs.
  destruct Hk as [-> | ->]; simpl in Hno |- *;
    [unfold trace_field|unfold invariant_trace_field]; run_method;
    rewrite bool_decide_eq_false_2 by done;
    (destruct (arg_or_planned X prec self _ planned_prec) as [p|e|] eqn:Hp;
       simpl; [|done..]);
    (destruct (arg_or_planned X degree self _ planned_degree) as [d|e|] eqn:Hd;
       simpl; [|done..]);
    by destruct (Hargs p d).
Qed.

Lemma field_method_assigns k prec degree :
  k = TraceField ∨ k = InvariantTraceField →
  keeps (rtc (assignment X)) (field_method X k prec degree).
Proof.
  intros Hk self log.
  destruct (decide (is_Some (field_of k self) ∧ prec = None ∧ degree = None))
    as [([f Hf] & -> & ->)|Hno].
  { by rewrite (field_method_cached X k self log f). }
  destruct (arg_or_planned X prec self k planned_prec) as [p|e|] eqn:Hp;
    [destruct (arg_or_planned X degree self k planned_degree) as [d|e|] eqn:Hd|..].
  - rewrite (field_method_attempt X k self log prec degree p d) by done.
    simpl. destruct (find_field X (approx_gens_of k self) p d) as [[[f r] g]|];
      simpl; apply rtc_once; constructor.
  - destruct (field_method_unplanned k self log prec degree) as [-> _];
      [done..| |done]. intros p' d' [_ ?]. congruence.
  - destruct (field_method_unplanned k self log prec degree) as [-> _];
      [done..| |done]. intros p' d' [_ ?]. congruence.
  - destruct (field_method_unplanned k self log prec degree) as [-> _];
      [done..| |done]. intros p' d' [? _]. congruence.
  - destruct (field_method_unplanned k self log prec degree) as [-> _];
      [done..| |done]. intros p' d' [? _]. congruence.
Qed.

Lemma conclude_algebra_assigns inv p field fuel root eps self log :
  is_Some (field_of (associated_field inv) self) →
  rtc (assignment X) self
    (conclude_algebra X inv p field
       (hilbert_symbol_loop X fuel (power_of inv) root p eps (self, log))).2.1.
Proof.
  intros Hfield.
  pose proof (hilbert_symbol_loop_state X (power_of inv) root p self fuel eps log)
    as Hstate.
  destruct (hilbert_symbol_loop _ _ _ _ _ _ _) as [[[[a|] [b|]]|e|] [s1 l1]];
    simpl in *; subst s1; try done;
    try (apply rtc_once; constructor).
  eapply rtc_l; [apply assign_algebra_record|].
  apply rtc_once. apply assign_algebra.
  by destruct inv.
Qed.

Lemma algebra_method_raised inv fuel self log prec e :
  ¬ (is_Some (algebra_of inv self) ∧ prec = None) →
  arg_or_planned X prec self inv planned_int = Raise e →
  algebra_method X inv fuel prec (self, log) = (Raise e, (self, log)).
Proof.
  intros Hno Hp. unfold algebra_method. run_method.
  rewrite bool_decide_eq_false_2 by done. by rewrite Hp.
Qed.

(** An algebra method whose field is unknown and whose field method does
    not get its degree stops there. *)
Lemma algebra_method_unplanned inv fuel self log prec p :
  inv = QuaternionAlgebra ∨ inv = InvariantQuaternionAlgebra →
  ¬ (is_Some (algebra_of inv self) ∧ prec = None) →
  arg_or_planned X prec self inv planned_int = Ok p →
  field_of (associated_field inv) self = None →
  (∀ d, arg_or_planned X None self (associated_field inv) planned_degree
        ≠ Ok d) →
  (algebra_method X inv fuel prec (self, log)).2 = (self, log)
  ∧ ∀ v, (algebra_method X inv fuel prec (self, log)).1 ≠ Ok v.
Proof.
  intros Hinv Hno Hp Hfield Hd. unfold algebra_method. run_method.
  rewrite bool_decide_eq_false_2 by done. rewrite Hp. simpl.
  rewrite bool_decide_eq_true_2 by done.
  destruct (field_method_unplanned (associated_field inv) self log (Some p) None)
    as [Hstate Hres].
  { destruct Hinv as [-> | ->]; [by left|by right]. }
  { by intros (_ & ? & _). }
  { intros p' d [_ ?]. by apply (Hd d). }
  destruct (field_method X (associated_field inv) (Some p) None (self, log))
    as [[v|e|] s1]; simpl in *; subst s1; [by destruct (Hres v)|done..].
Qed.

Lemma algebra_method_assigns inv fuel prec :
  inv = QuaternionAlgebra ∨ inv = InvariantQuaternionAlgebra →
  keeps (rtc (assignment X)) (algebra_method X inv fuel prec).
Proof.
  intros Hinv self log.
  assert (Hk : associated_field inv = TraceField
               ∨ associated_field inv = InvariantTraceField).
  { destruct Hinv as [-> | ->]; [by left|by right]. }
  destruct (decide (is_Some (algebra_of inv self) ∧ prec = None))
    as [([a Ha] & ->)|Hno].
  { by rewrite (algebra_method_cached X inv fuel self log a). }
  destruct (arg_or_planned X prec self inv planned_int) as [p|e|] eqn:Hp.
  - destruct (field_of (associated_field inv) self) as [field|] eqn:Hfield.
    + rewrite (algebra_method_known X inv fuel self log prec p field) by done.
      apply conclude_algebra_assigns. rewrite Hfield. eauto.
    + destruct (arg_or_planned X None self (associated_field inv) planned_degree)
        as [d|e|] eqn:Hd.
      * destruct (find_field X (approx_gens_of (associated_field inv) self) p d)
          as [[[field root] g]|] eqn:Hfind.
        -- rewrite (algebra_method_field_found X inv fuel self log prec p d
                      field root g) by done.
           eapply rtc_l; [apply (assign_field X (associated_field inv))|].
           apply conclude_algebra_assigns.
           destruct Hinv as [-> | ->]; simpl; [|eauto].
           destruct (bool_decide (_invariant_trace_field self = None)
                     && negb (is_modtwo_homology_sphere X self)); simpl; eauto.
        -- rewrite (algebra_method_field_failed X inv fuel self log prec p d)
             by done.
           apply rtc_once. constructor.
      * destruct (algebra_method_unplanned inv fuel self log prec p) as [-> _];
          [done..| |done]. intros d'. congruence.
      * destruct (algebra_method_unplanned inv fuel self log prec p) as [-> _];
          [done..| |done]. intros d'. congruence.
  - unfold algebra_method. run_method.
    rewrite bool_decide_eq_false_2 by done. by rewrite Hp.
  - unfold algebra_method. run_method.
    rewrite bool_decide_eq_false_2 by done. by rewrite Hp.
Qed.

Lemma denominators_assigns : keeps (rtc (assignment X)) (denominators X).
Proof.
  intros self log. unfold denominators. run_method.
  destruct (_denominators self) as [D|] eqn:HD; [done|].
  destruct (_trace_field_generators self) as [gens|] eqn:Hg; [|done].
  simpl. apply rtc_once. apply assign_denominators; [done|]. rewrite Hg. eauto.
Qed.

Lemma denominator_residue_characteristics_assigns :
  keeps (rtc (assignment X)) (denominator_residue_characteristics X).
Proof.
  unfold denominator_residue_characteristics.
  apply keeps_bind_self; [apply _|]. intros self log.
  apply (keeps_bind (rtc (assignment X))); [|intros []].
  { destruct (bool_decide _); [|apply keeps_ret; apply _].
    apply keeps_bind; [apply _|apply denominators_assigns|].
    intros ?. apply keeps_ret; apply _. }
  apply keeps_bind_self; [apply _|]. clear self log. intros self log.
  run_method.
  destruct (_denominators self) as [D|] eqn:HD; [|done].
  destruct (_denominator_residue_characteristics self) eqn:Hrc; [done|].
  simpl. apply rtc_once. by apply assign_residue_characteristics.
Qed.

Lemma compute_arithmetic_invariants_assigns fuel prec degree :
  keeps (rtc (assignment X)) (compute_arithmetic_invariants X fuel prec degree).
Proof.
  unfold compute_arithmetic_invariants.
  apply keeps_bind; [apply _|apply keeps_get_self; apply _|intros self0].
  do 6 (apply keeps_bind; [apply _|apply keeps_lift; apply _|intros ?]).
  apply keeps_bind; [apply _|apply (field_method_assigns TraceField); by left|intros ?].
  apply keeps_bind;
    [apply _|apply (field_method_assigns InvariantTraceField); by right|intros ?].
  apply keeps_bind; [apply _|apply algebra_method_assigns; by left|intros ?].
  apply keeps_bind; [apply _|apply algebra_method_assigns; by right|intros ?].
  apply keeps_bind; [apply _|apply keeps_get_self; apply _|intros self1].
  destruct (_trace_field_generators self1) as [[|g gens]|];
    try (apply keeps_ret; apply _).
  apply keeps_bind; [apply _|apply denominators_assigns|intros ?].
  apply keeps_ret; apply _.
Qed.

End AssignmentFacts.

(** ** The attributes in every state an instance goes through *)

Section CoherenceFacts.

Context {Host Gens Field AAN Elt Poly Word Ideal Algebra Iso : Type}.
Context `{EqDecision Field} `{EqDecision Algebra}.
Context `{Countable Ideal}.
Variable X : @Collaborators Host Gens Field AAN Elt Poly Word Ideal Algebra Iso.

Implicit Types (self : @ManifoldNT Host Gens Field AAN Elt Ideal Algebra _ _).
Implicit Types (log : list (@Call Gens)).

#[local] Instance nothing_forgotten_po :
  PreOrder (@nothing_forgotten Host Gens Field AAN Elt Ideal Algebra _ _).
Proof.
  split.
  - intros s. unfold nothing_forgotten. by repeat split.
  - intros s1 s2 s3 H12 H23. unfold nothing_forgotten in *.
    destruct H12 as (?&?&?&?&?&?&?&?&?&?&?&?).
    destruct H23 as (?&?&?&?&?&?&?&?&?&?&?&?).
    repeat split; try congruence; eauto.
Qed.

Lemma is_Some_lookup_insert {K} `{Countable K} (m : gmap K bool) (i j : K) b :
  is_Some (m !! j) → is_Some (<[i := b]> m !! j).
Proof.
  intros Hj. rewrite lookup_insert. destruct (decide (i = j)); eauto.
Qed.

Lemma assignment_nothing_forgotten self self' :
  assignment X self self' → nothing_forgotten self self'.
Proof.
  destruct 1 as [k key s|k key f r g s|inv p b s|inv a s Hf|D s HD Hg|D s HD Hrc];
    unfold nothing_forgotten.
  - destruct k; simpl; repeat split; eauto using @is_Some_lookup_insert.
  - destruct k; simpl;
      try destruct (bool_decide (_invariant_trace_field s = None)
                    && negb (is_modtwo_homology_sphere X s)); simpl;
      repeat split; eauto using @is_Some_lookup_insert.
  - simpl. destruct (bool_decide (inv = QuaternionAlgebra));
      repeat split; eauto using @is_Some_lookup_insert.
  - simpl. destruct (bool_decide (inv = QuaternionAlgebra));
      repeat split; eauto.
  - simpl. repeat split; eauto. intros D'. congruence.
  - simpl. repeat split; eauto.
Qed.

Ltac coherent_cases :=
  split_and!; [intros []; simpl|..];
  first [ done | tauto | congruence
        | split; intros _; eauto; tauto
        | intros ? [= <-]; done
        | intros ? ?; simplify_eq; eauto ].

Lemma assignment_coherent self self' :
  assignment X self self' →
  attributes_coherent X self → attributes_coherent X self'.
Proof.
  intros Hstep (Hroot & Htf & Hitf & [Hqa Hiqa] & Hcons & Hrc & Hden & Hgens).
  pose proof (Hroot TraceField) as Hr1.
  pose proof (Hroot InvariantTraceField) as Hr2. simpl in Hr1, Hr2.
  unfold attributes_coherent, algebras_over_known_fields,
    denominators_consistent in *. clear Hroot.
  destruct Hstep as [k key s|k key f r g s|inv p b s|inv a s Hf|D s HD Hg|D s HD Hrc'].
  - destruct k; simpl; coherent_cases.
  - destruct k; simpl;
      try destruct (bool_decide (_invariant_trace_field s = None)
                    && negb (is_modtwo_homology_sphere X s)); simpl;
      coherent_cases.
  - simpl. coherent_cases.
  - simpl. destruct inv; simpl in *;
      coherent_cases.
  - simpl. coherent_cases.
  - simpl. coherent_cases.
Qed.

Lemma rtc_assignment_coherent self self' :
  rtc (assignment X) self self' →
  attributes_coherent X self → attributes_coherent X self'.
Proof.
  induction 1 as [|s1 s2 s3 Hstep _ IH]; [done|].
  intros Hc. apply IH. by apply (assignment_coherent s1).
Qed.

Lemma rtc_assignment_nothing_forgotten self self' :
  rtc (assignment X) self self' → nothing_forgotten self self'.
Proof.
  induction 1 as [|s1 s2 s3 Hstep _ IH]; [done|].
  etrans; [by apply assignment_nothing_forgotten|done].
Qed.

Lemma init_coherent (host : Host) : attributes_coherent X (init X host).
Proof.
  unfold attributes_coherent, algebras_over_known_fields,
    denominators_consistent. simpl.
  split_and!; [intros []; simpl|..]; try done;
    split; intros [? ?]; done.
Qed.

Lemma delete_arithmetic_invariants_coherent self :
  attributes_coherent X (delete_arithmetic_invariants X self).
Proof.
  unfold attributes_coherent, algebras_over_known_fields,
    denominators_consistent. simpl.
  split_and!; [intros []; simpl|..]; try done;
    split; intros [? ?]; done.
Qed.

Lemma coherent_of_reachable self :
  reachable X self → attributes_coherent X self.
Proof.
  induction 1 as [host|k prec degree s log Hk _ IH|inv fuel prec s log Hinv _ IH
                  |s log _ IH|s log _ IH|fuel prec degree s log _ IH|host s _ IH].
  - apply init_coherent.
  - eapply rtc_assignment_coherent; [|exact IH].
    by apply field_method_assigns.
  - eapply rtc_assignment_coherent; [|exact IH].
    by apply algebra_method_assigns.
  - eapply rtc_assignment_coherent; [|exact IH]. apply denominators_assigns.
  - eapply rtc_assignment_coherent; [|exact IH].
    apply denominator_residue_characteristics_assigns.
  - eapply rtc_assignment_coherent; [|exact IH].
    apply compute_arithmetic_invariants_assigns.
  - apply delete_arithmetic_invariants_coherent.
Qed.

(** X9.  In every state an instance goes through, from [__init__] on and
    through any calls of the resolving methods, [denominators],
    [compute_arithmetic_invariants] and [dehn_fill]: a field is stored
    exactly when its numerical root and its generators are; an algebra is
    stored only next to its field; known denominators have their residue
    characteristics stored, unknown ones have none; denominators are known
    only next to the trace field's generators; and the trace field's
    approximate generators are those of the wrapped manifold. *)
Theorem reachable_coherent self :
  reachable X self →
  (is_Some (_trace_field self) ↔ is_Some (_trace_field_numerical_root self))
  ∧ (is_Some (_trace_field self) ↔ is_Some (_trace_field_generators self))
  ∧ (is_Some (_invariant_trace_field self)
     ↔ is_Some (_invariant_trace_field_numerical_root self))
  ∧ (is_Some (_invariant_trace_field self)
     ↔ is_Some (_invariant_trace_field_generators self))
  ∧ (is_Some (_quaternion_algebra self) → is_Some (_trace_field self))
  ∧ (is_Some (_invariant_quaternion_algebra self)
     → is_Some (_invariant_trace_field self))
  ∧ (∀ denoms, _denominators self = Some denoms →
               _denominator_residue_characteristics self
               = Some (residue_characteristics_of X denoms))
  ∧ (_denominators self = None
     → _denominator_residue_characteristics self = None)
  ∧ (is_Some (_denominators self) → is_Some (_trace_field_generators self))
  ∧ _approx_trace_field_gens self = trace_field_gens X (_snappy_mfld self).
Proof.
  intros Hreach. apply coherent_of_reachable in Hreach.
  destruct Hreach as (Hroot & Htf & Hitf & [Hqa Hiqa] & Hcons & Hrc & Hden & Hg).
  pose proof (Hroot TraceField) as Hr1.
  pose proof (Hroot InvariantTraceField) as Hr2.
  by split_and!.
Qed.

(** X8.  No resolving method forgets anything: whatever the arguments and the
    outcome (a value, None, an exception, no return), the wrapped manifold
    and the approximate generators are untouched, a field or algebra that
    was known is still known, known denominators are the same set, and
    every coordinate that was in a record is still in it. *)
Theorem methods_forget_nothing self log :
  (∀ k prec degree,
     k = TraceField ∨ k = InvariantTraceField →
     nothing_forgotten self (field_method X k prec degree (self, log)).2.1)
  ∧ (∀ invariant fuel prec,
       invariant = QuaternionAlgebra ∨ invariant = InvariantQuaternionAlgebra →
       nothing_forgotten self
         (algebra_method X invariant fuel prec (self, log)).2.1)
  ∧ nothing_forgotten self (denominators X (self, log)).2.1
  ∧ nothing_forgotten self (denominator_residue_characteristics X (self, log)).2.1
  ∧ (∀ fuel prec degree,
       nothing_forgotten self
         (compute_arithmetic_invariants X fuel prec degree (self, log)).2.1).
Proof.
  split_and!; intros; apply rtc_assignment_nothing_forgotten.
  - by apply field_method_assigns.
  - by apply algebra_method_assigns.
  - apply denominators_assigns.
  - apply denominator_residue_characteristics_assigns.
  - apply compute_arithmetic_invariants_assigns.
Qed.

End CoherenceFacts.

(** ** What the methods raise *)

Section OutcomeFacts.

Context {Host Gens Field AAN Elt Poly Word Ideal Algebra Iso : Type}.
Context `{EqDecision Field} `{EqDecision Algebra}.
Context `{Countable Ideal}.
Variable X : @Collaborators Host Gens Field AAN Elt Poly Word Ideal Algebra Iso.

Implicit Types (self : @ManifoldNT Host Gens Field AAN Elt Ideal Algebra _ _).
Implicit Types (log : list (@Call Gens)).

Ltac run_method :=
  unfold mbind, Method_bind, mret, Method_ret, get_self, lift, raise,
    call_find_field, log_call, modify; simpl.






End OutcomeFacts.

(** ** What is cached, and the denominators *)

Section CacheFacts.

Context {Host Gens Field AAN Elt Poly Word Ideal Algebra Iso : Type}.
Context `{EqDecision Field} `{EqDecision Algebra}.
Context `{Countable Ideal}.
Variable X : @Collaborators Host Gens Field AAN Elt Poly Word Ideal Algebra Iso.

Implicit Types (self : @ManifoldNT Host Gens Field AAN Elt Ideal Algebra _ _).
Implicit Types (log : list (@Call Gens)).

Ltac run_method :=
  unfold mbind, Method_bind, mret, Method_ret, get_self, lift, raise,
    call_find_field, log_call, modify; simpl.

Lemma field_of_after_field_found k key field root gens self :
  k = TraceField ∨ k = InvariantTraceField →
  field_of k (after_field_found X k key field root gens self) = Some field
  ∧ numerical_root_of k (after_field_found X k key field root gens self)
    = Some root
  ∧ field_record (after_field_found X k key field root gens self) k
    = <[key := true]> (field_record self k).
Proof.
  intros [-> | ->]; simpl; [|done].
  by destruct (bool_decide (_invariant_trace_field self = None)
               && negb (is_modtwo_homology_sphere X self)).
Qed.

(** A field method that returns a field has stored it. *)
Lemma field_method_Some k self log prec degree v self' log' :
  k = TraceField ∨ k = InvariantTraceField →
  field_method X k prec degree (self, log) = (Ok (Some v), (self', log')) →
  field_of k self' = Some v.
Proof.
  intros Hk Hrun.
  destruct (decide (is_Some (field_of k self) ∧ prec = None ∧ degree = None))
    as [([f Hf] & -> & ->)|Hno].
  { rewrite (field_method_cached X k self log f) in Hrun by done. congruence. }
  destruct (field_method_Ok_inv X _ _ _ _ _ _ _ Hk Hno Hrun) as (p & d & Hp & Hd).
  rewrite (field_method_attempt X k self log prec degree p d) in Hrun by done.
  simpl in Hrun.
  destruct (find_field X (approx_gens_of k self) p d) as [[[f r] g]|]; [|done].
  injection Hrun as <- <- <-. by apply field_of_after_field_found.
Qed.

Lemma conclude_algebra_Some inv p field after a self' log' :
  conclude_algebra X inv p field after = (Ok (Some a), (self', log')) →
  algebra_of inv self' = Some a.
Proof.
  destruct after as [[[[e1|] [e2|]]|e|] [s l]]; simpl; try done.
  intros [= <- <- <-]. unfold algebra_of. simpl.
  by destruct (bool_decide (inv = QuaternionAlgebra)).
Qed.

(** An algebra method that returns an algebra has stored it. *)
Lemma algebra_method_Some inv fuel self log prec v self' log' :
  inv = QuaternionAlgebra ∨ inv = InvariantQuaternionAlgebra →
  algebra_method X inv fuel prec (self, log) = (Ok (Some v), (self', log')) →
  algebra_of inv self' = Some v.
Proof.
  intros Hinv Hrun.
  destruct (decide (is_Some (algebra_of inv self) ∧ prec = None))
    as [([a Ha] & ->)|Hno].
  { rewrite (algebra_method_cached X inv fuel self log a) in Hrun by done.
    congruence. }
  destruct (algebra_method_Ok_inv X _ _ _ _ _ _ _ Hinv Hno Hrun)
    as (p & Hp & Hdeg).
  destruct (field_of (associated_field inv) self) as [field|] eqn:Hfield.
  - rewrite (algebra_method_known X inv fuel self log prec p field) in Hrun
      by done.
    by apply conclude_algebra_Some in Hrun.
  - destruct (Hdeg eq_refl) as [d Hd].
    destruct (find_field X (approx_gens_of (associated_field inv) self) p d)
      as [[[field root] g]|] eqn:Hfind.
    + rewrite (algebra_method_field_found X inv fuel self log prec p d
                 field root g) in Hrun by done.
      by apply conclude_algebra_Some in Hrun.
    + by rewrite (algebra_method_field_failed X inv fuel self log prec p d)
        in Hrun.
Qed.

Lemma denominators_Some self log v self' log' :
  denominators X (self, log) = (Ok (Some v), (self', log')) →
  _denominators self' = Some v.
Proof.
  unfold denominators. run_method.
  destruct (_denominators self) as [D|] eqn:HD.
  - by intros [= <- <- _].
  - destruct (_trace_field_generators self); simpl; [|done].
    by intros [= <- <- _].
Qed.

(** X6.  What a method has returned it returns again, without arguments, with
    no search and no assignment: the two field methods, the two algebra
    methods and [denominators]. *)
Theorem results_are_cached self log :
  (∀ k prec degree v self' log',
     k = TraceField ∨ k = InvariantTraceField →
     field_method X k prec degree (self, log) = (Ok (Some v), (self', log')) →
     ∀ log'', field_method X k None None (self', log'')
              = (Ok (Some v), (self', log'')))
  ∧ (∀ invariant fuel prec v self' log',
       invariant = QuaternionAlgebra ∨ invariant = InvariantQuaternionAlgebra →
       algebra_method X invariant fuel prec (self, log)
       = (Ok (Some v), (self', log')) →
       ∀ fuel' log'', algebra_method X invariant fuel' None (self', log'')
                      = (Ok (Some v), (self', log'')))
  ∧ (∀ v self' log',
       denominators X (self, log) = (Ok (Some v), (self', log')) →
       ∀ log'', denominators X (self', log'') = (Ok (Some v), (self', log''))).
Proof.
  split_and!.
  - intros k prec degree v self' log' Hk Hrun log''.
    apply field_method_cached. by apply (field_method_Some k self log prec degree _ _ log').
  - intros inv fuel prec v self' log' Hinv Hrun fuel' log''.
    apply algebra_method_cached.
    by apply (algebra_method_Some inv fuel self log prec _ _ log').
  - intros v self' log' Hrun log''.
    apply denominators_cached. by apply (denominators_Some self log _ _ log').
Qed.

(** X5.  After the first successful search for a field, at [(p, d)], the
    planner answers [(p, d)]. *)
Theorem planner_after_first_success k self log prec degree p d v :
  k = TraceField ∨ k = InvariantTraceField →
  (∀ key, field_record self k !! key ≠ Some true) →
  ¬ (is_Some (field_of k self) ∧ prec = None ∧ degree = None) →
  arg_or_planned X prec self k planned_prec = Ok p →
  arg_or_planned X degree self k planned_degree = Ok d →
  (field_method X k prec degree (self, log)).1 = Ok (Some v) →
  next_prec_and_degree X (field_method X k prec degree (self, log)).2.1 k
  = Ok (PairOf (PDT p d)).
Proof.
  intros Hk Hall Hno Hp Hd.
  rewrite (field_method_attempt X k self log prec degree p d) by done. simpl.
  destruct (find_field X (approx_gens_of k self) p d) as [[[f r] g]|]; [|done].
  simpl. intros _.
  destruct (field_of_after_field_found k (PDT p d) f r g self Hk)
    as (_ & _ & Hrec).
  set (self' := after_field_found X k (PDT p d) f r g self) in *.
  assert (Honly : ∀ key, field_record self' k !! key = Some true → key = PDT p d).
  { intros key. rewrite Hrec, lookup_insert.
    destruct (decide (PDT p d = key)); [done|]. intros Hkey. by apply Hall in Hkey. }
  destruct (next_for_field_success X self' k 1000 20 5000 5)
    as (p' & d' & Hnext & Hp' & Hd').
  { exists (PDT p d). rewrite Hrec. apply lookup_insert_eq. }
  apply py_min_attr_spec in Hp' as [[kp [Hkp <-]] _].
  apply py_min_attr_spec in Hd' as [[kd [Hkd <-]] _].
  apply Honly in Hkp, Hkd. subst kp kd.
  by apply next_field_Ok.
Qed.

Lemma denominators_computed self log generators :
  _denominators self = None →
  _trace_field_generators self = Some generators →
  ∃ prime_ideals,
    denominators X (self, log)
    = (Ok (Some prime_ideals),
       (set_denominator_residue_characteristics
          (residue_characteristics_of X prime_ideals)
          (set_denominators prime_ideals self), log)).
Proof.
  intros HD Hg. unfold denominators. run_method. rewrite HD, Hg.
  simpl. by eexists.
Qed.

(** X11.  [denominators()]: the cached set if there is one; None, with nothing
    assigned, without the trace field's generators; otherwise the set of
    the prime ideals in the factorisations of the generators' denominator
    ideals, stored together with its residue characteristics. *)
Theorem denominators_outcome self log :
  (∀ cached, _denominators self = Some cached →
     denominators X (self, log) = (Ok (Some cached), (self, log)))
  ∧ (_denominators self = None → _trace_field_generators self = None →
     denominators X (self, log) = (Ok None, (self, log)))
  ∧ (∀ generators,
       _denominators self = None →
       _trace_field_generators self = Some generators →
       ∃ prime_ideals,
         denominators X (self, log)
         = (Ok (Some prime_ideals),
            (set_denominator_residue_characteristics
               (residue_characteristics_of X prime_ideals)
               (set_denominators prime_ideals self), log))
         ∧ (∀ P, P ∈ prime_ideals
                 ↔ ∃ element exponent,
                     element ∈ generators
                     ∧ (P, exponent) ∈ factor X (denominator_ideal X element))
         ∧ (prime_ideals = ∅
            ↔ ∀ element, element ∈ generators
                         → factor X (denominator_ideal X element) = [])).
Proof.
  split_and!.
  - intros cached. apply denominators_cached.
  - intros HD Hg. unfold denominators. run_method. by rewrite HD, Hg.
  - intros generators HD Hg. unfold denominators. run_method. rewrite HD, Hg.
    simpl. eexists. split; [reflexivity|].
    assert (Hmem : ∀ P : Ideal,
      P ∈ (list_to_set
             (elements (list_to_set (denominator_ideal X <$> generators)
                          : gset Ideal)
              ≫= λ ideal, (factor X ideal).*1) : gset Ideal)
      ↔ ∃ element exponent,
          element ∈ generators
          ∧ (P, exponent) ∈ factor X (denominator_ideal X element)).
    { intros P. rewrite elem_of_list_to_set, list_elem_of_bind. split.
      - intros (ideal & HP & Hideal).
        apply elem_of_elements, elem_of_list_to_set, list_elem_of_fmap in Hideal
          as (element & -> & Helement).
        apply list_elem_of_fmap in HP as ([P' e] & -> & HP).
        by exists element, e.
      - intros (element & e & Helement & HP).
        exists (denominator_ideal X element). split.
        + apply list_elem_of_fmap. by exists (P, e).
        + apply elem_of_elements, elem_of_list_to_set, list_elem_of_fmap.
          by exists element. }
    split; [exact Hmem|]. split.
    + intros Hempty element Helement.
      destruct (factor X (denominator_ideal X element)) as [|[P e] l] eqn:Hf;
        [done|].
      assert (HP : P ∈ (∅ : gset Ideal)); [|by apply not_elem_of_empty in HP].
      rewrite <- Hempty. apply Hmem. exists element, e. split; [done|].
      rewrite Hf. apply elem_of_cons. by left.
    + intros Hall. apply set_eq. intros P. rewrite Hmem. split.
      * intros (element & e & Helement & HP).
        rewrite (Hall element Helement) in HP. by apply elem_of_nil in HP.
      * intros HP. by apply not_elem_of_empty in HP.
Qed.

(** X12.  In a state an instance goes through,
    [denominator_residue_characteristics()] leaves the attributes as
    [denominators()] does and returns the residue characteristics of the
    set [denominators()] returns, None for None. *)
Theorem denominator_residue_characteristics_outcome self log :
  reachable X self →
  ∃ r self',
    denominators X (self, log) = (Ok r, (self', log))
    ∧ denominator_residue_characteristics X (self, log)
      = (Ok (residue_characteristics_of X <$> r), (self', log)).
Proof.
  intros Hreach. apply coherent_of_reachable in Hreach.
  destruct Hreach as (_ & _ & _ & _ & Hcons & Hrc & _).
  unfold denominator_residue_characteristics, denominators. run_method.
  destruct (_denominators self) as [D|] eqn:HD.
  - rewrite bool_decide_eq_false_2 by done. simpl.
    exists (Some D), self. split; [done|].
    rewrite HD, (Hcons D HD). simpl. by rewrite (Hcons D HD).
  - rewrite bool_decide_eq_true_2 by done. simpl. rewrite HD.
    destruct (_trace_field_generators self) as [gens|]; simpl.
    + eexists _, _. split; reflexivity.
    + exists None, self. split; [done|]. rewrite HD. simpl.
      by rewrite (Hrc eq_refl).
Qed.

End CacheFacts.

(** ** A record against its field *)

Section RecordFacts.

Context {Host Gens Field AAN Elt Poly Word Ideal Algebra Iso : Type}.
Context `{EqDecision Field} `{EqDecision Algebra}.
Context `{Countable Ideal}.
Variable X : @Collaborators Host Gens Field AAN Elt Poly Word Ideal Algebra Iso.

Implicit Types (self : @ManifoldNT Host Gens Field AAN Elt Ideal Algebra _ _).
Implicit Types (log : list (@Call Gens)).

(** X7.  A field that the invariant trace field got from the trace field's
    search outlives a failed search of its own at the same coordinate: the
    field stays, answered from the cache, while its record holds a failure
    there and, if it held no success before, no success at all. *)
Theorem copied_field_outlives_failure self log log' p d field root gens :
  _invariant_trace_field self = None →
  is_modtwo_homology_sphere X self = false →
  find_field X (_approx_trace_field_gens self) p d = Some (field, root, gens) →
  find_field X (_approx_invariant_trace_field_gens self) p d = None →
  let self1 := (trace_field X (Some p) (Some d) (self, log)).2.1 in
  let self2 := (invariant_trace_field X (Some p) (Some d) (self1, log')).2.1 in
  _invariant_trace_field_prec_record self1 !! PDT p d = Some true
  ∧ _invariant_trace_field self2 = Some field
  ∧ _invariant_trace_field_prec_record self2 !! PDT p d = Some false
  ∧ ((∀ key, _invariant_trace_field_prec_record self !! key ≠ Some true) →
     ∀ key, _invariant_trace_field_prec_record self2 !! key ≠ Some true)
  ∧ invariant_trace_field X None None (self2, log')
    = (Ok (Some field), (self2, log')).
Proof.
  intros Hitf Hsphere Hfind1 Hfind2 self1 self2.
  assert (Hs1 : self1 = invariant_trace_field_found (PDT p d) field root gens
                          (trace_field_found (PDT p d) field root gens self)).
  { unfold self1.
    rewrite (trace_field_attempt X self log (Some p) (Some d) p d);
      [|by intros (_ & ? & _)|done..].
    simpl. by rewrite Hfind1, Hitf, Hsphere. }
  assert (Hs2 : self2 = record_failure InvariantTraceField (PDT p d) self1).
  { unfold self2.
    rewrite (invariant_trace_field_attempt X self1 log' (Some p) (Some d) p d);
      [|by intros (_ & ? & _)|done..].
    simpl. rewrite Hs1. simpl. by rewrite Hfind2. }
  split_and!.
  - rewrite Hs1. simpl. apply lookup_insert_eq.
  - rewrite Hs2, Hs1. done.
  - rewrite Hs2. simpl. apply lookup_insert_eq.
  - intros Hall key. rewrite Hs2, Hs1. simpl.
    rewrite !lookup_insert. destruct (decide (PDT p d = key)); [done|].
    apply Hall.
  - apply invariant_trace_field_cached. rewrite Hs2, Hs1. done.
Qed.

End RecordFacts.

(** ** Starting over *)

Section StartingOver.

Context {Host Gens Field AAN Elt Poly Word Ideal Algebra Iso : Type}.
Context `{EqDecision Field} `{EqDecision Algebra}.
Context `{Countable Ideal}.
Variable X : @Collaborators Host Gens Field AAN Elt Poly Word Ideal Algebra Iso.

Implicit Types (self : @ManifoldNT Host Gens Field AAN Elt Ideal Algebra _ _).
Implicit Types (log : list (@Call Gens)).

Ltac run_method :=
  unfold mbind, Method_bind, mret, Method_ret, get_self, lift, raise,
    call_find_field, log_call, modify; simpl.

Lemma filter_length_0 {A} (P : A → Prop) `{∀ x, Decision (P x)} (l : list A) :
  length (filter P l) = 0%nat ↔ ∀ x, x ∈ l → ¬ P x.
Proof.
  induction l as [|a l IH]; simpl.
  - split; [|done]. intros _ x Hx. by apply elem_of_nil in Hx.
  - rewrite filter_cons. destruct (decide (P a)) as [Ha|Ha]; simpl.
    + split; [done|]. intros Hall. destruct (Hall a); [|done].
      apply elem_of_cons. by left.
    + rewrite IH. split.
      * intros Hall x Hx. apply elem_of_cons in Hx as [->|Hx]; [done|by apply Hall].
      * intros Hall x Hx. apply Hall. apply elem_of_cons. by right.
Qed.

(** X13.  A manifold is a mod-2-homology sphere exactly when every elementary
    divisor is odd (a zero divisor is even); this depends on the wrapped
    manifold only, so on nothing a resolving method assigns. *)
Theorem is_modtwo_homology_sphere_odd self :
  (is_modtwo_homology_sphere X self = true
   ↔ ∀ divisor, divisor ∈ elementary_divisors X (_snappy_mfld self)
                → Z.odd divisor = true)
  ∧ (∀ self', nothing_forgotten self self' →
              is_modtwo_homology_sphere X self'
              = is_modtwo_homology_sphere X self).
Proof.
  split.
  - unfold is_modtwo_homology_sphere. rewrite bool_decide_eq_true.
    rewrite filter_length_0. split.
    + intros Hall d Hd. specialize (Hall d Hd).
      rewrite Zodd_mod. apply Z.eqb_eq.
      pose proof (Z.mod_pos_bound d 2). lia.
    + intros Hall d Hd [-> | Hmod].
      * by specialize (Hall 0 Hd).
      * specialize (Hall d Hd). rewrite Zodd_mod in Hall.
        apply Z.eqb_eq in Hall. lia.
  - intros self' (Hhost & _). unfold is_modtwo_homology_sphere.
    by rewrite Hhost.
Qed.

(** X14.  [delete_arithmetic_invariants] against [__init__] on the same wrapped
    manifold.  Every attribute but [_approx_invariant_trace_field_gens] is
    the one [__init__] sets.  That one is the wrapped manifold's invariant
    trace field generators, where [__init__] takes, on a mod-2-homology
    sphere, the trace field generators: the two states are the same exactly
    when the manifold is no such sphere or the two generator sequences are
    equal.  Afterwards no field, root, generator list, algebra or
    denominator is known, the four records are empty, the planner answers
    as for a new instance, and deleting again changes nothing. *)
Theorem delete_arithmetic_invariants_against_init self :
  let host := _snappy_mfld self in
  let fresh := init X host in
  let deleted := delete_arithmetic_invariants X self in
  (_snappy_mfld deleted = _snappy_mfld fresh
   ∧ _trace_field deleted = _trace_field fresh
   ∧ _trace_field_numerical_root deleted = _trace_field_numerical_root fresh
   ∧ _trace_field_generators deleted = _trace_field_generators fresh
   ∧ _trace_field_prec_record deleted = _trace_field_prec_record fresh
   ∧ _invariant_trace_field deleted = _invariant_trace_field fresh
   ∧ _invariant_trace_field_numerical_root deleted = _invariant_trace_field_numerical_root fresh
   ∧ _invariant_trace_field_generators deleted = _invariant_trace_field_generators fresh
   ∧ _invariant_trace_field_prec_record deleted = _invariant_trace_field_prec_record fresh
   ∧ _quaternion_algebra deleted = _quaternion_algebra fresh
   ∧ _quaternion_algebra_prec_record deleted = _quaternion_algebra_prec_record fresh
   ∧ _invariant_quaternion_algebra deleted = _invariant_quaternion_algebra fresh
   ∧ _invariant_quaternion_algebra_prec_record deleted = _invariant_quaternion_algebra_prec_record fresh
   ∧ _denominators deleted = _denominators fresh
   ∧ _denominator_residue_characteristics deleted = _denominator_residue_characteristics fresh
   ∧ _approx_trace_field_gens deleted = _approx_trace_field_gens fresh)
  ∧ _approx_invariant_trace_field_gens deleted
    = invariant_trace_field_gens X host
  ∧ _approx_invariant_trace_field_gens fresh
    = (if is_modtwo_homology_sphere X self then trace_field_gens X host
       else invariant_trace_field_gens X host)
  ∧ (deleted = fresh
     ↔ is_modtwo_homology_sphere X self = false
       ∨ invariant_trace_field_gens X host = trace_field_gens X host)
  ∧ (_trace_field deleted = None
     ∧ _trace_field_numerical_root deleted = None
     ∧ _trace_field_generators deleted = None
     ∧ _invariant_trace_field deleted = None
     ∧ _invariant_trace_field_numerical_root deleted = None
     ∧ _invariant_trace_field_generators deleted = None
     ∧ _quaternion_algebra deleted = None
     ∧ _invariant_quaternion_algebra deleted = None
     ∧ _denominators deleted = None
     ∧ _denominator_residue_characteristics deleted = None)
  ∧ (_trace_field_prec_record deleted = ∅
     ∧ _invariant_trace_field_prec_record deleted = ∅
     ∧ _quaternion_algebra_prec_record deleted = ∅
     ∧ _invariant_quaternion_algebra_prec_record deleted = ∅)
  ∧ (∀ k, k = TraceField ∨ k = InvariantTraceField →
          next_prec_and_degree X deleted k = Ok (PairOf (PDT 1000 20)))
  ∧ (∀ invariant,
       invariant = QuaternionAlgebra ∨ invariant = InvariantQuaternionAlgebra →
       next_prec_and_degree X deleted invariant = Ok (PrecOf 1000))
  ∧ _arithmetic_invariants_known deleted = false
  ∧ is_arithmetic X deleted = None
  ∧ delete_arithmetic_invariants X deleted = deleted.
Proof.
  intros host fresh deleted.
  destruct (unattempted_plans X deleted) as [Hfield Halg]; [done..|].
  assert (Hgens : _approx_invariant_trace_field_gens fresh
    = (if is_modtwo_homology_sphere X self then trace_field_gens X host
       else invariant_trace_field_gens X host)) by done.
  split; [by split_and!|]. split; [done|]. split; [exact Hgens|].
  split; [|by split_and!].
  split.
  - intros Heq.
    assert (Hsame : _approx_invariant_trace_field_gens deleted
                    = _approx_invariant_trace_field_gens fresh)
      by (by rewrite Heq).
    rewrite Hgens in Hsame.
    destruct (is_modtwo_homology_sphere X self); [by right|by left].
  - intros Hcase. unfold deleted, fresh, delete_arithmetic_invariants, init.
    f_equal. fold host.
    change (bool_decide _) with (is_modtwo_homology_sphere X self).
    destruct (is_modtwo_homology_sphere X self); [|done].
    by destruct Hcase.
Qed.

(** X15.  [dehn_fill] leaves a state that depends on the filled manifold only,
    and a call of [trace_field()] after it searches at the first
    coordinate on the filled manifold's generators, whatever had been
    recorded before. *)
Theorem dehn_fill_starts_over {Filling Cusp : Type}
    (filled : Host → Filling → option Cusp → Host)
    (filling_data : Filling) (which_cusp : option Cusp) self log :
  let host := filled (_snappy_mfld self) filling_data which_cusp in
  let self' := delete_arithmetic_invariants X (init X host) in
  dehn_fill X filled filling_data which_cusp (self, log) = (Ok tt, (self', log))
  ∧ trace_field X None None (self', log)
    = (let log' := log ++ [CallFindField (trace_field_gens X host) 1000 20] in
       match find_field X (trace_field_gens X host) 1000 20 with
       | Some (field, root, gens) =>
           (Ok (Some field),
            (after_field_found X TraceField (PDT 1000 20) field root gens self',
             log'))
       | None => (Ok None, (record_failure TraceField (PDT 1000 20) self', log'))
       end).
Proof.
  intros host self'. split; [done|].
  change (trace_field X None None) with (field_method X TraceField None None).
  rewrite (field_method_attempt X TraceField self' log None None 1000 20);
    [done|by left| |done..].
  intros [[f Hf] _]. done.
Qed.

End StartingOver.

(** ** Computing everything *)

Section ComputeFacts.

Context {Host Gens Field AAN Elt Poly Word Ideal Algebra Iso : Type}.
Context `{EqDecision Field} `{EqDecision Algebra}.
Context `{Countable Ideal}.
Variable X : @Collaborators Host Gens Field AAN Elt Poly Word Ideal Algebra Iso.

Implicit Types (self : @ManifoldNT Host Gens Field AAN Elt Ideal Algebra _ _).
Implicit Types (log : list (@Call Gens)).

Local Abbreviation Meth := (@Method Host Gens Field AAN Elt Ideal Algebra _ _).

Ltac run_method :=
  unfold mbind, Method_bind, mret, Method_ret, get_self, lift, raise,
    call_find_field, log_call, modify; simpl.

Lemma extends_log_bind {A B} (m : Meth A) (k : A → Meth B) :
  extends_log m → (∀ a, extends_log (k a)) → extends_log (m ≫= k).
Proof.
  intros Hm Hk self log. specialize (Hm self log).
  unfold mbind, Method_bind.
  destruct (m (self, log)) as [[a|e|] [s1 l1]]; simpl in *; [|done..].
  etrans; [exact Hm|apply Hk].
Qed.

Lemma extends_log_ret {A} (a : A) : extends_log (mret a : Meth A).
Proof. by intros self log. Qed.

Lemma extends_log_lift {A} (r : Res A) : extends_log (lift r : Meth A).
Proof. by intros self log. Qed.

Lemma extends_log_get_self : extends_log (get_self : Meth _).
Proof. by intros self log. Qed.

Lemma extends_log_modify f : extends_log (modify f : Meth unit).
Proof. by intros self log. Qed.

Lemma extends_log_log_call (c : Call) : extends_log (log_call c : Meth unit).
Proof. intros self log. simpl. by apply prefix_app_r. Qed.

Ltac extends_log_steps :=
  unfold raise, call_find_field;
  repeat first
    [ apply extends_log_ret | apply extends_log_lift
    | apply extends_log_get_self | apply extends_log_modify
    | apply extends_log_log_call
    | apply extends_log_bind; [|intros ?]
    | match goal with
      | |- extends_log (if ?c then _ else _) => destruct c
      | |- extends_log (match ?x with _ => _ end) => destruct x
      | |- extends_log (let '(_, _) := ?x in _) => destruct x
      end ].

Lemma field_method_extends_log k prec degree :
  extends_log (field_method X k prec degree).
Proof.
  destruct k; simpl; unfold trace_field, invariant_trace_field;
    extends_log_steps.
Qed.

Lemma hilbert_symbol_loop_extends_log power root prec :
  ∀ fuel eps, extends_log (hilbert_symbol_loop X fuel power root prec eps).
Proof.
  induction fuel as [|fuel IH]; intros eps; simpl; [apply extends_log_lift|].
  unfold compute_approximate_hilbert_symbol. extends_log_steps. apply IH.
Qed.

Lemma algebra_method_extends_log inv fuel prec :
  extends_log (algebra_method X inv fuel prec).
Proof.
  unfold algebra_method. extends_log_steps;
    first [apply field_method_extends_log
          |apply hilbert_symbol_loop_extends_log].
Qed.

Lemma denominators_extends_log : extends_log (denominators X).
Proof. unfold denominators. extends_log_steps. Qed.

Lemma bind_Ok {A B} (m : Meth A) (k : A → Meth B) s a s' :
  m s = (Ok a, s') → (m ≫= k) s = k a s'.
Proof. intros Hm. unfold mbind, Method_bind. by rewrite Hm. Qed.

Lemma bind_lift_Ok {A B} (r : Res A) (k : A → Meth B) s a :
  r = Ok a → (lift r ≫= k) s = k a s.
Proof. by intros ->. Qed.

Lemma field_method_explicit k self log p d :
  k = TraceField ∨ k = InvariantTraceField →
  ∃ v self',
    field_method X k (Some p) (Some d) (self, log)
    = (Ok v, (self', log ++ [CallFindField (approx_gens_of k self) p d]))
    ∧ approx_gens_of InvariantTraceField self'
      = approx_gens_of InvariantTraceField self.
Proof.
  intros Hk.
  rewrite (field_method_attempt X k self log (Some p) (Some d) p d);
    [|done|by intros (_ & ? & _)|done..].
  simpl. destruct (find_field X (approx_gens_of k self) p d) as [[[f r] g]|];
    eexists _, _; (split; [reflexivity|]); [|by destruct Hk as [-> | ->]].
  destruct Hk as [-> | ->]; simpl; [|done].
  by destruct (bool_decide (_invariant_trace_field self = None)
               && negb (is_modtwo_homology_sphere X self)).
Qed.

(** X16.  [compute_arithmetic_invariants] never answers from the cache: when its
    planner calls return, it searches for the trace field and then for the
    invariant trace field, at the coordinates planned before either
    search, whatever is already known; the searches of the algebra methods
    come after these two. *)
Theorem compute_arithmetic_invariants_searches fuel prec degree self log
    tf_prec tf_degree itf_prec itf_degree qa_prec iqa_prec :
  arg_or_planned X prec self TraceField planned_prec = Ok tf_prec →
  arg_or_planned X degree self TraceField planned_degree = Ok tf_degree →
  arg_or_planned X prec self InvariantTraceField planned_prec = Ok itf_prec →
  arg_or_planned X degree self InvariantTraceField planned_degree
  = Ok itf_degree →
  arg_or_planned X prec self QuaternionAlgebra planned_int = Ok qa_prec →
  arg_or_planned X prec self InvariantQuaternionAlgebra planned_int
  = Ok iqa_prec →
  ∃ later,
    (compute_arithmetic_invariants X fuel prec degree (self, log)).2.2
    = log
      ++ CallFindField (_approx_trace_field_gens self) tf_prec tf_degree
      :: CallFindField (_approx_invariant_trace_field_gens self)
                       itf_prec itf_degree
      :: later.
Proof.
  intros H1 H2 H3 H4 H5 H6. unfold compute_arithmetic_invariants.
  unfold mbind at 1. unfold Method_bind at 1. unfold get_self at 1.
  cbv beta iota. simpl fst.
  rewrite (bind_lift_Ok _ _ _ _ H1). rewrite (bind_lift_Ok _ _ _ _ H2).
  rewrite (bind_lift_Ok _ _ _ _ H3). rewrite (bind_lift_Ok _ _ _ _ H4).
  rewrite (bind_lift_Ok _ _ _ _ H5). rewrite (bind_lift_Ok _ _ _ _ H6).
  destruct (field_method_explicit TraceField self log tf_prec tf_degree)
    as (v1 & s1 & Hrun1 & Hg1); [by left|].
  simpl in Hrun1. rewrite (bind_Ok _ _ _ _ _ Hrun1).
  destruct (field_method_explicit InvariantTraceField s1
              (log ++ [CallFindField (_approx_trace_field_gens self)
                                     tf_prec tf_degree]) itf_prec itf_degree)
    as (v2 & s2 & Hrun2 & _); [by right|].
  simpl in Hrun2, Hg1. rewrite Hg1 in Hrun2. rewrite (bind_Ok _ _ _ _ _ Hrun2).
  match goal with
  | |- context [(?m (s2, ?l)).2.2] =>
      assert (Hext : extends_log m); [|destruct (Hext s2 l) as [later Hlater]]
  end.
  { apply extends_log_bind; [apply algebra_method_extends_log|intros ?].
    apply extends_log_bind; [apply algebra_method_extends_log|intros ?].
    apply extends_log_bind; [apply extends_log_get_self|intros s].
    destruct (_trace_field_generators s) as [[|g gens]|];
      try apply extends_log_ret.
    apply extends_log_bind; [apply denominators_extends_log|intros ?].
    apply extends_log_ret. }
  exists later. rewrite Hlater. by rewrite <- !app_assoc.
Qed.

End ComputeFacts.

Section ComputeMore.

Context {Host Gens Field AAN Elt Poly Word Ideal Algebra Iso : Type}.
Context `{EqDecision Field} `{EqDecision Algebra}.
Context `{Countable Ideal}.
Variable X : @Collaborators Host Gens Field AAN Elt Poly Word Ideal Algebra Iso.

Implicit Types (self : @ManifoldNT Host Gens Field AAN Elt Ideal Algebra _ _).
Implicit Types (log : list (@Call Gens)).

Lemma entries_at_host self self' power root prec eps :
  _snappy_mfld self' = _snappy_mfld self →
  entries_at X self' power root prec eps = entries_at X self power root prec eps.
Proof. intros Hhost. unfold entries_at. by rewrite Hhost. Qed.

(** The whole of an algebra method whose field is known and whose loop
    stops after [n + 1] searches with two entries. *)
Lemma algebra_method_resolves inv fuel self log p field root n a b :
  inv = QuaternionAlgebra ∨ inv = InvariantQuaternionAlgebra →
  field_of (associated_field inv) self = Some field →
  numerical_root_of (associated_field inv) self = Some root →
  (∀ i, (i < n)%nat →
        retried X (entries_at X self (power_of inv) root p
                              (10 * 10 ^ Z.of_nat i)) = true) →
  entries_at X self (power_of inv) root p (10 * 10 ^ Z.of_nat n)
  = (Some a, Some b) →
  retried X (Some a, Some b) = false →
  (n < fuel)%nat →
  algebra_method X inv fuel (Some p) (self, log)
  = (Ok (Some (mk_algebra X field (poly_at_gen X a field)
                                  (poly_at_gen X b field))),
     (set_quaternion_algebra inv
        (mk_algebra X field (poly_at_gen X a field) (poly_at_gen X b field))
        (set_quaternion_algebra_prec_record inv p true self),
      log ++ hilbert_calls (S n) (power_of inv) 10)).
Proof.
  intros Hinv Hfield Hroot Hretry Hentries Hstop Hfuel.
  rewrite (algebra_method_known X inv fuel self log (Some p) p field);
    [|by intros [_ ?]|done..].
  rewrite Hroot.
  rewrite (hilbert_symbol_loop_stops X self (power_of inv) root p n);
    [|done|by rewrite Hentries|done].
  rewrite Hentries. simpl.
  unfold retried, eq_zero in Hstop. simpl in Hstop.
  apply orb_false_iff in Hstop as [Ha Hb]. by rewrite Ha, Hb.
Qed.

(** X17.  On a new instance, when the two field searches at (1000, 20) find a
    field (the trace field with at least one generator) and both loops
    stop with two entries, [compute_arithmetic_invariants()] returns with
    the four invariants and the denominators known, so that
    [is_arithmetic()] has an answer. *)
Theorem compute_arithmetic_invariants_resolves fuel host log
    tf tf_root g gens itf itf_root itf_gens n1 a1 b1 n2 a2 b2 :
  let fresh := init X host in
  find_field X (trace_field_gens X host) 1000 20
  = Some (tf, tf_root, g :: gens) →
  find_field X (_approx_invariant_trace_field_gens fresh) 1000 20
  = Some (itf, itf_root, itf_gens) →
  (∀ i, (i < n1)%nat →
        retried X (entries_at X fresh 1 tf_root 1000 (10 * 10 ^ Z.of_nat i))
        = true) →
  entries_at X fresh 1 tf_root 1000 (10 * 10 ^ Z.of_nat n1)
  = (Some a1, Some b1) →
  retried X (Some a1, Some b1) = false →
  (∀ i, (i < n2)%nat →
        retried X (entries_at X fresh 2 itf_root 1000 (10 * 10 ^ Z.of_nat i))
        = true) →
  entries_at X fresh 2 itf_root 1000 (10 * 10 ^ Z.of_nat n2)
  = (Some a2, Some b2) →
  retried X (Some a2, Some b2) = false →
  (n1 < fuel)%nat → (n2 < fuel)%nat →
  ∃ self' log',
    compute_arithmetic_invariants X fuel None None (fresh, log)
    = (Ok tt, (self', log'))
    ∧ _arithmetic_invariants_known self' = true
    ∧ _trace_field self' = Some tf
    ∧ _invariant_trace_field self' = Some itf
    ∧ _quaternion_algebra self'
      = Some (mk_algebra X tf (poly_at_gen X a1 tf) (poly_at_gen X b1 tf))
    ∧ _invariant_quaternion_algebra self'
      = Some (mk_algebra X itf (poly_at_gen X a2 itf) (poly_at_gen X b2 itf))
    ∧ is_Some (_denominators self')
    ∧ is_Some (is_arithmetic X self').
Proof.
  intros fresh Hfind1 Hfind2 Hretry1 Hentries1 Hstop1 Hretry2 Hentries2 Hstop2
         Hfuel1 Hfuel2.
  destruct (unattempted_plans X fresh) as [Hfield Halg]; [done..|].
  unfold compute_arithmetic_invariants.
  unfold mbind at 1. unfold Method_bind at 1. unfold get_self at 1.
  cbv beta iota. simpl fst.
  rewrite (bind_lift_Ok _ _ _ 1000);
    [|unfold arg_or_planned; by rewrite Hfield by (by left)].
  rewrite (bind_lift_Ok _ _ _ 20);
    [|unfold arg_or_planned; by rewrite Hfield by (by left)].
  rewrite (bind_lift_Ok _ _ _ 1000);
    [|unfold arg_or_planned; by rewrite Hfield by (by right)].
  rewrite (bind_lift_Ok _ _ _ 20);
    [|unfold arg_or_planned; by rewrite Hfield by (by right)].
  rewrite (bind_lift_Ok _ _ _ 1000);
    [|unfold arg_or_planned; by rewrite Halg by (by left)].
  rewrite (bind_lift_Ok _ _ _ 1000);
    [|unfold arg_or_planned; by rewrite Halg by (by right)].
  (* the trace field *)
  assert (Hrun1 : trace_field X (Some 1000) (Some 20) (fresh, log)
            = (Ok (Some tf),
               (after_field_found X TraceField (PDT 1000 20) tf tf_root
                                  (g :: gens) fresh,
                log ++ [CallFindField (trace_field_gens X host) 1000 20]))).
  { change (trace_field X) with (field_method X TraceField).
    rewrite (field_method_attempt X TraceField fresh log (Some 1000) (Some 20)
               1000 20); [|by left|by intros (_ & ? & _)|done..].
    cbv zeta. change (approx_gens_of TraceField fresh)
      with (trace_field_gens X host). by rewrite Hfind1. }
  rewrite (bind_Ok _ _ _ _ _ Hrun1). clear Hrun1.
  set (s1 := after_field_found X TraceField (PDT 1000 20) tf tf_root
                               (g :: gens) fresh).
  assert (Hs1 : _snappy_mfld s1 = host
                ∧ _approx_invariant_trace_field_gens s1
                  = _approx_invariant_trace_field_gens fresh
                ∧ _trace_field s1 = Some tf
                ∧ _trace_field_numerical_root s1 = Some tf_root
                ∧ _trace_field_generators s1 = Some (g :: gens)
                ∧ _quaternion_algebra s1 = None
                ∧ _invariant_quaternion_algebra s1 = None
                ∧ _denominators s1 = None).
  { unfold s1, after_field_found. by destruct (bool_decide _ && negb _). }
  destruct Hs1 as (Hh1 & Hg1 & Htf1 & Hr1 & Hgen1 & Hqa1 & Hiqa1 & Hd1).
  (* the invariant trace field *)
  assert (Hrun2 : invariant_trace_field X (Some 1000) (Some 20)
                    (s1, log ++ [CallFindField (trace_field_gens X host) 1000 20])
            = (Ok (Some itf),
               (invariant_trace_field_found (PDT 1000 20) itf itf_root itf_gens s1,
                (log ++ [CallFindField (trace_field_gens X host) 1000 20])
                ++ [CallFindField (_approx_invariant_trace_field_gens fresh)
                                  1000 20]))).
  { change (invariant_trace_field X)
      with (field_method X InvariantTraceField).
    rewrite (field_method_attempt X InvariantTraceField s1 _ (Some 1000)
               (Some 20) 1000 20); [|by right|by intros (_ & ? & _)|done..].
    cbv zeta. change (approx_gens_of InvariantTraceField s1)
      with (_approx_invariant_trace_field_gens s1).
    by rewrite Hg1, Hfind2. }
  rewrite (bind_Ok _ _ _ _ _ Hrun2). clear Hrun2.
  set (s2 := invariant_trace_field_found (PDT 1000 20) itf itf_root itf_gens s1).
  (* the quaternion algebra *)
  unfold quaternion_algebra.
  erewrite bind_Ok; last first.
  { apply (algebra_method_resolves QuaternionAlgebra fuel s2 _ 1000 tf tf_root
             n1 a1 b1); try done; [by left| |].
    - intros i Hi. rewrite (entries_at_host fresh) by done. by apply Hretry1.
    - by rewrite (entries_at_host fresh). }
  set (s3 := set_quaternion_algebra QuaternionAlgebra _ _).
  (* the invariant quaternion algebra *)
  unfold invariant_quaternion_algebra.
  erewrite bind_Ok; last first.
  { apply (algebra_method_resolves InvariantQuaternionAlgebra fuel s3 _ 1000
             itf itf_root n2 a2 b2); try done; [by right| |].
    - intros i Hi. rewrite (entries_at_host fresh) by done. by apply Hretry2.
    - by rewrite (entries_at_host fresh). }
  set (s4 := set_quaternion_algebra InvariantQuaternionAlgebra _ _).
  (* the denominators *)
  unfold mbind at 1. unfold Method_bind at 1. unfold get_self at 1.
  cbv beta iota. cbn [fst].
  assert (Hgen4 : _trace_field_generators s4 = Some (g :: gens)) by done.
  rewrite Hgen4.
  match goal with
  | |- ∃ _ _, _ (s4, ?l) = _ ∧ _ =>
      destruct (denominators_computed X s4 l (g :: gens)) as (D & Hrun5);
        [done..|]
  end.
  rewrite (bind_Ok _ _ _ _ _ Hrun5).
  eexists _, _. split; [reflexivity|].
  simpl. rewrite Htf1.
  unfold _arithmetic_invariants_known, is_arithmetic. simpl. rewrite Htf1.
  rewrite !(bool_decide_eq_true_2 (is_Some (Some _))) by eauto.
  repeat split; eauto.
  destruct (signature X itf). eauto.
Qed.

End ComputeMore.

(** ** The comparisons, with everything known *)

Section ComparatorMore.

Context {Host Gens Field AAN Elt Poly Word Ideal Algebra Iso : Type}.
Context `{EqDecision Field} `{EqDecision Algebra}.
Context `{Countable Ideal}.
Variable X : @Collaborators Host Gens Field AAN Elt Poly Word Ideal Algebra Iso.

Implicit Types (self other : @ManifoldNT Host Gens Field AAN Elt Ideal Algebra _ _).
Implicit Types (ops : @Operands Host Gens Field AAN Elt Ideal Algebra _ _).
Implicit Types (log : list (@Call Gens)).

Ltac run_comparison :=
  unfold mbind, Comparison_bind, mret, Comparison_ret, operands, lift2; simpl.

(** [_isomorphic_quaternion_algebras] with the fields and the algebras
    cached on both sides: the four accessors return the cache. *)
Lemma isomorphic_quaternion_algebras_cached fuel (b : bool) ops log
    f_s f_o a_s a_o :
  let inv := if b then InvariantQuaternionAlgebra else QuaternionAlgebra in
  field_of (associated_field inv) (self_of ops) = Some f_s →
  field_of (associated_field inv) (other_of ops) = Some f_o →
  algebra_of inv (self_of ops) = Some a_s →
  algebra_of inv (other_of ops) = Some a_o →
  _isomorphic_quaternion_algebras X fuel b (ops, log)
  = (if bool_decide (f_s = f_o)
     then mret (algebra_is_isomorphic X a_s a_o)
     else
       same ← lift2 (same_subfield_of_CC X (Some f_s) (Some f_o) true);
       if negb same then mret false
       else
         prec ← lift2 (a ← next_prec_and_degree X (self_of ops) inv;
                       b ← next_prec_and_degree X (other_of ops) inv;
                       planned_max a b);
         if bool_decide (length (ramified_real_places X a_s)
                         ≠ length (ramified_real_places X a_o))
         then mret false
         else if bool_decide (ramified_residue_characteristics X a_s
                              ≠ ramified_residue_characteristics X a_o)
         then mret false
         else
           same ← lift2 (same_subfield_of_CC X (Some f_s) (Some f_o) false);
           '(old_prim_elt, approx_gens) ←
             (if negb same then
                lift2 (_conjugate_invariants (other_of ops));;
                lift2 (Raise KeyError)
              else
                mret (numerical_root_of (associated_field inv) (other_of ops),
                      approx_gens_of (associated_field inv) (other_of ops)));
           old_anchor ← lift2 (express_all X old_prim_elt approx_gens prec);
           new_anchor ←
             lift2 (express_all X
                      (numerical_root_of (associated_field inv) (self_of ops))
                      approx_gens prec);
           mret (algebra_is_isomorphic X a_s
                   (new_QA_via_field_isomorphism X a_o
                      (special_isomorphism X f_s f_o old_anchor new_anchor))))
      (ops, log).
Proof.
  intros inv Hfs Hfo Has Hao. unfold _isomorphic_quaternion_algebras.
  fold inv.
  unfold mbind at 1. unfold Comparison_bind at 1.
  rewrite (on_self_unchanged _ ops log (Some f_s))
    by (by apply field_method_cached).
  unfold mbind at 1. unfold Comparison_bind at 1.
  rewrite (on_other_unchanged _ ops log (Some f_o))
    by (by apply field_method_cached).
  unfold mbind at 1. unfold Comparison_bind at 1.
  rewrite (on_self_unchanged _ ops log (Some a_s))
    by (by apply algebra_method_cached).
  unfold mbind at 1. unfold Comparison_bind at 1.
  rewrite (on_other_unchanged _ ops log (Some a_o))
    by (by apply algebra_method_cached).
  cbv beta iota.
  destruct (bool_decide (f_s = f_o)); [done|].
  run_comparison.
  destruct (same_subfield_of_CC X (Some f_s) (Some f_o) true) as [[]| |];
    simpl; try done.
Qed.

(** X18.  [_isomorphic_quaternion_algebras] with the fields and the algebras
    known on both sides searches for nothing and changes nothing, and
    answers: with the same field, whether the algebras are isomorphic;
    with different fields that are not the same subfield of the complex
    numbers up to conjugation, false; otherwise, false when the numbers of
    ramified real places or the ramified residue characteristics differ;
    when they agree and the fields are the same subfield, whether the first
    algebra is isomorphic to the second carried over by the special
    isomorphism; when they agree and the fields are conjugate only, it
    raises AttributeError, [_conjugate_invariants] reading the attribute
    [_quaterion_algebra]. *)
Theorem isomorphic_quaternion_algebras_decides fuel (b : bool) ops log
    f_s f_o a_s a_o :
  let inv := if b then InvariantQuaternionAlgebra else QuaternionAlgebra in
  field_of (associated_field inv) (self_of ops) = Some f_s →
  field_of (associated_field inv) (other_of ops) = Some f_o →
  algebra_of inv (self_of ops) = Some a_s →
  algebra_of inv (other_of ops) = Some a_o →
  let run := _isomorphic_quaternion_algebras X fuel b (ops, log) in
  (f_s = f_o → run = (Ok (algebra_is_isomorphic X a_s a_o), (ops, log)))
  ∧ (f_s ≠ f_o →
     same_subfield_of_CC X (Some f_s) (Some f_o) true = Ok false →
     run = (Ok false, (ops, log)))
  ∧ (f_s ≠ f_o →
     same_subfield_of_CC X (Some f_s) (Some f_o) true = Ok true →
     ∀ prec,
       (a ← next_prec_and_degree X (self_of ops) inv;
        b ← next_prec_and_degree X (other_of ops) inv;
        planned_max a b) = Ok prec →
       (length (ramified_real_places X a_s)
        ≠ length (ramified_real_places X a_o)
        ∨ ramified_residue_characteristics X a_s
          ≠ ramified_residue_characteristics X a_o →
        run = (Ok false, (ops, log)))
       ∧ (length (ramified_real_places X a_s)
          = length (ramified_real_places X a_o) →
          ramified_residue_characteristics X a_s
          = ramified_residue_characteristics X a_o →
          (same_subfield_of_CC X (Some f_s) (Some f_o) false = Ok false →
           run = (Raise AttributeError, (ops, log)))
          ∧ (same_subfield_of_CC X (Some f_s) (Some f_o) false = Ok true →
             ∀ old_anchor new_anchor,
               express_all X
                 (numerical_root_of (associated_field inv) (other_of ops))
                 (approx_gens_of (associated_field inv) (other_of ops)) prec
               = Ok old_anchor →
               express_all X
                 (numerical_root_of (associated_field inv) (self_of ops))
                 (approx_gens_of (associated_field inv) (other_of ops)) prec
               = Ok new_anchor →
               run = (Ok (algebra_is_isomorphic X a_s
                            (new_QA_via_field_isomorphism X a_o
                               (special_isomorphism X f_s f_o
                                  old_anchor new_anchor))),
                      (ops, log))))).
Proof.
  intros inv Hfs Hfo Has Hao run. unfold run.
  rewrite (isomorphic_quaternion_algebras_cached fuel b ops log f_s f_o a_s a_o)
    by done.
  fold inv. split_and!.
  - intros Heq. by rewrite bool_decide_eq_true_2.
  - intros Hne Hconj. rewrite bool_decide_eq_false_2 by done.
    run_comparison. by rewrite Hconj.
  - intros Hne Hconj prec Hprec.
    rewrite bool_decide_eq_false_2 by done.
    unfold mbind in Hprec.
    run_comparison. rewrite Hconj. simpl. rewrite Hprec. split_and!.
    + intros [Hlen|Hrrc].
      * by rewrite bool_decide_eq_true_2.
      * destruct (bool_decide (length _ ≠ length _)); [done|].
        by rewrite bool_decide_eq_true_2.
    + intros Hlen Hrrc.
      rewrite bool_decide_eq_false_2 by (intros Hx; by apply Hx).
      rewrite bool_decide_eq_false_2 by (intros Hx; by apply Hx).
      split.
      * intros Hsame. rewrite Hsame. simpl.
        unfold _conjugate_invariants. rewrite bool_decide_eq_true_2; [done|].
        unfold inv, algebra_of in Hao. destruct b; simpl in Hao.
        -- right. rewrite Hao. eauto.
        -- left. rewrite Hao. eauto.
      * intros Hsame old_anchor new_anchor Hold Hnew.
        rewrite Hsame. simpl. by rewrite Hold, Hnew.
Qed.

Lemma same_denominators_same self ops log tf D :
  self_of ops = self → other_of ops = self →
  _trace_field self = Some tf → _denominators self = Some D →
  _same_denominators X (ops, log) = (Ok true, (ops, log)).
Proof.
  intros Hs Ho Htf HD. unfold _same_denominators.
  unfold mbind at 1. unfold Comparison_bind at 1.
  rewrite (on_self_unchanged _ ops log (Some tf))
    by (rewrite Hs; by apply trace_field_cached).
  unfold mbind at 1. unfold Comparison_bind at 1.
  rewrite (on_other_unchanged _ ops log (Some tf))
    by (rewrite Ho; by apply trace_field_cached).
  cbv beta iota.
  rewrite !(bool_decide_eq_true_2 (is_Some (Some _))) by eauto. simpl.
  unfold mbind at 1. unfold Comparison_bind at 1.
  rewrite (on_self_unchanged _ ops log (Some D))
    by (rewrite Hs; by apply denominators_cached).
  cbv beta iota.
  unfold mbind at 1. unfold Comparison_bind at 1.
  rewrite bool_decide_eq_false_2 by done.
  unfold mbind at 1. unfold Comparison_bind at 1.
  rewrite (on_other_unchanged _ ops log (Some D))
    by (rewrite Ho; by apply denominators_cached).
  cbv beta iota.
  rewrite !(bool_decide_eq_true_2 (is_Some (Some _))) by eauto.
  run_comparison. rewrite Hs, Ho.
  rewrite bool_decide_eq_false_2 by (intros Hx; by apply Hx).
  by rewrite !bool_decide_eq_true_2.
Qed.

(** X19.  A manifold whose five invariants are known, compared with itself or
    with an instance that has the same attributes, has the same arithmetic
    invariants, with no search, provided a field is the same subfield as
    itself and an algebra is isomorphic to itself. *)
Theorem compared_with_itself fuel ops log :
  other_of ops = self_of ops →
  _arithmetic_invariants_known (self_of ops) = true →
  (∀ field, same_subfield_of_CC X (Some field) (Some field) false = Ok true) →
  (∀ algebra, algebra_is_isomorphic X algebra algebra = true) →
  compare_arithmetic_invariants X fuel (ops, log)
  = (Ok [("trace field", true); ("invariant trace field", true);
         ("quaternion algebra", true); ("invariant quaternion algebra", true);
         ("denominators", true)],
     (ops, log))
  ∧ has_same_arithmetic_invariants X fuel (ops, log) = (Ok true, (ops, log)).
Proof.
  intros Hsame Hknown Hfield Halg. revert Hknown.
  unfold _arithmetic_invariants_known.
  rewrite !andb_true_iff, !bool_decide_eq_true.
  intros [[[[[tf Htf] [itf Hitf]] [qa Hqa]] [iqa Hiqa]] [D HD]].
  assert (Hcompare : compare_arithmetic_invariants X fuel (ops, log)
    = (Ok [("trace field", true); ("invariant trace field", true);
           ("quaternion algebra", true); ("invariant quaternion algebra", true);
           ("denominators", true)],
       (ops, log))).
  { unfold compare_arithmetic_invariants.
    unfold mbind at 1. unfold Comparison_bind at 1.
    rewrite (on_self_unchanged _ ops log (Some tf))
      by (by apply trace_field_cached).
    unfold mbind at 1. unfold Comparison_bind at 1.
    rewrite (on_other_unchanged _ ops log (Some tf))
      by (rewrite Hsame; by apply trace_field_cached).
    unfold mbind at 1. unfold Comparison_bind at 1.
    unfold lift2 at 1. rewrite Hfield.
    unfold mbind at 1. unfold Comparison_bind at 1.
    rewrite (on_self_unchanged _ ops log (Some itf))
      by (by apply invariant_trace_field_cached).
    unfold mbind at 1. unfold Comparison_bind at 1.
    rewrite (on_other_unchanged _ ops log (Some itf))
      by (rewrite Hsame; by apply invariant_trace_field_cached).
    unfold mbind at 1. unfold Comparison_bind at 1.
    unfold lift2 at 1. rewrite Hfield.
    unfold mbind at 1. unfold Comparison_bind at 1.
    rewrite (isomorphic_quaternion_algebras_cached fuel false ops log
               tf tf qa qa); [|by rewrite ?Hsame..].
    rewrite bool_decide_eq_true_2 by done. rewrite Halg.
    unfold mret at 1. unfold Comparison_ret at 1.
    unfold mbind at 1. unfold Comparison_bind at 1.
    rewrite (isomorphic_quaternion_algebras_cached fuel true ops log
               itf itf iqa iqa); [|by rewrite ?Hsame..].
    rewrite bool_decide_eq_true_2 by done. rewrite Halg.
    unfold mret at 1. unfold Comparison_ret at 1.
    unfold mbind at 1. unfold Comparison_bind at 1.
    by rewrite (same_denominators_same (self_of ops) ops log tf D). }
  split; [done|].
  unfold has_same_arithmetic_invariants, mbind, Comparison_bind.
  by rewrite Hcompare.
Qed.

End ComparatorMore.


(** ** Pickling and unpickling *)

Section PicklingFacts.

Context {Value : Type}.
Variable str : Value → string.
Variable of_str : string → Value.

(** X20.  Pickling an instance that has its wrapped manifold and both
    sequences of approximate generators succeeds; the unpickled instance
    has every other attribute as it was and the manifold's name, but
    neither the wrapped manifold nor the approximate generators, so that
    pickling it again raises KeyError. *)
Theorem pickle_round_trip (dict : gmap string Value) snappy_mfld gens1 gens2 :
  dict !! "_snappy_mfld" = Some snappy_mfld →
  dict !! "_approx_trace_field_gens" = Some gens1 →
  dict !! "_approx_invariant_trace_field_gens" = Some gens2 →
  ∃ state,
    __getstate__ str of_str dict = Ok state
    ∧ unpickled state !! "_snappy_mfld" = None
    ∧ unpickled state !! "_approx_trace_field_gens" = None
    ∧ unpickled state !! "_approx_invariant_trace_field_gens" = None
    ∧ unpickled state !! "snappy_mfld_name" = Some (of_str (str snappy_mfld))
    ∧ (∀ attr, attr ≠ "_snappy_mfld" → attr ≠ "_approx_trace_field_gens" →
               attr ≠ "_approx_invariant_trace_field_gens" →
               attr ≠ "snappy_mfld_name" →
               unpickled state !! attr = dict !! attr)
    ∧ __getstate__ str of_str (unpickled state) = Raise KeyError.
Proof.
  intros Hhost Hg1 Hg2.
  set (state := delete "_snappy_mfld"
                  (<["snappy_mfld_name" := of_str (str snappy_mfld)]>
                     (delete "_approx_invariant_trace_field_gens"
                        (delete "_approx_trace_field_gens" dict)))).
  assert (Hrun : __getstate__ str of_str dict = Ok state).
  { unfold __getstate__, get_snappy_mfld, del. rewrite Hg1. simpl.
    rewrite lookup_delete_ne by done. rewrite Hg2. simpl. rewrite Hhost. simpl.
    rewrite lookup_insert_ne by done. rewrite !lookup_delete_ne by done.
    by rewrite Hhost. }
  assert (Hsame : unpickled state = state).
  { unfold unpickled, __setstate__. apply (right_id_L ∅ (∪)). }
  assert (Hgens1 : state !! "_approx_trace_field_gens" = None).
  { unfold state.
    rewrite lookup_delete_ne, lookup_insert_ne, lookup_delete_ne by done.
    apply lookup_delete_eq. }
  exists state. rewrite Hsame. split_and!; try done.
  - apply lookup_delete_eq.
  - unfold state. rewrite lookup_delete_ne, lookup_insert_ne by done.
    apply lookup_delete_eq.
  - unfold state. rewrite lookup_delete_ne by done. apply lookup_insert_eq.
  - intros attr H1 H2 H3 H4. unfold state.
    by rewrite lookup_delete_ne, lookup_insert_ne, !lookup_delete_ne.
  - unfold __getstate__, del. by rewrite Hgens1.
Qed.

End PicklingFacts.

(** ** The methods on the sample collaborators *)

(** C1, as stated, fails: on two fresh manifolds, whose trace fields are
    unknown, [_same_denominators] raises nothing, returns true, and has
    made two field searches; [is_arithmetic] on a fresh manifold returns
    [None] instead of failing. *)
Lemma C1_counterexample :
  _trace_field (init Sample.always [2]) = None
  ∧ (_same_denominators Sample.always
       (Two (init Sample.always [2]) (init Sample.always [2]), [])).1 = Ok true
  ∧ (_same_denominators Sample.always
       (Two (init Sample.always [2]) (init Sample.always [2]), [])).2.2
    = [CallFindField 1 1000 20; CallFindField 1 1000 20]
  ∧ is_arithmetic Sample.always (init Sample.always [2]) = None.
Proof. vm_compute. repeat split; reflexivity. Qed.

Lemma C1_witness :
  _same_denominators Sample.two_divisors
    (Two (init Sample.two_divisors [2])
         (Sample.after (trace_field Sample.two_divisors None None)
                       (init Sample.two_divisors [2; 2])), [])
  = (Raise (RuntimeError "Trace field not known."),
     (Two (record_failure TraceField (PDT 1000 20) (init Sample.two_divisors [2]))
          (Sample.after (trace_field Sample.two_divisors None None)
                        (init Sample.two_divisors [2; 2])),
      [CallFindField 1 1000 20])).
Proof.
  destruct (C1_comparators_and_classifier Sample.two_divisors
              (Two (init Sample.two_divisors [2])
                   (Sample.after (trace_field Sample.two_divisors None None)
                                 (init Sample.two_divisors [2; 2]))) [])
    as (_ & _ & _ & Hc & _).
  apply (Hc (init Sample.two_divisors [2])
            (Sample.after (trace_field Sample.two_divisors None None)
                          (init Sample.two_divisors [2; 2]))
            1000 20 (4, 2)); vm_compute; reflexivity.
Defined.

(** C2 on two manifolds whose trace fields (4, 1) and (4, 2) are different
    but isomorphic, both with an empty set of denominators: the comparison
    does not answer false. *)
Lemma C2_witness :
  let m1 := Sample.resolved_state Sample.always_zero [2] in
  let m2 := Sample.resolved_state Sample.always_zero [2; 2] in
  _trace_field m1 = Some (4, 1)
  ∧ _trace_field m2 = Some (4, 2)
  ∧ field_is_isomorphic Sample.always_zero (4, 1) (4, 2) = true
  ∧ _denominators m1 = Some ∅
  ∧ _denominators m2 = Some ∅
  ∧ ∃ r, (_same_denominators Sample.always_zero (Two m1 m2, [])).1 = r
         ∧ r ≠ Ok false.
Proof.
  intros m1 m2. split_and!; [vm_compute; reflexivity..|].
  eexists. split; [reflexivity|].
  destruct (C2_same_denominators Sample.always_zero (Two m1 m2) []
              (4, 1) (4, 2) ∅ ∅)
    as (_ & _ & _ & _ & Hiso); [vm_compute; reflexivity..|].
  destruct Hiso as (_ & _ & Hnever);
    [discriminate|vm_compute; reflexivity|vm_compute; reflexivity|].
  by apply Hnever.
Defined.

(** C3, as stated, fails: when [express] keeps returning zero,
    [quaternion_algebra] has no outcome, whatever the number of
    iterations allowed. *)
Lemma C3_counterexample :
  let m := Sample.after (trace_field Sample.always_zero None None)
                        (init Sample.always_zero [2]) in
  ¬ ∃ fuel, (quaternion_algebra Sample.always_zero fuel None (m, [])).1
            ≠ Diverge.
Proof.
  intros m [fuel Hfuel]. apply Hfuel. unfold quaternion_algebra.
  rewrite (algebra_method_known Sample.always_zero QuaternionAlgebra fuel m []
             None 1000 (4, 1)).
  - change (numerical_root_of (associated_field QuaternionAlgebra) m)
      with (Some 7).
    rewrite hilbert_symbol_loop_spins; [reflexivity|].
    intros i _. reflexivity.
  - intros [[a Ha] _]. vm_compute in Ha. discriminate Ha.
  - reflexivity.
  - reflexivity.
Qed.

Lemma C3_witness :
  let m := Sample.after (trace_field Sample.always None None)
                        (init Sample.always [2]) in
  hilbert_symbol_loop Sample.always 5 1 (Some 7) 1000 10 (m, [])
  = (Ok (Some 9900, Some 3),
     (m, [CallHilbertWords 1 10; CallHilbertWords 1 100])).
Proof.
  intros m.
  destruct (C3_epsilon_loop Sample.always m [] 1 7 1000) as (Hstops & _).
  apply (Hstops 1%nat 5%nat).
  - intros i Hi. destruct i; [reflexivity|lia].
  - reflexivity.
  - lia.
Defined.

(** C4, as stated, fails: with the invariant trace field known (degree 5),
    not on a mod-2-homology sphere, and the trace field looked for in vain
    at (1000, 20) and (6000, 5), the next two failures are planned at
    (11000, 10) and (16000, 10), floor(log(2.2, 2)) and floor(log(3.2, 2))
    both being 1; the degree does not increase. *)
Lemma C4_counterexample :
  _invariant_trace_field Sample.failing_twice_state = Some (5, -1)
  ∧ is_modtwo_homology_sphere Sample.invariant_only_5 Sample.failing_twice_state
    = false
  ∧ _trace_field_prec_record Sample.failing_twice_state
    = <[PDT 1000 20 := false]> {[PDT 6000 5 := false]}
  ∧ floor_log Sample.invariant_only_5 11000 5 5000 5 = Ok 1
  ∧ floor_log Sample.invariant_only_5 16000 5 5000 5 = Ok 1
  ∧ next_prec_and_degree Sample.invariant_only_5 Sample.failing_twice_state
                         TraceField
    = Ok (PairOf (PDT 11000 10))
  ∧ trace_field Sample.invariant_only_5 None None
                (Sample.failing_twice_state, [])
    = (Ok None,
       (record_failure TraceField (PDT 11000 10) Sample.failing_twice_state,
        [CallFindField 1 11000 10]))
  ∧ next_prec_and_degree Sample.invariant_only_5
      (record_failure TraceField (PDT 11000 10) Sample.failing_twice_state)
      TraceField
    = Ok (PairOf (PDT 16000 10)).
Proof. vm_compute. repeat split; reflexivity. Qed.

Lemma C4_witness :
  next_prec_and_degree Sample.invariant_only_5
    (record_failure TraceField (PDT 11000 10) Sample.failing_twice_state)
    TraceField
  = (l ← floor_log Sample.invariant_only_5 (11000 + 5000) 5 5000 5;
     Ok (PairOf (PDT (11000 + 5000) ((l + 1) * 5)))).
Proof.
  destruct (C4_escalation Sample.invariant_only_5 Sample.failing_twice_state
                          TraceField (PDT 11000 10))
    as (_ & _ & Hlog).
  - by left.
  - apply no_success_of_values. vm_compute. reflexivity.
  - vm_compute. reflexivity.
  - apply (Hlog (5, -1)); [vm_compute; reflexivity|done|vm_compute; reflexivity].
Defined.

Lemma C5_witness :
  next_prec_and_degree Sample.always Sample.two_successes_state TraceField
  = Ok (PairOf (PDT 1000 20))
  ∧ _trace_field_prec_record Sample.two_successes_state !! PDT 1000 20 = None.
Proof.
  destruct (C5_planner_success_minimum Sample.always Sample.two_successes_state
                                       TraceField) as (_ & _ & H3).
  - by left.
  - apply (H3 1000 30 2000 20); [vm_compute; reflexivity|lia|lia].
Defined.

(** C6, as stated, fails: with the single failure (1000, 20) and the
    invariant trace field of degree 2 known, not on a mod-2-homology
    sphere, the planner returns degree 4 = (floor(log(3.0, 2)) + 1) * 2
    where the stated formula gives ceil(log2 3 + 1) * 2 = 6. *)
Lemma C6_counterexample :
  _invariant_trace_field Sample.failing_tf_state = Some (2, -1)
  ∧ is_modtwo_homology_sphere Sample.invariant_only Sample.failing_tf_state
    = false
  ∧ map_to_list (_trace_field_prec_record Sample.failing_tf_state)
    = [(PDT 1000 20, false)]
  ∧ floor_log Sample.invariant_only (1000 + 5000) 5 5000 2 = Ok 1
  ∧ next_prec_and_degree Sample.invariant_only Sample.failing_tf_state TraceField
    = Ok (PairOf (PDT 6000 4))
  ∧ spec_corrected_degree (1000 + 5000) 5 5000 2 = 6.
Proof. vm_compute. repeat split; reflexivity. Qed.

Lemma C6_witness :
  ∃ maxP,
    largest_failed prec (_trace_field_prec_record Sample.failing_tf_state) maxP
    ∧ next_prec_and_degree Sample.invariant_only Sample.failing_tf_state
                           TraceField
      = (l ← floor_log Sample.invariant_only (maxP + 5000) 5 5000 2;
         Ok (PairOf (PDT (maxP + 5000) ((l + 1) * 2)))).
Proof.
  destruct (C6_cross_invariant_degree Sample.invariant_only
                                      Sample.failing_tf_state) as [Htf _].
  destruct (Htf (2, -1)) as (maxP & Hmax & Hnext).
  - apply (proj1 (bool_decide_eq_false _)). vm_compute. reflexivity.
  - apply no_success_of_values. vm_compute. reflexivity.
  - vm_compute. reflexivity.
  - exists maxP. split; [exact Hmax|exact Hnext].
Defined.

Lemma C7_witness :
  ∃ self',
    trace_field Sample.always_zero None None (init Sample.always_zero [2], [])
    = (Ok (Some (4, 1)), (self', [CallFindField 1 1000 20]))
    ∧ _invariant_trace_field self' = Some (4, 1)
    ∧ _invariant_trace_field_prec_record self' !! PDT 1000 20 = Some true.
Proof.
  destruct (C7_trace_field_propagation Sample.always_zero
              (init Sample.always_zero [2]) [] None None 1000 20 (4, 1) 7 [1])
    as (self' & Hrun & _ & _ & _ & _ & Hprop & _).
  - intros [[f Hf] _]. vm_compute in Hf. discriminate Hf.
  - reflexivity.
  - reflexivity.
  - reflexivity.
  - destruct Hprop as (Hitf & _ & _ & Hrec); [reflexivity|reflexivity|].
    exists self'. split; [exact Hrun|]. split; [exact Hitf|].
    rewrite Hrec. apply lookup_insert_eq.
Defined.

(** C8, as stated, fails: one attempt of [trace_field] on a fresh manifold
    that is not a mod-2-homology sphere makes one search and writes two
    entries, one in the trace field's record and one in the invariant
    trace field's. *)
Lemma C8_counterexample :
  let self' := Sample.after (trace_field Sample.always_zero None None)
                            (init Sample.always_zero [2]) in
  _trace_field_prec_record (init Sample.always_zero [2]) = ∅
  ∧ _invariant_trace_field_prec_record (init Sample.always_zero [2]) = ∅
  ∧ (trace_field Sample.always_zero None None
                 (init Sample.always_zero [2], [])).2.2
    = [CallFindField 1 1000 20]
  ∧ map_to_list (_trace_field_prec_record self') = [(PDT 1000 20, true)]
  ∧ map_to_list (_invariant_trace_field_prec_record self')
    = [(PDT 1000 20, true)].
Proof. vm_compute. repeat split; reflexivity. Qed.

Lemma C8_witness :
  ∃ r self',
    trace_field Sample.always_zero None None (init Sample.always_zero [2], [])
    = (r, (self', [CallFindField 1 1000 20]))
    ∧ _quaternion_algebra_prec_record self' = ∅
    ∧ _invariant_quaternion_algebra_prec_record self' = ∅.
Proof.
  destruct (C8_attempt_records Sample.always_zero (init Sample.always_zero [2])
                               []) as (Htf & _).
  destruct (Htf None None 1000 20) as (r & self' & Hrun & Hrest).
  - intros [[f Hf] _]. vm_compute in Hf. discriminate Hf.
  - reflexivity.
  - reflexivity.
  - cbv zeta in Hrest. destruct Hrest as (_ & _ & _ & Hqa & Hiqa & _).
    exists r, self'. split; [exact Hrun|]. split; [exact Hqa|exact Hiqa].
Defined.

Lemma C9_witness :
  is_arithmetic Sample.degree_2 Sample.arithmetic_state = Some true.
Proof.
  destruct (C9_is_arithmetic Sample.degree_2 Sample.arithmetic_state)
    as [Hknown _].
  destruct (Hknown (2, 1) 39600 ∅) as (b & Hb & Hiff);
    [vm_compute; reflexivity..|].
  rewrite Hb. f_equal. apply Hiff. vm_compute. repeat split; reflexivity.
Defined.

Lemma C10_witness :
  quaternion_algebra Sample.never 3 None (init Sample.never [2], [])
  = (Ok None,
     (record_failure TraceField (PDT 1000 20) (init Sample.never [2]),
      [CallFindField 1 1000 20])).
Proof.
  pose proof (C10_algebra_resolves_field_first Sample.never QuaternionAlgebra 3
                (init Sample.never [2]) [] None 1000 20) as Hc.
  cbv zeta in Hc. destruct Hc as [Hfail _].
  - by left.
  - intros [[a Ha] _]. vm_compute in Ha. discriminate Ha.
  - reflexivity.
  - reflexivity.
  - reflexivity.
  - apply Hfail. reflexivity.
Defined.

(** ** The further facts on the sample collaborators *)

Lemma fix_names_insensitive_witness :
  let no_break_space := Ascii.ascii_of_nat 160 in
  fix_names (String no_break_space "TF") = fix_names "TF"
  ∧ fix_names ("TF" ++ String no_break_space "") = fix_names "TF".
Proof.
  intros no_break_space.
  destruct (fix_names_insensitive "TF" no_break_space) as (_ & Hpad & _).
  apply Hpad. reflexivity.
Defined.

Lemma planner_returns_witness :
  ∃ t, next_prec_and_degree Sample.invariant_only Sample.failing_tf_state
                            TraceField = Ok (PairOf t).
Proof.
  destruct (planner_returns Sample.invariant_only Sample.failing_tf_state)
    as (_ & _ & Htf).
  destruct Htf as [Ht _]; [|exact Ht].
  intros F maxP HF _ _ [[k [Hk Hprec]] _].
  vm_compute in HF. injection HF as <-.
  assert (Hrec : _trace_field_prec_record Sample.failing_tf_state
                 = {[PDT 1000 20 := false]}) by (vm_compute; reflexivity).
  rewrite Hrec in Hk. apply lookup_singleton_Some in Hk as [<- _].
  subst maxP. exists 1. reflexivity.
Defined.

Lemma algebra_planner_witness :
  ∃ p, next_prec_and_degree Sample.no_entries Sample.failing_qa_state
                            QuaternionAlgebra = Ok (PrecOf p)
       ∧ 1000 ≤ p
       ∧ ∀ q, _quaternion_algebra_prec_record Sample.failing_qa_state !! q
              = Some false → q + 5000 ≤ p.
Proof.
  pose proof (algebra_planner Sample.no_entries Sample.failing_qa_state
                QuaternionAlgebra (PDT 1000 20)) as Hplan.
  cbv zeta in Hplan. destruct Hplan as (_ & _ & _ & Hfail).
  - by left.
  - vm_compute. reflexivity.
  - apply Hfail. apply no_success_of_values. vm_compute. reflexivity.
Defined.

Lemma algebra_escalation_witness :
  next_prec_and_degree Sample.no_entries
    (set_quaternion_algebra_prec_record QuaternionAlgebra 1000 false
       (Sample.after (trace_field Sample.no_entries None None)
                     (init Sample.no_entries [2])))
    QuaternionAlgebra
  = Ok (PrecOf (1000 + 5000)).
Proof.
  apply (algebra_escalation Sample.no_entries).
  - by left.
  - apply no_success_of_values. vm_compute. reflexivity.
  - vm_compute. reflexivity.
Defined.

Lemma planner_after_first_success_witness :
  next_prec_and_degree Sample.always_zero
    (field_method Sample.always_zero TraceField None None
                  (init Sample.always_zero [2], [])).2.1 TraceField
  = Ok (PairOf (PDT 1000 20)).
Proof.
  apply (planner_after_first_success Sample.always_zero TraceField
           (init Sample.always_zero [2]) [] None None 1000 20 (4, 1)).
  - by left.
  - intros key. simpl. by rewrite lookup_empty.
  - intros [[f Hf] _]. vm_compute in Hf. discriminate Hf.
  - reflexivity.
  - reflexivity.
  - vm_compute. reflexivity.
Defined.

Lemma results_are_cached_witness :
  field_method Sample.always_zero TraceField None None
    (Sample.after (trace_field Sample.always_zero None None)
                  (init Sample.always_zero [2]), [])
  = (Ok (Some (4, 1)),
     (Sample.after (trace_field Sample.always_zero None None)
                   (init Sample.always_zero [2]), [])).
Proof.
  destruct (results_are_cached Sample.always_zero (init Sample.always_zero [2])
                               []) as (Hfield & _).
  apply (Hfield TraceField None None (4, 1) _ [CallFindField 1 1000 20]).
  - by left.
  - vm_compute. reflexivity.
Defined.

Lemma copied_field_outlives_failure_witness :
  let self2 :=
    (invariant_trace_field Sample.two_divisors (Some 1000) (Some 20)
       ((trace_field Sample.two_divisors (Some 1000) (Some 20)
                     (init Sample.two_divisors [2; 2], [])).2.1, [])).2.1 in
  _invariant_trace_field self2 = Some (4, 2)
  ∧ _invariant_trace_field_prec_record self2 !! PDT 1000 20 = Some false.
Proof.
  pose proof (copied_field_outlives_failure Sample.two_divisors
                (init Sample.two_divisors [2; 2]) [] [] 1000 20 (4, 2) 7 [1])
    as Hcopied.
  cbv zeta in Hcopied. destruct Hcopied as (_ & Hfield & Hrecord & _);
    [reflexivity..|].
  split; [exact Hfield|exact Hrecord].
Defined.

Lemma methods_forget_nothing_witness :
  nothing_forgotten Sample.arithmetic_state
    (algebra_method Sample.degree_2 QuaternionAlgebra 5 None
                    (Sample.arithmetic_state, [])).2.1.
Proof.
  destruct (methods_forget_nothing Sample.degree_2 Sample.arithmetic_state [])
    as (_ & Halgebra & _).
  apply Halgebra. by left.
Defined.

(** The sample state used below is one an instance goes through. *)
Lemma arithmetic_state_reachable :
  reachable Sample.degree_2 Sample.arithmetic_state.
Proof.
  unfold Sample.arithmetic_state, Sample.after.
  apply reachable_denominators.
  apply (reachable_algebra_method _ InvariantQuaternionAlgebra); [by right|].
  apply (reachable_field_method _ TraceField); [by left|].
  apply reachable_init.
Qed.

Lemma reachable_coherent_witness :
  (is_Some (_denominators Sample.arithmetic_state)
   → is_Some (_trace_field_generators Sample.arithmetic_state))
  ∧ _approx_trace_field_gens Sample.arithmetic_state
    = trace_field_gens Sample.degree_2 (_snappy_mfld Sample.arithmetic_state).
Proof.
  destruct (reachable_coherent Sample.degree_2 Sample.arithmetic_state
              arithmetic_state_reachable)
    as (_ & _ & _ & _ & _ & _ & _ & _ & Hdenominators & Hgens).
  split; [exact Hdenominators|exact Hgens].
Defined.


Lemma denominators_outcome_witness :
  ∃ prime_ideals : gset Z,
    denominators Sample.with_denominator
      (Sample.after (trace_field Sample.with_denominator None None)
                    (init Sample.with_denominator [2]), [])
    = (Ok (Some prime_ideals),
       (set_denominator_residue_characteristics
          (residue_characteristics_of Sample.with_denominator prime_ideals)
          (set_denominators prime_ideals
             (Sample.after (trace_field Sample.with_denominator None None)
                           (init Sample.with_denominator [2]))), []))
    ∧ 3 ∈ prime_ideals.
Proof.
  destruct (denominators_outcome Sample.with_denominator
              (Sample.after (trace_field Sample.with_denominator None None)
                            (init Sample.with_denominator [2])) [])
    as (_ & _ & Hcomputed).
  destruct (Hcomputed [3]) as (prime_ideals & Hrun & Hmember & _);
    [reflexivity..|].
  exists prime_ideals. split; [exact Hrun|].
  apply Hmember. exists 3, 1. split; [|vm_compute]; apply elem_of_cons; by left.
Defined.

Lemma denominator_residue_characteristics_outcome_witness :
  ∃ r self',
    denominators Sample.degree_2 (Sample.arithmetic_state, [])
    = (Ok r, (self', []))
    ∧ denominator_residue_characteristics Sample.degree_2
        (Sample.arithmetic_state, [])
      = (Ok (residue_characteristics_of Sample.degree_2 <$> r), (self', [])).
Proof.
  apply (denominator_residue_characteristics_outcome Sample.degree_2).
  exact arithmetic_state_reachable.
Defined.

Lemma is_modtwo_homology_sphere_odd_witness :
  is_modtwo_homology_sphere Sample.always (init Sample.always [1; 3]) = true.
Proof.
  destruct (is_modtwo_homology_sphere_odd Sample.always
              (init Sample.always [1; 3])) as [Hodd _].
  apply Hodd. intros divisor Hdivisor. simpl in Hdivisor.
  apply elem_of_cons in Hdivisor as [->|Hdivisor]; [reflexivity|].
  apply elem_of_cons in Hdivisor as [->|Hdivisor]; [reflexivity|].
  by apply elem_of_nil in Hdivisor.
Defined.

(** Off a mod-2-homology sphere the state is the one of a new instance; on
    one (divisors 1 and 3) it is not, the generators being 2 for the trace
    field and -2 for the invariant trace field. *)
Lemma delete_arithmetic_invariants_against_init_witness :
  let on_sphere :=
    Sample.after (trace_field Sample.always None None)
                 (init Sample.always [1; 3]) in
  (delete_arithmetic_invariants Sample.always Sample.computed_state
   = init Sample.always [2]
   ↔ is_modtwo_homology_sphere Sample.always Sample.computed_state = false
     ∨ invariant_trace_field_gens Sample.always [2]
       = trace_field_gens Sample.always [2])
  ∧ _approx_invariant_trace_field_gens
      (delete_arithmetic_invariants Sample.always on_sphere)
    = invariant_trace_field_gens Sample.always [1; 3]
  ∧ _approx_invariant_trace_field_gens (init Sample.always [1; 3])
    = (if is_modtwo_homology_sphere Sample.always on_sphere
       then trace_field_gens Sample.always [1; 3]
       else invariant_trace_field_gens Sample.always [1; 3])
  ∧ (delete_arithmetic_invariants Sample.always on_sphere
     = init Sample.always [1; 3]
     ↔ is_modtwo_homology_sphere Sample.always on_sphere = false
       ∨ invariant_trace_field_gens Sample.always [1; 3]
         = trace_field_gens Sample.always [1; 3]).
Proof.
  intros on_sphere.
  pose proof (delete_arithmetic_invariants_against_init Sample.always
                Sample.computed_state) as Hdeleted.
  pose proof (delete_arithmetic_invariants_against_init Sample.always
                on_sphere) as Hsphere.
  cbv zeta in Hdeleted, Hsphere.
  destruct Hdeleted as (_ & _ & _ & Hfresh & _).
  destruct Hsphere as (_ & Hdel & Hinit & Hiff & _).
  split; [exact Hfresh|]. split; [exact Hdel|]. split; [exact Hinit|exact Hiff].
Defined.

Lemma compute_arithmetic_invariants_searches_witness :
  ∃ later,
    (compute_arithmetic_invariants Sample.always 5 None None
       (Sample.computed_state, [])).2.2
    = [] ++ CallFindField 1 1000 20 :: CallFindField (-1) 1000 20 :: later.
Proof.
  apply (compute_arithmetic_invariants_searches Sample.always 5 None None
           Sample.computed_state [] 1000 20 1000 20 1000 1000);
    vm_compute; reflexivity.
Defined.

Lemma compute_arithmetic_invariants_resolves_witness :
  ∃ self' log',
    compute_arithmetic_invariants Sample.always 5 None None
                                  (init Sample.always [2], [])
    = (Ok tt, (self', log'))
    ∧ _arithmetic_invariants_known self' = true.
Proof.
  pose proof (compute_arithmetic_invariants_resolves Sample.always 5 [2] []
                (4, 1) 7 1 [] (4, -1) 7 [1] 1 9900 3 1 9900 4) as Hresolves.
  cbv zeta in Hresolves.
  destruct Hresolves as (self' & log' & Hrun & Hknown & _).
  - reflexivity.
  - reflexivity.
  - intros i Hi. destruct i; [reflexivity|lia].
  - reflexivity.
  - reflexivity.
  - intros i Hi. destruct i; [reflexivity|lia].
  - reflexivity.
  - reflexivity.
  - lia.
  - lia.
  - exists self', log'. split; [exact Hrun|exact Hknown].
Defined.

Lemma isomorphic_quaternion_algebras_decides_witness :
  _isomorphic_quaternion_algebras Sample.conjugates 5 false
    (Two (Sample.algebra_state [2]) (Sample.algebra_state [2; 2]), [])
  = (Raise AttributeError,
     (Two (Sample.algebra_state [2]) (Sample.algebra_state [2; 2]), [])).
Proof.
  pose proof (isomorphic_quaternion_algebras_decides Sample.conjugates 5 false
                (Two (Sample.algebra_state [2]) (Sample.algebra_state [2; 2]))
                [] (4, 1) (4, 2) 29700 29700) as Hdecides.
  cbv zeta in Hdecides.
  destruct Hdecides as (_ & _ & Hconjugate); [vm_compute; reflexivity..|].
  destruct (Hconjugate ltac:(discriminate) eq_refl (PrecInt 1000))
    as [_ Hagree]; [vm_compute; reflexivity|].
  destruct Hagree as [Hraise _]; [reflexivity..|].
  apply Hraise. reflexivity.
Defined.

Lemma compared_with_itself_witness :
  has_same_arithmetic_invariants Sample.always 5
    (Alias Sample.computed_state, [])
  = (Ok true, (Alias Sample.computed_state, [])).
Proof.
  destruct (compared_with_itself Sample.always 5 (Alias Sample.computed_state)
                                 []) as [_ Hsame].
  - reflexivity.
  - vm_compute. reflexivity.
  - intros field. simpl. by rewrite bool_decide_eq_true_2.
  - intros algebra. apply Z.eqb_refl.
  - exact Hsame.
Defined.

Lemma pickle_round_trip_witness :
  ∃ state : gmap string Z,
    __getstate__ (λ _, "m004") (λ _, 0)
      (<["_snappy_mfld" := 1]> (<["_approx_trace_field_gens" := 2]>
         (<["_approx_invariant_trace_field_gens" := 3]> {["_trace_field" := 4]})))
    = Ok state
    ∧ unpickled state !! "_trace_field" = Some 4
    ∧ unpickled state !! "_approx_trace_field_gens" = None.
Proof.
  destruct (pickle_round_trip (λ _ : Z, "m004") (λ _, 0)
              (<["_snappy_mfld" := 1]> (<["_approx_trace_field_gens" := 2]>
                 (<["_approx_invariant_trace_field_gens" := 3]>
                    {["_trace_field" := 4]}))) 1 2 3)
    as (state & Hrun & _ & Hgens & _ & _ & Hother & _);
    [vm_compute; reflexivity..|].
  exists state. split; [exact Hrun|]. split; [|exact Hgens].
  rewrite Hother by done. vm_compute. reflexivity.
Defined.
